(** * Lowering of the miko / Twinkle AST to LLVM IR: a shallow embedding

    The development follows [src/codegen/codegen.cxx]: the symbol table,
    the expression visitor, the statement visitor, [codegen_statement],
    the top level visitor and [codegen_common::format_error], together with
    [CGContext::calcRows] of [compiler/src/codegen/codegen.cpp].

    The LLVM builder is modelled as explicit state: a module (its function
    list), the basic blocks created so far, the builder's insert block and a
    counter that numbers the instructions.  A C++ exception is a [Throw]
    result that keeps the builder state reached when it was raised. *)

From Stdlib Require Import ZArith String Ascii DecimalString.
From stdpp Require Import gmap strings list.

Set Warnings "-register-all".
Local Open Scope string_scope.
Local Open Scope list_scope.

(** ** Identifiers of [parse/id.hxx] *)

(** Modelled from the spec: [id::type_name] (the header is not part of the
    sources at hand); the specification lists the kinds
    void, i8, u8, i16, u16, i32, u32, i64, u64 and bool. *)
Inductive type_name :=
| void_ | i8 | u8 | i16 | u16 | i32 | u32 | i64 | u64 | bool_.

(** Modelled from the spec: [id::variable_qualifier]; the only qualifier is
    the explicit "mutable" marker. *)
Inductive variable_qualifier := mutable_.

(** Modelled from the spec: [id::function_linkage]; the only qualifier is
    the explicit "private" marker. *)
Inductive function_linkage := private_.

Global Instance type_name_eq_dec : EqDecision type_name.
Proof. solve_decision. Defined.

(** ** LLVM types and values *)

Inductive llvm_type :=
| VoidTy
| IntegerTy (bits : nat)
| PointerTy (pointee : llvm_type).

Global Instance llvm_type_eq_dec : EqDecision llvm_type.
Proof. solve_decision. Defined.

Inductive binary_ops := Add | Sub | Mul | SDiv | UDiv | SRem | URem.

Inductive predicate :=
| ICMP_EQ | ICMP_NE | ICMP_SLT | ICMP_SGT | ICMP_SLE | ICMP_SGE.

(** An [llvm::AllocaInst]: the storage slot of one variable. *)
Record alloca := {
  alloca_id : nat;
  getAllocatedType : llvm_type;
  alloca_name : string
}.

(** An [llvm::Value]: constants, arguments and the instructions that
    produce a value.  Every instruction carries the number it was created
    with, so two loads of one slot are two values. *)
Inductive value :=
| ConstantInt (ty : llvm_type) (n : Z)
| UndefValue (ty : llvm_type)
| GlobalStringPtr (str : string)
| Argument (arg_no : nat) (ty : llvm_type) (name : string)
| AllocaInst (a : alloca)
| LoadInst (id : nat) (ty : llvm_type) (ptr : value)
| BinaryOperator (id : nat) (op : binary_ops) (lhs rhs : value)
| ICmpInst (id : nat) (p : predicate) (lhs rhs : value)
| CastInst (id : nat) (v : value) (ty : llvm_type) (is_signed : bool)
| CallInst (id : nat) (callee : string) (args : list value) (ty : llvm_type).

Fixpoint getType (v : value) : llvm_type :=
  match v with
  | ConstantInt ty _ => ty
  | UndefValue ty => ty
  | GlobalStringPtr _ => PointerTy (IntegerTy 8)
  | Argument _ ty _ => ty
  | AllocaInst a => PointerTy (getAllocatedType a)
  | LoadInst _ ty _ => ty
  | BinaryOperator _ _ lhs _ => getType lhs
  | ICmpInst _ _ _ _ => IntegerTy 1
  | CastInst _ _ ty _ => ty
  | CallInst _ _ _ ty => ty
  end.

(** [llvm::getPointerOperand]: the address operand of a load, a null
    pointer for the other values the lowering produces. *)
Definition getPointerOperand (v : value) : option value :=
  match v with
  | LoadInst _ _ ptr => Some ptr
  | _ => None
  end.

Inductive instruction :=
| Inst (v : value)
| StoreInst (v : value) (ptr : value)
| BranchInst (dest : nat)
| CondBranchInst (cond : value) (if_true if_false : nat)
| ReturnInst (retval : option value).

Definition isTerminator (i : instruction) : bool :=
  match i with
  | BranchInst _ | CondBranchInst _ _ _ | ReturnInst _ => true
  | _ => false
  end.

Definition is_ret (i : instruction) : bool :=
  match i with
  | ReturnInst _ => true
  | _ => false
  end.

(** ** The module and the builder *)

Inductive linkage_types := ExternalLinkage | InternalLinkage.

Record llvm_function := {
  fn_name : string;
  fn_return_type : llvm_type;
  fn_params : list llvm_type;
  fn_is_vararg : bool;
  fn_linkage : linkage_types;
  fn_arg_names : list string;
  fn_blocks : list nat
}.

Record basic_block := {
  bb_parent : option nat;
  bb_insts : list instruction
}.

(** The part of [codegen_common] that lowering reads and writes. *)
Record codegen_common := {
  module_functions : list llvm_function;
  blocks : list basic_block;
  insert_block : option nat;
  next_id : nat
}.

Definition empty_common : codegen_common :=
  {| module_functions := []; blocks := []; insert_block := None;
     next_id := 0 |}.

(** ** Errors and the lowering monad *)

(** A [std::runtime_error] is identified by the message handed to
    [format_error] (or [format_error_message]); the position of the node
    comes from the parser's position cache and is not part of the model.
    [undefined_behaviour] marks the places where the C++ dereferences a null
    pointer or indexes out of range. *)
Inductive error :=
| runtime_error (message : string)
| undefined_behaviour (place : string).

Inductive result (A : Type) :=
| Ok (a : A)
| Throw (e : error).
Arguments Ok {A} a.
Arguments Throw {A} e.

Definition M (A : Type) : Type := codegen_common -> result A * codegen_common.

Definition ret {A} (a : A) : M A := fun st => (Ok a, st).

Definition bind {A B} (m : M A) (f : A -> M B) : M B :=
  fun st =>
    match m st with
    | (Ok a, st') => f a st'
    | (Throw e, st') => (Throw e, st')
    end.

Definition throw {A} (e : error) : M A := fun st => (Throw e, st).

Notation "x <- m ;; k" := (bind m (fun x => k))
  (at level 100, m at next level, right associativity).
Notation "m ;;; k" := (bind m (fun _ => k))
  (at level 100, right associativity).

Definition get : M codegen_common := fun st => (Ok st, st).
Definition put (st : codegen_common) : M unit := fun _ => (Ok tt, st).

(** [when c m]: an [if (c) ...] without else. *)
Definition when (c : bool) (m : M unit) : M unit :=
  if c then m else ret tt.

(** ** Builder primitives *)

Definition set_blocks (f : list basic_block -> list basic_block)
    (st : codegen_common) : codegen_common :=
  {| module_functions := module_functions st;
     blocks := f (blocks st);
     insert_block := insert_block st;
     next_id := next_id st |}.

Definition set_functions (f : list llvm_function -> list llvm_function)
    (st : codegen_common) : codegen_common :=
  {| module_functions := f (module_functions st);
     blocks := blocks st;
     insert_block := insert_block st;
     next_id := next_id st |}.

Definition modify (f : codegen_common -> codegen_common) : M unit :=
  fun st => (Ok tt, f st).

(** A fresh instruction number. *)
Definition fresh : M nat :=
  fun st =>
    (Ok (next_id st),
     {| module_functions := module_functions st;
        blocks := blocks st;
        insert_block := insert_block st;
        next_id := S (next_id st) |}).

(** [builder.GetInsertBlock()], dereferenced: a builder without an insert
    block makes the C++ dereference a null pointer. *)
Definition GetInsertBlock : M nat :=
  st <- get ;;
  match insert_block st with
  | Some bb =>
      if decide (bb < length (blocks st)) then ret bb
      else throw (undefined_behaviour "GetInsertBlock")
  | None => throw (undefined_behaviour "GetInsertBlock")
  end.

Definition SetInsertPoint (bb : nat) : M unit :=
  modify (fun st =>
    {| module_functions := module_functions st;
       blocks := blocks st;
       insert_block := Some bb;
       next_id := next_id st |}).

Definition push_inst (i : instruction) (b : basic_block) : basic_block :=
  {| bb_parent := bb_parent b; bb_insts := bb_insts b ++ [i] |}.

Definition push_front_inst (i : instruction) (b : basic_block) : basic_block :=
  {| bb_parent := bb_parent b; bb_insts := i :: bb_insts b |}.

(** The builder appends every instruction at the end of its insert block.
    Its constant folder is not modelled: every [Create...] call yields one
    instruction. *)
Definition Insert (i : instruction) : M unit :=
  bb <- GetInsertBlock ;;
  modify (set_blocks (alter (push_inst i) bb)).

(** [BasicBlock::getTerminator]: the last instruction when it is a
    terminator. *)
Definition terminator_of (b : basic_block) : option instruction :=
  match last (bb_insts b) with
  | Some i => if isTerminator i then Some i else None
  | None => None
  end.

(** [builder.GetInsertBlock()->getTerminator()] *)
Definition getTerminator : M (option instruction) :=
  bb <- GetInsertBlock ;;
  st <- get ;;
  ret (blocks st !! bb ≫= terminator_of).

(** [bb->getParent()], dereferenced. *)
Definition getParent (bb : nat) : M nat :=
  st <- get ;;
  match blocks st !! bb ≫= bb_parent with
  | Some func => ret func
  | None => throw (undefined_behaviour "getParent")
  end.

Definition function_at (func : nat) : M llvm_function :=
  st <- get ;;
  match module_functions st !! func with
  | Some f => ret f
  | None => throw (undefined_behaviour "function")
  end.

Definition push_block (bb : nat) (f : llvm_function) : llvm_function :=
  {| fn_name := fn_name f;
     fn_return_type := fn_return_type f;
     fn_params := fn_params f;
     fn_is_vararg := fn_is_vararg f;
     fn_linkage := fn_linkage f;
     fn_arg_names := fn_arg_names f;
     fn_blocks := fn_blocks f ++ [bb] |}.

Definition set_parent (func : nat) (b : basic_block) : basic_block :=
  {| bb_parent := Some func; bb_insts := bb_insts b |}.

(** [func->getBasicBlockList().push_back(bb)] *)
Definition push_back (func bb : nat) : M unit :=
  modify (fun st =>
    set_functions (alter (push_block bb) func)
      (set_blocks (alter (set_parent func) bb) st)).

(** [llvm::BasicBlock::Create(context)]: a new, empty block that belongs to
    no function yet; [BasicBlock::Create(context, "", func)] also appends it
    to [func]. *)
Definition BasicBlock_Create (parent : option nat) : M nat :=
  st <- get ;;
  let bb := length (blocks st) in
  modify (set_blocks (fun bs => bs ++ [{| bb_parent := None; bb_insts := [] |}])) ;;;
  match parent with
  | Some func => push_back func bb
  | None => ret tt
  end ;;;
  ret bb.

(** [module->getFunction(name)] *)
Definition getFunction (name : string) : M (option (nat * llvm_function)) :=
  st <- get ;;
  ret (list_find (fun f => fn_name f = name) (module_functions st)).

(** [llvm::Function::Create(type, linkage, name, module)].  The renaming
    LLVM applies to a name the module already has is not modelled. *)
Definition Function_Create (f : llvm_function) : M nat :=
  st <- get ;;
  modify (set_functions (fun fs => fs ++ [f])) ;;;
  ret (length (module_functions st)).

Definition CreateStore (v : value) (ptr : alloca) : M unit :=
  Insert (StoreInst v (AllocaInst ptr)).

Definition CreateLoad (ty : llvm_type) (ptr : value) : M value :=
  id <- fresh ;;
  let v := LoadInst id ty ptr in
  Insert (Inst v) ;;;
  ret v.

Definition CreateBinOp (op : binary_ops) (lhs rhs : value) : M value :=
  id <- fresh ;;
  let v := BinaryOperator id op lhs rhs in
  Insert (Inst v) ;;;
  ret v.

Definition CreateICmp (p : predicate) (lhs rhs : value) : M value :=
  id <- fresh ;;
  let v := ICmpInst id p lhs rhs in
  Insert (Inst v) ;;;
  ret v.

(** [llvm::CastInst::CreateIntegerCast(v, ty, is_signed, "", block)] *)
Definition CreateIntegerCast (v : value) (ty : llvm_type) (is_signed : bool)
    : M value :=
  id <- fresh ;;
  let c := CastInst id v ty is_signed in
  Insert (Inst c) ;;;
  ret c.

(** [builder.CreateIntCast]: a value that already has the type is returned
    as it is. *)
Definition CreateIntCast (v : value) (ty : llvm_type) (is_signed : bool)
    : M value :=
  if decide (getType v = ty) then ret v
  else CreateIntegerCast v ty is_signed.

Definition CreateCall (callee : llvm_function) (args : list value) : M value :=
  id <- fresh ;;
  let v := CallInst id (fn_name callee) args (fn_return_type callee) in
  Insert (Inst v) ;;;
  ret v.

Definition CreateBr (dest : nat) : M unit := Insert (BranchInst dest).

Definition CreateCondBr (cond : value) (if_true if_false : nat) : M unit :=
  Insert (CondBranchInst cond if_true if_false).

Definition CreateRet (retval : option value) : M unit :=
  Insert (ReturnInst retval).

(** ** Utilities (codegen.cxx, lines 25-75) *)

Record variable_info := {
  inst : alloca;
  is_mutable : bool;
  is_signed : bool
}.

Abbreviation symbol_table := (gmap string variable_info).

(** [symbol_table::regist]: [unordered_map::insert] keeps an entry the name
    already has. *)
Definition regist (name : string) (info : variable_info)
    (named_values : symbol_table) : symbol_table :=
  match named_values !! name with
  | Some _ => named_values
  | None => <[name := info]> named_values
  end.

(** [symbol_table::exists] *)
Definition exists_ (name : string) (named_values : symbol_table) : bool :=
  bool_decide (is_Some (named_values !! name)).

(** Create an alloca instruction in the entry block of the function: the
    instruction goes to the front of the first block of [func]. *)
Definition create_entry_block_alloca (func : nat) (var_name : string)
    (type : llvm_type) : M alloca :=
  f <- function_at func ;;
  match head (fn_blocks f) with
  | Some entry =>
      id <- fresh ;;
      let a := {| alloca_id := id; getAllocatedType := type;
                  alloca_name := var_name |} in
      modify (set_blocks (alter (push_front_inst (Inst (AllocaInst a))) entry)) ;;;
      ret a
  | None => throw (undefined_behaviour "getEntryBlock")
  end.

(** ** Types (codegen.cxx, lines 1088-1149) *)

Record llvm_type_info := {
  type : llvm_type;
  type_is_signed : bool
}.

Definition typename_to_type (t : type_name) (is_ptr : bool)
    : option llvm_type_info :=
  let tmp :=
    match t with
    | void_ => {| type := VoidTy; type_is_signed := false |}
    | i8 => {| type := IntegerTy 8; type_is_signed := true |}
    | u8 => {| type := IntegerTy 8; type_is_signed := false |}
    | i16 => {| type := IntegerTy 16; type_is_signed := true |}
    | u16 => {| type := IntegerTy 16; type_is_signed := false |}
    | i32 => {| type := IntegerTy 32; type_is_signed := true |}
    | u32 => {| type := IntegerTy 32; type_is_signed := false |}
    | i64 => {| type := IntegerTy 64; type_is_signed := true |}
    | u64 => {| type := IntegerTy 64; type_is_signed := false |}
    | bool_ => {| type := IntegerTy 8; type_is_signed := false |}
    end in
  Some (if is_ptr
        then {| type := PointerTy (type tmp);
                type_is_signed := type_is_signed tmp |}
        else tmp).

(** The canonical boolean type, [typename_to_type(id::type_name::bool_)]. *)
Definition boolean_type : llvm_type := IntegerTy 8.

Definition i1_to_boolean (v : value) : M value :=
  match typename_to_type bool_ false with
  | Some as_ => CreateIntegerCast v (type as_) (type_is_signed as_)
  | None => throw (undefined_behaviour "BOOST_ASSERT")
  end.

(** [llvm::ConstantInt::get] and [getSigned]: the constant keeps the bits
    that fit the integer type. *)
Definition ConstantInt_get (ty : llvm_type) (n : Z) : value :=
  match ty with
  | IntegerTy bits => ConstantInt ty (n mod 2 ^ Z.of_nat bits)
  | _ => ConstantInt ty n
  end.

(** ** The syntax tree (ast.hxx, as the visitors use it) *)

Record type_info := {
  id : type_name;
  is_ptr : bool
}.

Inductive expression :=
| nil_expression
| uint_literal (node : Z)
| int_literal (node : Z)
| bool_literal (node : bool)
| string_literal (str : string)
| char_literal (ch : Z)
| unary_op_expr (op : string) (rhs : expression)
| bin_op_expr (lhs : expression) (op : string) (rhs : expression)
| variable_ref (name : string)
| function_call_expr (callee : string) (args : list expression)
| conv_expr (lhs : expression) (as_ : type_info)
| addr_of_expr (lhs : expression)
| indirection_expr (lhs : expression).

Inductive statement :=
| nil_statement
| compound_statement (statements : list statement)
| expression_statement (node : expression)
| return_statement (rhs : option expression)
| variable_def_statement (qualifier : option variable_qualifier)
    (name : string) (type : type_info) (initializer : option expression)
| if_statement (condition : expression) (then_statement : statement)
    (else_statement : option statement)
| loop_statement (body : statement)
| while_statement (cond_expr : expression) (body : statement)
| for_statement (init_expr cond_expr loop_expr : option expression)
    (body : statement)
| break_statement
| continue_statement.

Record parameter := {
  param_qualifier : option variable_qualifier;
  param_name : string;
  param_type : type_info;
  is_vararg : bool
}.

Record function_declare := {
  linkage : option function_linkage;
  decl_name : string;
  params : list parameter;
  return_type : type_info
}.

Record function_define := {
  decl : function_declare;
  body : statement
}.

Inductive top_level :=
| nil_top_level
| top_function_declare (node : function_declare)
| top_function_define (node : function_define).

(** ** Expression visitor (codegen.cxx, lines 81-443) *)

(** [format("%d", n)] *)
Definition format_d (n : nat) : string :=
  NilEmpty.string_of_uint (Nat.to_uint n).

(** [if (!v) throw std::runtime_error{...}] on a lowered value. *)
Definition or_throw (v : option value) (message : string) : M value :=
  match v with
  | Some v => ret v
  | None => throw (runtime_error message)
  end.

Definition is_assignment (op : string) : bool :=
  String.eqb op "=" || String.eqb op "+=" || String.eqb op "-="
  || String.eqb op "*=" || String.eqb op "/=" || String.eqb op "%=".

(** The assignment branch once the left-hand side is known to be a variable
    reference (lines 156-225); [rhs] is the lowered right-hand side. *)
Definition assign (scope : symbol_table) (name op : string)
    (rhs : option value) : M (option value) :=
  rhs <- or_throw rhs "failed to generate right-hand side" ;;
  match scope !! name with
  | None =>
      throw (runtime_error ("unknown variable name '" +:+ name +:+ "'"))
  | Some var_info =>
      if negb (is_mutable var_info) then
        throw (runtime_error
                 ("assignment of read-only variable '" +:+ name +:+ "'"))
      else
        when (String.eqb op "=") (CreateStore rhs (inst var_info)) ;;;
        lhs <- CreateLoad (getAllocatedType (inst var_info))
                 (AllocaInst (inst var_info)) ;;
        when (String.eqb op "+=")
          (v <- CreateBinOp Add lhs rhs ;; CreateStore v (inst var_info)) ;;;
        when (String.eqb op "-=")
          (v <- CreateBinOp Sub lhs rhs ;; CreateStore v (inst var_info)) ;;;
        when (String.eqb op "*=")
          (v <- CreateBinOp Mul lhs rhs ;; CreateStore v (inst var_info)) ;;;
        when (String.eqb op "/=")
          (assign_value <- (if is_signed var_info
                            then CreateBinOp SDiv lhs rhs
                            else CreateBinOp UDiv lhs rhs) ;;
           CreateStore assign_value (inst var_info)) ;;;
        when (String.eqb op "%=")
          (assign_value <- (if is_signed var_info
                            then CreateBinOp SRem lhs rhs
                            else CreateBinOp URem lhs rhs) ;;
           CreateStore assign_value (inst var_info)) ;;;
        v <- CreateLoad (getAllocatedType (inst var_info))
               (AllocaInst (inst var_info)) ;;
        ret (Some v)
  end.

(** The operators that are not assignments (lines 236-321); both operands
    are already lowered. *)
Definition binary (op : string) (lhs rhs : option value) : M (option value) :=
  lhs <- or_throw lhs "failed to generate left-hand side" ;;
  rhs <- or_throw rhs "failed to generate right-hand side" ;;
  if String.eqb op "+" then v <- CreateBinOp Add lhs rhs ;; ret (Some v)
  else if String.eqb op "-" then v <- CreateBinOp Sub lhs rhs ;; ret (Some v)
  else if String.eqb op "*" then v <- CreateBinOp Mul lhs rhs ;; ret (Some v)
  else if String.eqb op "/" then v <- CreateBinOp SDiv lhs rhs ;; ret (Some v)
  else if String.eqb op "%" then v <- CreateBinOp SRem lhs rhs ;; ret (Some v)
  else if String.eqb op "==" then
    c <- CreateICmp ICMP_EQ lhs rhs ;; v <- i1_to_boolean c ;; ret (Some v)
  else if String.eqb op "!=" then
    c <- CreateICmp ICMP_NE lhs rhs ;; v <- i1_to_boolean c ;; ret (Some v)
  else if String.eqb op "<" then
    c <- CreateICmp ICMP_SLT lhs rhs ;; v <- i1_to_boolean c ;; ret (Some v)
  else if String.eqb op ">" then
    c <- CreateICmp ICMP_SGT lhs rhs ;; v <- i1_to_boolean c ;; ret (Some v)
  else if String.eqb op "<=" then
    c <- CreateICmp ICMP_SLE lhs rhs ;; v <- i1_to_boolean c ;; ret (Some v)
  else if String.eqb op ">=" then
    c <- CreateICmp ICMP_SGE lhs rhs ;; v <- i1_to_boolean c ;; ret (Some v)
  else
    throw (runtime_error ("unknown operator '" +:+ op +:+ "' detected")).

(** The loop that lowers the arguments of a call, first to last
    (lines 355-365). *)
Definition lower_arguments (visit : expression -> M (option value))
    (callee : string)
    : list expression -> list value -> M (list value) :=
  fix loop (args : list expression) (args_value : list value) :=
    match args with
    | [] => ret args_value
    | arg :: rest =>
        back <- visit arg ;;
        match back with
        | None =>
            throw (runtime_error
                     ("argument set failed in call to the function '"
                      +:+ callee +:+ "'"))
        | Some v => loop rest (args_value ++ [v])
        end
    end.

(** "Verify arguments" (lines 367-377): [idx] is incremented while the
    argument is fetched, and the message prints [idx + 1]. *)
Fixpoint verify_arguments (callee : string) (args_value : list value)
    (callee_args : list llvm_type) (idx : nat) : M unit :=
  match callee_args with
  | [] => ret tt
  | arg :: rest =>
      match args_value !! idx with
      | None => throw (undefined_behaviour "args_value[idx]")
      | Some v =>
          let idx := S idx in
          if decide (getType v = arg) then
            verify_arguments callee args_value rest idx
          else
            throw (runtime_error
                     ("incompatible type for argument " +:+ format_d (idx + 1)
                      +:+ " of '" +:+ callee +:+ "'"))
      end
  end.

Fixpoint expression_visitor (scope : symbol_table) (node : expression)
    {struct node} : M (option value) :=
  match node with
  | nil_expression => ret None
  | uint_literal node => ret (Some (ConstantInt_get (IntegerTy 32) node))
  | int_literal node => ret (Some (ConstantInt_get (IntegerTy 32) node))
  | bool_literal node =>
      v <- i1_to_boolean
             (ConstantInt_get (IntegerTy 1) (if node then 1 else 0)) ;;
      ret (Some v)
  | string_literal str => ret (Some (GlobalStringPtr str))
  | char_literal ch => ret (Some (ConstantInt_get (IntegerTy 8) ch))
  | unary_op_expr op rhs =>
      rhs <- expression_visitor scope rhs ;;
      rhs <- or_throw rhs "failed to generate right-hand side" ;;
      if String.eqb op "+" then ret (Some rhs)
      else if String.eqb op "-" then
        v <- CreateBinOp Sub (ConstantInt_get (IntegerTy 32) 0) rhs ;;
        ret (Some v)
      else
        throw (runtime_error ("unknown operator '" +:+ op +:+ "' detected"))
  | bin_op_expr lhs op rhs =>
      if is_assignment op then
        match lhs with
        | variable_ref name =>
            rhs <- expression_visitor scope rhs ;;
            assign scope name op rhs
        | _ =>
            (* boost::bad_get *)
            throw (runtime_error "left-hand side was not as variable")
        end
      else
        lhs <- expression_visitor scope lhs ;;
        rhs <- expression_visitor scope rhs ;;
        binary op lhs rhs
  | variable_ref name =>
      match scope !! name with
      | None =>
          throw (runtime_error
                   ("unknown variable '" +:+ name +:+ "' referenced"))
      | Some var_info =>
          v <- CreateLoad (getAllocatedType (inst var_info))
                 (AllocaInst (inst var_info)) ;;
          ret (Some v)
      end
  | function_call_expr callee args =>
      callee_func <- getFunction callee ;;
      match callee_func with
      | None =>
          throw (runtime_error
                   ("unknown function '" +:+ callee +:+ "' referenced"))
      | Some (_, callee_func) =>
          if negb (fn_is_vararg callee_func)
             && negb (length (fn_params callee_func) =? length args)%nat
          then throw (runtime_error "incorrect arguments passed")
          else
            args_value <-
              lower_arguments (expression_visitor scope) callee args [] ;;
            verify_arguments callee args_value (fn_params callee_func) 0 ;;;
            v <- CreateCall callee_func args_value ;;
            ret (Some v)
      end
  | conv_expr lhs as_ =>
      lhs <- expression_visitor scope lhs ;;
      lhs <- or_throw lhs "failed to generate left-hand side" ;;
      match typename_to_type (id as_) (is_ptr as_) with
      | None => throw (runtime_error "conversion to an unknown type")
      | Some as_ =>
          v <- CreateIntCast lhs (type as_) (type_is_signed as_) ;;
          ret (Some v)
      end
  | addr_of_expr lhs =>
      lhs <- expression_visitor scope lhs ;;
      lhs <- or_throw lhs "failed to generate right-hand side" ;;
      ret (getPointerOperand lhs)
  | indirection_expr lhs =>
      lhs <- expression_visitor scope lhs ;;
      lhs <- or_throw lhs "failed to generate right-hand side" ;;
      match getType lhs with
      | PointerTy element => v <- CreateLoad element lhs ;; ret (Some v)
      | _ => throw (runtime_error "unary '*' requires pointer operand")
      end
  end.

(** ** Statement visitor (codegen.cxx, lines 449-859) *)

(** [if (!common.builder.GetInsertBlock()->getTerminator()) ...] *)
Definition unless_terminated (m : M unit) : M unit :=
  terminator <- getTerminator ;;
  match terminator with
  | None => m
  | Some _ => ret tt
  end.

(** [builder.GetInsertBlock()->getParent()] *)
Definition current_function : M nat :=
  bb <- GetInsertBlock ;;
  getParent bb.

(** The loop of [codegen_statement] over the statements of a compound
    statement (lines 837-850): the visitor works on [new_scope], and the
    loop is left once the insert block has a terminator. *)
Definition lower_statements
    (visit : statement -> symbol_table -> M symbol_table)
    : list statement -> symbol_table -> M unit :=
  fix loop (statements : list statement) (new_scope : symbol_table) :=
    match statements with
    | [] => ret tt
    | r :: rest =>
        new_scope <- visit r new_scope ;;
        terminator <- getTerminator ;;
        match terminator with
        | Some _ => ret tt
        | None => loop rest new_scope
        end
    end.

(** [codegen_statement] (lines 823-859), with the statement visitor it
    applies as a parameter.  [new_scope] is a copy of [scope]; what the
    visitor registers in it is dropped on return. *)
Definition codegen_statement_with
    (visit : statement -> symbol_table -> M symbol_table)
    (statement : statement) (scope : symbol_table) : M unit :=
  let new_scope := scope in
  match statement with
  | compound_statement statements => lower_statements visit statements new_scope
  | _ => visit statement new_scope ;;; ret tt
  end.

(** Convert a condition to a bool by comparing non-equal to 0. *)
Definition condition_of (cond_value : value) : M value :=
  CreateICmp ICMP_NE cond_value (ConstantInt_get boolean_type 0).

(** The visitor takes the scope by reference: the scope it leaves behind is
    its result. *)
Fixpoint statement_visitor (retvar : option alloca) (end_bb : nat)
    (break_bb continue_bb : option nat) (node : statement)
    (scope : symbol_table) {struct node} : M symbol_table :=
  match node with
  | nil_statement => ret scope
  | compound_statement statements =>
      (* codegen_statement(node, scope, ...) *)
      lower_statements (statement_visitor retvar end_bb break_bb continue_bb)
        statements scope ;;;
      ret scope
  | expression_statement node =>
      v <- expression_visitor scope node ;;
      or_throw v "failed to generate expression statement" ;;;
      ret scope
  | return_statement rhs =>
      match rhs with
      | Some rhs =>
          retval <- expression_visitor scope rhs ;;
          func <- current_function ;;
          f <- function_at func ;;
          match retval with
          | None => throw (undefined_behaviour "retval->getType()")
          | Some retval =>
              if decide (fn_return_type f = getType retval) then
                match retvar with
                | Some retvar => CreateStore retval retvar
                | None => throw (undefined_behaviour "CreateStore")
                end
              else
                throw (runtime_error "incompatible type for result type")
          end
      | None => ret tt
      end ;;;
      CreateBr end_bb ;;;
      ret scope
  | variable_def_statement qualifier name type_ initializer =>
      if exists_ name scope then
        throw (runtime_error ("redefinition of '" +:+ name +:+ "'"))
      else
        func <- current_function ;;
        match typename_to_type (id type_) (is_ptr type_) with
        | None =>
            throw (runtime_error
                     "variables of undefined type cannot be defined")
        | Some type_info =>
            inst <- create_entry_block_alloca func name (type type_info) ;;
            match initializer with
            | Some initializer =>
                initializer <- expression_visitor scope initializer ;;
                initializer <-
                  or_throw initializer
                    ("failed to generate initializer for '" +:+ name +:+ "'") ;;
                CreateStore initializer inst
            | None => ret tt
            end ;;;
            match qualifier with
            | None =>
                ret (regist name
                       {| inst := inst; is_mutable := false;
                          is_signed := type_is_signed type_info |} scope)
            | Some mutable_ =>
                ret (regist name
                       {| inst := inst; is_mutable := true;
                          is_signed := type_is_signed type_info |} scope)
            end
        end
  | if_statement condition then_statement else_statement =>
      cond_value <- expression_visitor scope condition ;;
      cond_value <- or_throw cond_value "invalid condition in if statement" ;;
      cond <- condition_of cond_value ;;
      func <- current_function ;;
      then_bb <- BasicBlock_Create (Some func) ;;
      else_bb <- BasicBlock_Create None ;;
      merge_bb <- BasicBlock_Create None ;;
      CreateCondBr cond then_bb else_bb ;;;
      SetInsertPoint then_bb ;;;
      codegen_statement_with
        (statement_visitor retvar end_bb break_bb continue_bb)
        then_statement scope ;;;
      unless_terminated (CreateBr merge_bb) ;;;
      push_back func else_bb ;;;
      SetInsertPoint else_bb ;;;
      match else_statement with
      | Some else_statement =>
          codegen_statement_with
            (statement_visitor retvar end_bb break_bb continue_bb)
            else_statement scope
      | None => ret tt
      end ;;;
      unless_terminated (CreateBr merge_bb) ;;;
      push_back func merge_bb ;;;
      SetInsertPoint merge_bb ;;;
      ret scope
  | loop_statement body =>
      func <- current_function ;;
      body_bb <- BasicBlock_Create (Some func) ;;
      loop_end_bb <- BasicBlock_Create None ;;
      CreateBr body_bb ;;;
      SetInsertPoint body_bb ;;;
      codegen_statement_with
        (statement_visitor retvar end_bb (Some loop_end_bb) (Some body_bb))
        body scope ;;;
      unless_terminated (CreateBr body_bb) ;;;
      push_back func loop_end_bb ;;;
      SetInsertPoint loop_end_bb ;;;
      ret scope
  | while_statement cond_expr body =>
      func <- current_function ;;
      cond_bb <- BasicBlock_Create (Some func) ;;
      body_bb <- BasicBlock_Create None ;;
      loop_end_bb <- BasicBlock_Create None ;;
      CreateBr cond_bb ;;;
      SetInsertPoint cond_bb ;;;
      cond_value <- expression_visitor scope cond_expr ;;
      cond_value <-
        or_throw cond_value "failed to generate condition expression" ;;
      cond <- condition_of cond_value ;;
      CreateCondBr cond body_bb loop_end_bb ;;;
      push_back func body_bb ;;;
      SetInsertPoint body_bb ;;;
      codegen_statement_with
        (statement_visitor retvar end_bb (Some loop_end_bb) (Some cond_bb))
        body scope ;;;
      unless_terminated (CreateBr cond_bb) ;;;
      push_back func loop_end_bb ;;;
      SetInsertPoint loop_end_bb ;;;
      ret scope
  | for_statement init_expr cond_expr loop_expr body =>
      match init_expr with
      | Some init_expr =>
          init_value <- expression_visitor scope init_expr ;;
          or_throw init_value
            "failed to generate initialization expression" ;;;
          ret tt
      | None => ret tt
      end ;;;
      func <- current_function ;;
      cond_bb <- BasicBlock_Create (Some func) ;;
      loop_bb <- BasicBlock_Create None ;;
      body_bb <- BasicBlock_Create None ;;
      loop_end_bb <- BasicBlock_Create None ;;
      CreateBr cond_bb ;;;
      SetInsertPoint cond_bb ;;;
      match cond_expr with
      | Some cond_expr =>
          cond_value <- expression_visitor scope cond_expr ;;
          cond_value <-
            or_throw cond_value "failed to generate condition expression" ;;
          cond <- condition_of cond_value ;;
          CreateCondBr cond body_bb loop_end_bb
      | None =>
          (* If condition is absent, unconditionally true. *)
          CreateCondBr (ConstantInt_get (IntegerTy 1) 1) body_bb loop_end_bb
      end ;;;
      push_back func body_bb ;;;
      SetInsertPoint body_bb ;;;
      codegen_statement_with
        (statement_visitor retvar end_bb (Some loop_end_bb) (Some loop_bb))
        body scope ;;;
      unless_terminated (CreateBr loop_bb) ;;;
      push_back func loop_bb ;;;
      SetInsertPoint loop_bb ;;;
      match loop_expr with
      | Some loop_expr =>
          loop_value <- expression_visitor scope loop_expr ;;
          or_throw loop_value "failed to generate loop expression" ;;;
          ret tt
      | None => ret tt
      end ;;;
      CreateBr cond_bb ;;;
      push_back func loop_end_bb ;;;
      SetInsertPoint loop_end_bb ;;;
      ret scope
  | break_statement =>
      (* Whether in a loop. *)
      match break_bb with
      | Some break_bb => CreateBr break_bb
      | None => ret tt
      end ;;;
      ret scope
  | continue_statement =>
      (* Whether in a loop. *)
      match continue_bb with
      | Some continue_bb => CreateBr continue_bb
      | None => ret tt
      end ;;;
      ret scope
  end.

Definition codegen_statement (statement : statement) (scope : symbol_table)
    (retvar : option alloca) (end_bb : nat) (break_bb continue_bb : option nat)
    : M unit :=
  codegen_statement_with
    (statement_visitor retvar end_bb break_bb continue_bb) statement scope.

(** ** Top level visitor (codegen.cxx, lines 865-1072) *)

Section TopLevel.

(** [llvm::verifyFunction]: the message of the backend's verifier when it
    finds the function broken.  [fpm.run]: the function pass manager. *)
Variable verifyFunction : codegen_common -> nat -> option string.
Variable fpm_run : nat -> codegen_common -> codegen_common.

Definition or_undefined {A} (o : option A) (place : string) : M A :=
  match o with
  | Some a => ret a
  | None => throw (undefined_behaviour place)
  end.

(** The loop that looks for the variable arguments marker
    (lines 890-901). *)
Fixpoint find_vararg (ps : list parameter) (is_vararg_ : bool) : M bool :=
  match ps with
  | [] => ret is_vararg_
  | r :: rest =>
      if is_vararg r then
        if is_vararg_ then
          throw (runtime_error "cannot have multiple variable arguments")
        else find_vararg rest true
      else find_vararg rest is_vararg_
  end.

(** The loop that resolves the types of the named parameters
    (lines 907-911). *)
Fixpoint resolve_param_types (named : list parameter) : M (list llvm_type) :=
  match named with
  | [] => ret []
  | p :: rest =>
      t <- or_undefined
             (typename_to_type (id (param_type p)) (is_ptr (param_type p)))
             "typename_to_type" ;;
      ts <- resolve_param_types rest ;;
      ret (type t :: ts)
  end.

Definition visit_function_declare (node : function_declare) : M nat :=
  let ps := params node in
  if match ps with p :: _ => is_vararg p | [] => false end then
    throw (runtime_error "requires a named argument before '...'")
  else
    is_vararg_ <- find_vararg ps false ;;
    let named_params_length :=
      if is_vararg_ then length ps - 1 else length ps in
    param_types <- resolve_param_types (take named_params_length ps) ;;
    return_type <-
      or_undefined
        (typename_to_type (id (return_type node)) (is_ptr (return_type node)))
        "typename_to_type" ;;
    Function_Create
      {| fn_name := decl_name node;
         fn_return_type := type return_type;
         fn_params := param_types;
         fn_is_vararg := is_vararg_;
         fn_linkage :=
           match linkage node with
           | None => ExternalLinkage
           | Some private_ => InternalLinkage
           end;
         fn_arg_names := param_name <$> take named_params_length ps;
         fn_blocks := [] |}.

(** The loop over [func->args()] (lines 961-989): one slot per argument,
    registered under the name the argument has in the LLVM function. *)
Fixpoint lower_parameters (func : nat) (node_params : list parameter)
    (args : list (llvm_type * string)) (arg_no : nat)
    (argument_values : symbol_table) : M symbol_table :=
  match args with
  | [] => ret argument_values
  | (arg_ty, arg_name) :: rest =>
      param_node <- or_undefined (node_params !! arg_no) "params[getArgNo()]" ;;
      match typename_to_type (id (param_type param_node))
              (is_ptr (param_type param_node)) with
      | None =>
          throw (runtime_error
                   "arguments of undefined types cannot be declared")
      | Some arg_type =>
          inst <- create_entry_block_alloca func arg_name (type arg_type) ;;
          CreateStore (Argument arg_no arg_ty arg_name) inst ;;;
          lower_parameters func node_params rest (S arg_no)
            (match param_qualifier param_node with
             | None =>
                 regist arg_name
                   {| inst := inst; is_mutable := false; is_signed := false |}
                   argument_values
             | Some mutable_ =>
                 regist arg_name
                   {| inst := inst; is_mutable := true; is_signed := false |}
                   argument_values
             end)
      end
  end.

(** Lines 945-989: the function object, its entry block and the slots of
    its arguments. *)
Definition define_entry (node : function_define) : M (nat * symbol_table) :=
  func <- getFunction (decl_name (decl node)) ;;
  func <- match func with
          | Some (func, _) => ret func
          | None => visit_function_declare (decl node)
          end ;;
  entry_bb <- BasicBlock_Create (Some func) ;;
  SetInsertPoint entry_bb ;;;
  f <- function_at func ;;
  argument_values <-
    lower_parameters func (params (decl node))
      (zip (fn_params f) (fn_arg_names f)) 0 ∅ ;;
  ret (func, argument_values).

(** Lines 991-1006: the exit block and the return slot, "used to combine
    returns into one". *)
Definition define_exit (node : function_define) (func : nat)
    : M (nat * option alloca) :=
  match typename_to_type (id (return_type (decl node)))
          (is_ptr (return_type (decl node))) with
  | None => throw (runtime_error "return type cannot be an undefined type")
  | Some return_type_ =>
      end_bb <- BasicBlock_Create None ;;
      retvar <-
        (if decide (id (return_type (decl node)) = void_) then ret None
         else a <- create_entry_block_alloca func "" (type return_type_) ;;
              ret (Some a)) ;;
      ret (end_bb, retvar)
  end.

(** Lines 1016-1038: the terminator of the block the body ends in. *)
Definition synthesize_return (node : function_define) (func : nat)
    (retvar : option alloca) (end_bb : nat) : M unit :=
  (* If there is no return, returns undef. *)
  terminator <- getTerminator ;;
  (if bool_decide (terminator = None)
      && bool_decide (id (return_type (decl node)) ≠ void_)
   then
     f <- function_at func ;;
     retvar <- or_undefined retvar "CreateStore" ;;
     (* Return 0 specially for main. *)
     if String.eqb (decl_name (decl node)) "main" then
       CreateStore (ConstantInt_get (fn_return_type f) 0) retvar ;;;
       CreateBr end_bb
     else
       CreateStore (UndefValue (fn_return_type f)) retvar ;;;
       CreateBr end_bb
   else ret tt) ;;;
  (* Inserts a terminator if the function returning void does not have
     one. *)
  terminator <- getTerminator ;;
  if bool_decide (id (return_type (decl node)) = void_)
     && bool_decide (terminator = None)
  then CreateBr end_bb
  else ret tt.

(** Lines 1040-1052: the exit block. *)
Definition emit_return (func : nat) (retvar : option alloca) (end_bb : nat)
    : M unit :=
  push_back func end_bb ;;;
  SetInsertPoint end_bb ;;;
  match retvar with
  | Some retvar =>
      retval <- CreateLoad (getAllocatedType retvar) (AllocaInst retvar) ;;
      CreateRet (Some retval)
  | None =>
      (* Function that returns void. *)
      CreateRet None
  end.

(** Lines 1016-1052: what follows the lowering of the body. *)
Definition define_return (node : function_define) (func : nat)
    (retvar : option alloca) (end_bb : nat) : M unit :=
  synthesize_return node func retvar end_bb ;;;
  emit_return func retvar end_bb.

(** Lines 1054-1065: [func->eraseFromParent()] on a broken function,
    the pass manager otherwise. *)
Definition verify_and_optimize (func : nat) : M nat :=
  st <- get ;;
  match verifyFunction st func with
  | Some message =>
      modify (set_functions (delete func)) ;;;
      throw (runtime_error message)
  | None =>
      modify (fpm_run func) ;;;
      ret func
  end.

Definition visit_function_define (node : function_define) : M nat :=
  entry <- define_entry node ;;
  let (func, argument_values) := entry in
  exit <- define_exit node func ;;
  let (end_bb, retvar) := exit in
  codegen_statement (body node) argument_values retvar end_bb None None ;;;
  define_return node func retvar end_bb ;;;
  verify_and_optimize func.

Definition top_level_visitor (node : top_level) : M nat :=
  match node with
  | nil_top_level =>
      throw (runtime_error
               "a function was executed that did not predict execution")
  | top_function_declare node => visit_function_declare node
  | top_function_define node => visit_function_define node
  end.

(** [code_generator::codegen] *)
Fixpoint codegen (ast : list top_level) : M unit :=
  match ast with
  | [] => ret tt
  | node :: rest => top_level_visitor node ;;; codegen rest
  end.

End TopLevel.

(** ** The error reporter (codegen.cxx, lines 1151-1188) *)

(** A position is a [boost::iterator_range] over the source text: two
    iterators, here their offsets from [positions.first()]. *)
Record iterator_range := {
  begin_ : nat;
  end_ : nat
}.

Definition newline : ascii := "010"%char.

(** [*iter == '\n'] *)
Definition is_newline_at (input : string) (iter : nat) : bool :=
  match String.get iter input with
  | Some ch => Ascii.eqb ch newline
  | None => false
  end.

(** "Calculate line numbers" (lines 1157-1166), as a function of the loop
    state ([iter], [rows]); the result is the state in which the loop is
    left. *)
Fixpoint count_rows (input : string) (iter rows : nat) : nat * nat :=
  let rows := if is_newline_at input iter then S rows else rows in
  match iter with
  | 0 => (0, S rows)
  | S iter' => count_rows input iter' rows
  end.

Section FormatError.

(** [file.string()], the colour macros of [utils/format.hxx] and the answer
    of [isatty(fileno(stdout))]. *)
Variable file : string.
Variables COLOR_RED COLOR_DEFAULT : string.
Variable isatty : bool.

Definition format_error (input : string) (pos : iterator_range)
    (message : string) (with_code : bool) : string :=
  let rows := snd (count_rows input (begin_ pos) 0) in
  (if isatty then
     "In file " +:+ file +:+ ", line " +:+ format_d rows +:+ ":"
     +:+ String newline "" +:+ COLOR_RED +:+ "error: " +:+ COLOR_DEFAULT
     +:+ message +:+ String newline ""
   else "")
  +:+ (if with_code
       then substring (begin_ pos) (end_ pos - begin_ pos) input
       else "").

End FormatError.

(** [CGContext::calcRows] (compiler/src/codegen/codegen.cpp, lines 93-107):
    the same loop, returning [++rows] where it meets [positions.first()]. *)
Fixpoint calcRows_loop (input : string) (iter rows : nat) : nat :=
  let rows := if is_newline_at input iter then S rows else rows in
  match iter with
  | 0 => S rows
  | S iter' => calcRows_loop input iter' rows
  end.

Definition calcRows (input : string) (pos : iterator_range) : nat :=
  calcRows_loop input (begin_ pos) 0.

(** The number of newline characters at the offsets [0 .. iter],
    [iter] included. *)
Definition newlines_through (input : string) (iter : nat) : nat :=
  length (filter (fun i => is_newline_at input i = true) (seq 0 (S iter))).

(** Following the specification's words, "scanning backward
    character-by-character from the span's start until a newline or the
    start of input is found": the offset at which such a scan ends. *)
Fixpoint scan_until_newline_or_start (input : string) (iter : nat) : nat :=
  if is_newline_at input iter then iter
  else match iter with
       | 0 => 0
       | S iter' => scan_until_newline_or_start input iter'
       end.

(** ** Notions used in the statements *)

(** [falls_through visit statements scope st scope' st']: the loop of
    [codegen_statement] lowers every statement of [statements] without an
    error and finds the insert block without a terminator after each of
    them, so that it goes on with whatever follows, in scope [scope'] and
    state [st']. *)
Inductive falls_through
    (visit : statement -> symbol_table -> M symbol_table)
    : list statement -> symbol_table -> codegen_common ->
      symbol_table -> codegen_common -> Prop :=
| falls_through_nil scope st : falls_through visit [] scope st scope st
| falls_through_cons r rest scope st scope1 st1 scope' st' :
    visit r scope st = (Ok scope1, st1) ->
    getTerminator st1 = (Ok None, st1) ->
    falls_through visit rest scope1 st1 scope' st' ->
    falls_through visit (r :: rest) scope st scope' st'.

(** The statements that end the current basic block with a branch: a
    [return], and [break] or [continue] where the loop target is set. *)
Definition jumps (break_bb continue_bb : option nat) (node : statement)
    : bool :=
  match node with
  | return_statement _ => true
  | break_statement => bool_decide (is_Some break_bb)
  | continue_statement => bool_decide (is_Some continue_bb)
  | _ => false
  end.

(** [returns P m]: whatever [m] returns without an error satisfies [P]. *)
Definition returns {A} (P : A -> Prop) (m : M A) : Prop :=
  forall st a st', m st = (Ok a, st') -> P a.

(** The number of [ret] instructions in a block, and in all the blocks. *)
Definition rets_in (b : basic_block) : nat :=
  length (filter (fun i => is_ret i = true) (bb_insts b)).

Definition count_rets (st : codegen_common) : nat :=
  sum_list_with rets_in (blocks st).

(** A function of the module only lists blocks that exist. *)
Definition well_formed (st : codegen_common) : Prop :=
  forall f bb,
    f ∈ module_functions st -> bb ∈ fn_blocks f ->
    bb < length (blocks st).

(** The invariant of the lowering of a body with exit block [end_bb]: the
    exit block is still empty, it is not the insert block, it is in the
    block list of no function, the blocks hold [n] returns in all, and the
    module has [nf] functions. *)
Definition exit_untouched (end_bb n nf : nat) (st : codegen_common) : Prop :=
  bb_insts <$> blocks st !! end_bb = Some []
  /\ insert_block st <> Some end_bb
  /\ (forall f, f ∈ module_functions st -> end_bb ∉ fn_blocks f)
  /\ count_rets st = n
  /\ length (module_functions st) = nf.

(** [preserves I m P]: when [m] runs without an error from a state that
    satisfies [I], the state it ends in satisfies [I] and its result
    satisfies [P]. *)
Definition preserves {A} (I : codegen_common -> Prop) (m : M A)
    (P : A -> Prop) : Prop :=
  forall st a st', I st -> m st = (Ok a, st') -> I st' /\ P a.

(** What the end of a function definition appends to the block the body
    left the builder in: nothing when the block has a terminator; a branch
    to the exit block for a function that returns void; for the others a
    store of zero (in "main") or of an undefined value into the return
    slot, then the branch. *)
Definition synthesized_terminator (node : function_define)
    (f : llvm_function) (retvar : option alloca) (end_bb : nat)
    (b : basic_block) : list instruction :=
  match terminator_of b with
  | Some _ => []
  | None =>
      match retvar with
      | None => [BranchInst end_bb]
      | Some retvar =>
          [StoreInst
             (if String.eqb (decl_name (decl node)) "main"
              then ConstantInt_get (fn_return_type f) 0
              else UndefValue (fn_return_type f))
             (AllocaInst retvar);
           BranchInst end_bb]
      end
  end.

(** The exit block: load the return slot and return it, or return
    nothing. *)
Definition exit_block (retvar : option alloca) (load_id : nat)
    : list instruction :=
  match retvar with
  | Some retvar =>
      let retval :=
        LoadInst load_id (getAllocatedType retvar) (AllocaInst retvar) in
      [Inst retval; ReturnInst (Some retval)]
  | None => [ReturnInst None]
  end.

(** ** Sample inputs *)

Definition declared_f : codegen_common :=
  {| module_functions :=
       [{| fn_name := "f"; fn_return_type := IntegerTy 32;
           fn_params := [IntegerTy 32]; fn_is_vararg := false;
           fn_linkage := ExternalLinkage; fn_arg_names := ["x"];
           fn_blocks := [] |}];
     blocks := [{| bb_parent := None; bb_insts := [] |}];
     insert_block := Some 0;
     next_id := 0 |}.

Definition i32_type : type_info := {| id := i32; is_ptr := false |}.

(** A declaration of [f(x: i32) -> i32], then
    [fn main() -> i32 { f(true); }]. *)
Definition call_f_with_bool : list top_level :=
  [ top_function_declare
      {| linkage := None; decl_name := "f";
         params := [{| param_qualifier := None; param_name := "x";
                       param_type := i32_type; is_vararg := false |}];
         return_type := i32_type |};
    top_function_define
      {| decl := {| linkage := None; decl_name := "main"; params := [];
                    return_type := i32_type |};
         body := compound_statement
                   [expression_statement
                      (function_call_expr "f" [bool_literal true])] |} ].

Definition slot_x : alloca :=
  {| alloca_id := 0; getAllocatedType := IntegerTy 32; alloca_name := "x" |}.

(** A scope in which [x] is bound and immutable. *)
Definition scope_const_x : symbol_table :=
  {[ "x" := {| inst := slot_x; is_mutable := false; is_signed := true |} ]}.

(** Scopes in which [x] is bound, mutable, and recorded as signed or as
    unsigned. *)
Definition scope_mutable_x (signed : bool) : symbol_table :=
  {[ "x" := {| inst := slot_x; is_mutable := true; is_signed := signed |} ]}.

(** The builder inside [fn main() -> i32], at the start of the entry
    block. *)
Definition inside_main : codegen_common :=
  {| module_functions :=
       [{| fn_name := "main"; fn_return_type := IntegerTy 32;
           fn_params := []; fn_is_vararg := false;
           fn_linkage := ExternalLinkage; fn_arg_names := [];
           fn_blocks := [0] |}];
     blocks := [{| bb_parent := Some 0; bb_insts := [] |};
                {| bb_parent := None; bb_insts := [] |}];
     insert_block := Some 0;
     next_id := 0 |}.

(** [let x: i32;] *)
Definition def_x : statement :=
  variable_def_statement None "x" i32_type None.

Definition param_x : parameter :=
  {| param_qualifier := None; param_name := "x"; param_type := i32_type;
     is_vararg := false |}.

(** Three lines, [a], [b] and [cd]; the offset 4 is the [c]. *)
Definition three_lines : string :=
  String "a" (String newline (String "b" (String newline "cd"))).

(** [fn main() -> i32 { }] *)
Definition define_main : function_define :=
  {| decl := {| linkage := None; decl_name := "main"; params := [];
                return_type := i32_type |};
     body := compound_statement [] |}.

(** ** More sample inputs *)

Definition binding_x : variable_info :=
  {| inst := slot_x; is_mutable := true; is_signed := true |}.

Definition slot_y : alloca :=
  {| alloca_id := 1; getAllocatedType := IntegerTy 8; alloca_name := "y" |}.

Definition binding_y : variable_info :=
  {| inst := slot_y; is_mutable := false; is_signed := false |}.

(** ** Notions used in the further statements *)

(** The operator names of the two families of [bin_op_expr] that are not
    assignments. *)
Definition arithmetic_operators : list string := ["+"; "-"; "*"; "/"; "%"].

Definition comparison_operators : list string :=
  ["=="; "!="; "<"; ">"; "<="; ">="].

(** The last instruction of the builder's insert block. *)
Definition last_inserted (st : codegen_common) : option instruction :=
  insert_block st ≫= fun bb => blocks st !! bb ≫= fun b => last (bb_insts b).

(** [append_insts l b]: the block [b] with the instructions [l] appended. *)
Definition append_insts (l : list instruction) (b : basic_block)
    : basic_block :=
  {| bb_parent := bb_parent b; bb_insts := bb_insts b ++ l |}.

(** [emitted l k st]: the state [st] after the builder has appended the
    instructions [l] to its insert block and numbered [k] of them. *)
Definition emitted (l : list instruction) (k : nat) (st : codegen_common)
    : codegen_common :=
  {| module_functions := module_functions st;
     blocks :=
       match insert_block st with
       | Some cur => alter (append_insts l) cur (blocks st)
       | None => blocks st
       end;
     insert_block := insert_block st;
     next_id := next_id st + k |}.

(** The operator a compound assignment applies to the old value and the
    right-hand side, for a binding recorded as [signed] or not. *)
Definition compound_operator (op : string) (signed : bool)
    : option binary_ops :=
  if String.eqb op "+=" then Some Add
  else if String.eqb op "-=" then Some Sub
  else if String.eqb op "*=" then Some Mul
  else if String.eqb op "/=" then Some (if signed then SDiv else UDiv)
  else if String.eqb op "%=" then Some (if signed then SRem else URem)
  else None.

Definition function_f : llvm_function :=
  {| fn_name := "f"; fn_return_type := IntegerTy 32;
     fn_params := [IntegerTy 32]; fn_is_vararg := false;
     fn_linkage := ExternalLinkage; fn_arg_names := ["x"];
     fn_blocks := [] |}.

Definition function_printf : llvm_function :=
  {| fn_name := "printf"; fn_return_type := IntegerTy 32;
     fn_params := [PointerTy (IntegerTy 8)]; fn_is_vararg := true;
     fn_linkage := ExternalLinkage; fn_arg_names := ["format"];
     fn_blocks := [] |}.

(** A module that declares the variadic [printf(format: *i8, ...)], with
    the builder in a block. *)
Definition declared_printf : codegen_common :=
  {| module_functions := [function_printf];
     blocks := [{| bb_parent := None; bb_insts := [] |}];
     insert_block := Some 0;
     next_id := 0 |}.

(** [fn id(mutable x: i32) -> i32 { }] *)
Definition define_id : function_define :=
  {| decl := {| linkage := None; decl_name := "id";
                params := [{| param_qualifier := Some mutable_;
                              param_name := "x"; param_type := i32_type;
                              is_vararg := false |}];
                return_type := i32_type |};
     body := compound_statement [] |}.

(** [only_appends m]: whatever [m] returns or throws, all it does to the
    state is append instructions to the insert block and number values. *)
Definition only_appends {A} (m : M A) : Prop :=
  forall st, exists l k, snd (m st) = emitted l k st.

(** The statements that lower to more than one basic block. *)
Definition is_structured (node : statement) : bool :=
  match node with
  | if_statement _ _ _ | loop_statement _ | while_statement _ _
  | for_statement _ _ _ _ => true
  | _ => false
  end.

(** [if (1) return 1; else return 2;] *)
Definition if_return_return : statement :=
  if_statement (int_literal 1)
    (return_statement (Some (int_literal 1)))
    (Some (return_statement (Some (int_literal 2)))).

(** The number of variable arguments markers in a parameter list. *)
Definition markers (ps : list parameter) : nat :=
  length (filter (fun p => is_vararg p = true) ps).

(** The type a parameter resolves to. *)
Definition resolves_to (p : parameter) (ty : llvm_type) : Prop :=
  exists t,
    typename_to_type (id (param_type p)) (is_ptr (param_type p)) = Some t
    /\ type t = ty.

Definition marker : parameter :=
  {| param_qualifier := None; param_name := "..."; param_type := i32_type;
     is_vararg := true |}.

Definition param_y : parameter :=
  {| param_qualifier := None; param_name := "y"; param_type := i32_type;
     is_vararg := false |}.

(** [extern f(x: i32, ..., y: i32) -> i32;] *)
Definition declare_marker_in_the_middle : function_declare :=
  {| linkage := None; decl_name := "f";
     params := [param_x; marker; param_y];
     return_type := i32_type |}.

(** ** The driver (lib/src/compile/main.cpp) *)

(** A [const char*] is read up to its terminating zero. *)
Definition zero : ascii := "000"%char.

Fixpoint c_str (str : string) : string :=
  match str with
  | EmptyString => EmptyString
  | String ch rest =>
      if Ascii.eqb ch zero then EmptyString else String ch (c_str rest)
  end.

(** [is_back_newline] (lines 19-26): the pointer walks to the terminating
    zero and the character in front of it is compared with the newline.
    [before] is the character in front of the pointer, [None] while the
    pointer is at the start of the buffer, where [*--str] reads outside of
    it. *)
Fixpoint is_back_newline_loop (str : string) (before : option ascii)
    : option bool :=
  match str with
  | EmptyString => option_map (fun ch => Ascii.eqb ch newline) before
  | String ch rest =>
      if Ascii.eqb ch zero
      then option_map (fun ch => Ascii.eqb ch newline) before
      else is_back_newline_loop rest (Some ch)
  end.

Definition is_back_newline (str : string) : option bool :=
  is_back_newline_loop str None.

(** What the handler of [std::runtime_error] writes to [std::cerr] when
    [eout] is set (lines 129-136); [std::endl] writes a newline. *)
Definition report_runtime_error (what : string) : option string :=
  match is_back_newline what with
  | Some back_newline =>
      Some (c_str what +:+ (if back_newline then "" else String newline "")
            +:+ "compilation terminated." +:+ String newline "")
  | None => None
  end.

(** ** The error reporter of the later compiler
       (compiler/src/codegen/codegen.cpp) *)

(** [std::getline(ss, line)] on what is left of the stream: the characters
    up to the next newline, which is extracted and dropped, or up to the
    end of the stream. *)
Fixpoint read_line (ss : string) : string * string :=
  match ss with
  | EmptyString => (EmptyString, EmptyString)
  | String ch rest =>
      if Ascii.eqb ch newline then (EmptyString, rest)
      else let (line, rest') := read_line rest in (String ch line, rest')
  end.

(** The stream is false after a [getline] that found nothing to extract. *)
Definition getline (ss : string) : option (string * string) :=
  match ss with
  | EmptyString => None
  | String _ _ => Some (read_line ss)
  end.

(** [splitByLine] (lines 35-50); the loop [for (;;)] runs on [fuel]. *)
Fixpoint splitByLine_loop (fuel : nat) (ss : string) (lines : list string)
    : option (list string) :=
  match fuel with
  | 0 => None
  | S fuel =>
      match getline ss with
      | Some (line, ss) => splitByLine_loop fuel ss (lines ++ [line])
      | None => Some lines
      end
  end.

Definition splitByLine (str : string) : option (list string) :=
  splitByLine_loop (S (String.length str)) str [].

(** [std::isspace] in the classic locale: the space and the characters
    from the tabulation to the carriage return. *)
Definition is_space (ch : ascii) : bool :=
  let n := nat_of_ascii ch in
  (n =? 32)%nat || ((9 <=? n)%nat && (n <=? 13)%nat).

(** [boost::algorithm::trim_copy]: the end is trimmed, then the start. *)
Fixpoint trim_left (str : string) : string :=
  match str with
  | EmptyString => EmptyString
  | String ch rest => if is_space ch then trim_left rest else str
  end.

Fixpoint trim_right (str : string) : string :=
  match str with
  | EmptyString => EmptyString
  | String ch rest =>
      match trim_right rest with
      | EmptyString => if is_space ch then EmptyString else String ch ""
      | rest' => String ch rest'
      end
  end.

Definition trim_copy (str : string) : string := trim_left (trim_right str).

Section CGContext.

(** [file.string()], and [fmt::format(fg(color), ...)] for the two colours:
    the text between the escape codes of the colour. *)
Variable file : string.
Variables bright_red bright_white : string -> string.

(** [CGContext::formatError] (lines 81-91).  [input] is the text the
    iterators of [pos] run over and [source_code] the member of that name,
    the lines of the text; [None] is the [std::out_of_range] of
    [source_code.at]. *)
Definition formatError (input : string) (source_code : list string)
    (pos : iterator_range) (message : string) : option string :=
  let rows := calcRows input pos in
  match source_code !! (rows - 1) with
  | Some line =>
      Some ("In file " +:+ file +:+ ", line " +:+ format_d rows +:+ ":"
            +:+ String newline "" +:+ bright_red "error: "
            +:+ bright_white (message +:+ String newline "")
            +:+ trim_copy line)
  | None => None
  end.

End CGContext.

(** The number of newlines in a text. *)
Fixpoint count_newlines (str : string) : nat :=
  match str with
  | EmptyString => 0
  | String ch rest =>
      (if Ascii.eqb ch newline then 1 else 0) + count_newlines rest
  end.

(** The lines joined again, a newline after each. *)
Definition unlines (lines : list string) : string :=
  foldr (fun line rest => line +:+ String newline rest) "" lines.

(** The text with a newline added at its end if it is not empty and has
    none there. *)
Fixpoint terminated (str : string) : string :=
  match str with
  | EmptyString => EmptyString
  | String ch rest =>
      String ch
        match rest with
        | EmptyString =>
            if Ascii.eqb ch newline then EmptyString else String newline ""
        | String _ _ => terminated rest
        end
  end.

(** The lines of a text, by recursion on the text. *)
Fixpoint lines_of (str : string) : list string :=
  match str with
  | EmptyString => []
  | String ch rest =>
      if Ascii.eqb ch newline then EmptyString :: lines_of rest
      else match lines_of rest with
           | [] => [String ch ""]
           | line :: lines => String ch line :: lines
           end
  end.

(** The first two lines of [three_lines], with their newlines. *)
Definition two_lines : string :=
  String "a" (String newline (String "b" (String newline ""))).

Definition u8_type : type_info := {| id := u8; is_ptr := false |}.

(** The slot of [let x: u8] in "main". *)
Definition slot_x_u8 : alloca :=
  {| alloca_id := 0; getAllocatedType := IntegerTy 8; alloca_name := "x" |}.

(** [fn f() -> i32 { }], for a module that declares [f] with a parameter. *)
Definition define_f_without_parameters : function_define :=
  {| decl := {| linkage := None; decl_name := "f"; params := [];
                return_type := i32_type |};
     body := compound_statement [] |}.

(** ** Diagnostics for types that do not resolve *)

(** The messages the lowering has for a type name that does not resolve. *)
Definition unresolved_type_messages : list string :=
  ["variables of undefined type cannot be defined";
   "conversion to an unknown type";
   "arguments of undefined types cannot be declared";
   "return type cannot be an undefined type"].

(** The errors that are not about a type name that does not resolve:
    neither one of these messages nor the dereference of what
    [typename_to_type] returns for such a name. *)
Definition resolved (e : error) : Prop :=
  match e with
  | runtime_error message => message ∉ unresolved_type_messages
  | undefined_behaviour place => place ∉ ["typename_to_type"; "BOOST_ASSERT"]
  end.

(** [throws_only P m]: every error [m] throws satisfies [P]. *)
Definition throws_only (P : error -> Prop) {A} (m : M A) : Prop :=
  forall st e st', m st = (Throw e, st') -> P e.

(** * Properties *)

(** ** The monad *)

Lemma bind_Ok {A B} (m : M A) (f : A -> M B) st a st1 :
  m st = (Ok a, st1) -> bind m f st = f a st1.
Proof. intros H. unfold bind. now rewrite H. Qed.

Lemma bind_Throw {A B} (m : M A) (f : A -> M B) st e st1 :
  m st = (Throw e, st1) -> bind m f st = (Throw e, st1).
Proof. intros H. unfold bind. now rewrite H. Qed.

Lemma bind_Ok_inv {A B} (m : M A) (f : A -> M B) st b st' :
  bind m f st = (Ok b, st') ->
  exists a st1, m st = (Ok a, st1) /\ f a st1 = (Ok b, st').
Proof.
  unfold bind. destruct (m st) as [[a|e] st1]; intros H.
  - exists a, st1. auto.
  - discriminate.
Qed.

(** Evaluate the comparisons of operator names. *)
Ltac eval_string_eqb :=
  repeat match goal with
         | |- context [String.eqb ?a ?b] =>
             let v := eval vm_compute in (String.eqb a b) in
             change (String.eqb a b) with v
         end.

(** Case analysis on the first computation a goal is blocked on. *)
Ltac destruct_run :=
  match goal with
  | |- context [match ?m ?st with pair _ _ => _ end] =>
      destruct (m st) as [[?|?] ?]
  end.

(** ** Break and continue *)

(** C7. Outside of a loop both jump targets are null pointers
    ([break_bb = continue_bb = nullptr]); lowering [break] or [continue]
    then returns without an error and leaves the builder state (every
    block, the insert block) and the scope as they were: no branch is
    inserted. *)
Theorem break_continue_outside_loop
    (retvar : option alloca) (end_bb : nat) (scope : symbol_table)
    (st : codegen_common) :
  statement_visitor retvar end_bb None None break_statement scope st
    = (Ok scope, st)
  /\ statement_visitor retvar end_bb None None continue_statement scope st
    = (Ok scope, st)
  /\ codegen_statement break_statement scope retvar end_bb None None st
    = (Ok tt, st)
  /\ codegen_statement continue_statement scope retvar end_bb None None st
    = (Ok tt, st).
Proof. repeat split. Qed.

(** ** Calls *)

(** C5. A call whose callee is found in the module, is not variadic and
    has a parameter count other than the number of arguments throws
    "incorrect arguments passed" in the very state the call was reached in:
    no argument has been lowered, no instruction emitted. *)
Theorem call_wrong_argument_count
    (scope : symbol_table) (callee : string) (args : list expression)
    (st : codegen_common) (func : nat) (callee_func : llvm_function) :
  getFunction callee st = (Ok (Some (func, callee_func)), st) ->
  fn_is_vararg callee_func = false ->
  length (fn_params callee_func) <> length args ->
  expression_visitor scope (function_call_expr callee args) st
    = (Throw (runtime_error "incorrect arguments passed"), st).
Proof.
  intros Hget Hvar Hlen. cbn [expression_visitor].
  rewrite (bind_Ok _ _ _ _ _ Hget). rewrite Hvar. cbn [negb andb].
  destruct (Nat.eqb_spec (length (fn_params callee_func)) (length args))
    as [Heq | _]; [contradiction | reflexivity].
Qed.

Lemma call_wrong_argument_count_witness :
  expression_visitor ∅
    (function_call_expr "f" [bool_literal true; int_literal 2]) declared_f
  = (Throw (runtime_error "incorrect arguments passed"), declared_f).
Proof.
  apply (call_wrong_argument_count ∅ "f" _ declared_f 0
           {| fn_name := "f"; fn_return_type := IntegerTy 32;
              fn_params := [IntegerTy 32]; fn_is_vararg := false;
              fn_linkage := ExternalLinkage; fn_arg_names := ["x"];
              fn_blocks := [] |}).
  - reflexivity.
  - reflexivity.
  - simpl. lia.
Defined.

(** The argument check reports the first mismatch with the number
    [idx + 1] taken after [idx++]: two more than the 0-based index. *)
Lemma verify_arguments_mismatch callee args_value callee_args idx i v p st :
  (forall j, j < i ->
     exists vj, args_value !! (idx + j) = Some vj
                /\ callee_args !! j = Some (getType vj)) ->
  args_value !! (idx + i) = Some v ->
  callee_args !! i = Some p ->
  getType v <> p ->
  verify_arguments callee args_value callee_args idx st
  = (Throw (runtime_error
              ("incompatible type for argument " +:+ format_d (idx + i + 2)
               +:+ " of '" +:+ callee +:+ "'")), st).
Proof.
  revert idx i. induction callee_args as [|arg rest IH]; intros idx i Hpre Hv Hp Hne.
  - rewrite lookup_nil in Hp. discriminate.
  - destruct i as [|i].
    + rewrite Nat.add_0_r in Hv. simpl in Hp. injection Hp as ->.
      cbn [verify_arguments]. rewrite Hv.
      destruct (decide (getType v = p)) as [Heq | _]; [contradiction|].
      replace (idx + 0 + 2) with (S idx + 1) by lia. reflexivity.
    + destruct (Hpre 0 ltac:(lia)) as (v0 & Hv0 & Hp0).
      rewrite Nat.add_0_r in Hv0. simpl in Hp0. injection Hp0 as ->.
      cbn [verify_arguments]. rewrite Hv0.
      destruct (decide (getType v0 = getType v0)) as [_ | Hn]; [|contradiction].
      replace (idx + S i + 2) with (S idx + i + 2) by lia.
      apply IH.
      * intros j Hj. destruct (Hpre (S j) ltac:(lia)) as (vj & Hvj & Hpj).
        exists vj. split; [|exact Hpj].
        replace (S idx + j) with (idx + S j) by lia. exact Hvj.
      * replace (S idx + i) with (idx + S i) by lia. exact Hv.
      * exact Hp.
      * exact Hne.
Qed.

(** C6. After a declaration of [f(x: i32) -> i32], the call [f(true)] in
    [fn main() -> i32 { f(true); }]: the only argument, the first one, has
    type i8 where i32 is expected, and the error names argument 2.  [idx] has already been incremented when
    the message prints [idx + 1], so the position printed is one more than
    the 1-based position of the mismatched argument. *)
Theorem call_argument_position_off_by_one
    (verifyFunction : codegen_common -> nat -> option string)
    (fpm_run : nat -> codegen_common -> codegen_common) :
  fst (codegen verifyFunction fpm_run call_f_with_bool empty_common)
  = Throw (runtime_error "incompatible type for argument 2 of 'f'").
Proof. vm_compute. reflexivity. Qed.

(** ** Assignment *)

(** C3 as it is worded fails where the right operand does not lower:
    in [y = g()] neither [y] nor [g] is known, the right operand is lowered
    first, and the error is the one of the call. *)
Lemma assignment_unknown_variable_counterexample :
  (∅ : symbol_table) !! "y" = None
  /\ is_assignment "=" = true
  /\ expression_visitor ∅
       (bin_op_expr (variable_ref "y") "=" (function_call_expr "g" []))
       empty_common
     = (Throw (runtime_error "unknown function 'g' referenced"), empty_common)
  /\ ~ (exists st,
          expression_visitor ∅
            (bin_op_expr (variable_ref "y") "=" (function_call_expr "g" []))
            empty_common
          = (Throw (runtime_error "unknown variable name 'y'"), st)).
Proof.
  split; [reflexivity|]. split; [reflexivity|]. split; [reflexivity|].
  intros [st H]. vm_compute in H. discriminate H.
Qed.

(** C3, amended.  For the six assignment operators: a left operand that is
    not a variable reference throws "left-hand side was not as variable"
    before anything is lowered; when the right operand has lowered to a
    value, a left name that is not registered throws "unknown variable
    name", and a registered binding that is not mutable throws "assignment
    of read-only variable". *)
Theorem assignment_errors
    (scope : symbol_table) (op : string) (lhs rhs : expression)
    (name : string) (st st1 : codegen_common) (r : value) :
  is_assignment op = true ->
  ((forall n, lhs <> variable_ref n) ->
   expression_visitor scope (bin_op_expr lhs op rhs) st
   = (Throw (runtime_error "left-hand side was not as variable"), st))
  /\ (expression_visitor scope rhs st = (Ok (Some r), st1) ->
      scope !! name = None ->
      expression_visitor scope (bin_op_expr (variable_ref name) op rhs) st
      = (Throw (runtime_error ("unknown variable name '" +:+ name +:+ "'")),
         st1))
  /\ (expression_visitor scope rhs st = (Ok (Some r), st1) ->
      (exists var_info,
         scope !! name = Some var_info /\ is_mutable var_info = false) ->
      expression_visitor scope (bin_op_expr (variable_ref name) op rhs) st
      = (Throw (runtime_error
                  ("assignment of read-only variable '" +:+ name +:+ "'")),
         st1)).
Proof.
  intros Hop. repeat split.
  - intros Hlhs. cbn [expression_visitor]. rewrite Hop.
    destruct lhs; try reflexivity. now destruct (Hlhs name0).
  - intros Hrhs Hscope. cbn [expression_visitor]. rewrite Hop.
    rewrite (bind_Ok _ _ _ _ _ Hrhs). unfold assign. cbn [or_throw].
    now rewrite Hscope.
  - intros Hrhs (var_info & Hscope & Hmut). cbn [expression_visitor].
    rewrite Hop. rewrite (bind_Ok _ _ _ _ _ Hrhs). unfold assign.
    cbn [or_throw]. rewrite Hscope.
    unfold bind at 1. cbn [ret]. now rewrite Hmut.
Qed.

Lemma assignment_errors_witness :
  expression_visitor ∅
    (bin_op_expr (int_literal 1) "+=" (int_literal 2)) declared_f
  = (Throw (runtime_error "left-hand side was not as variable"), declared_f)
  /\ expression_visitor ∅
       (bin_op_expr (variable_ref "y") "=" (int_literal 2)) declared_f
     = (Throw (runtime_error "unknown variable name 'y'"), declared_f)
  /\ expression_visitor scope_const_x
       (bin_op_expr (variable_ref "x") "%=" (int_literal 2)) declared_f
     = (Throw (runtime_error "assignment of read-only variable 'x'"),
        declared_f).
Proof.
  split; [|split].
  - apply (proj1 (assignment_errors ∅ "+=" (int_literal 1) (int_literal 2)
                    "y" declared_f declared_f (ConstantInt (IntegerTy 32) 2)
                    eq_refl)).
    intros n; discriminate.
  - apply (proj1 (proj2 (assignment_errors ∅ "=" (int_literal 1)
                           (int_literal 2) "y" declared_f declared_f
                           (ConstantInt (IntegerTy 32) 2) eq_refl)));
      reflexivity.
  - apply (proj2 (proj2 (assignment_errors scope_const_x "%=" (int_literal 1)
                           (int_literal 2) "x" declared_f declared_f
                           (ConstantInt (IntegerTy 32) 2) eq_refl))).
    + reflexivity.
    + eexists. split; reflexivity.
Defined.

(** ** Division and remainder *)

(** C4. Once both operands have lowered to values, plain [/] and [%] emit
    [SDiv] and [SRem] whatever the scope records about signedness.  For a
    registered, mutable binding, [/=] and [%=] load the slot, emit the
    signed operator when the binding is recorded as signed and the unsigned
    one when it is recorded as unsigned, store the result and load the slot
    again. *)
Theorem division_operator_family
    (scope : symbol_table) (lhs rhs : expression) (name : string)
    (var_info : variable_info) (st st1 st2 : codegen_common) (l r : value) :
  (expression_visitor scope lhs st = (Ok (Some l), st1) ->
   expression_visitor scope rhs st1 = (Ok (Some r), st2) ->
   expression_visitor scope (bin_op_expr lhs "/" rhs) st
   = (v <- CreateBinOp SDiv l r ;; ret (Some v)) st2
   /\ expression_visitor scope (bin_op_expr lhs "%" rhs) st
      = (v <- CreateBinOp SRem l r ;; ret (Some v)) st2)
  /\ (scope !! name = Some var_info ->
      is_mutable var_info = true ->
      expression_visitor scope rhs st = (Ok (Some r), st2) ->
      expression_visitor scope (bin_op_expr (variable_ref name) "/=" rhs) st
      = (lhs <- CreateLoad (getAllocatedType (inst var_info))
                  (AllocaInst (inst var_info)) ;;
         assign_value <-
           CreateBinOp (if is_signed var_info then SDiv else UDiv) lhs r ;;
         CreateStore assign_value (inst var_info) ;;;
         v <- CreateLoad (getAllocatedType (inst var_info))
                (AllocaInst (inst var_info)) ;;
         ret (Some v)) st2
      /\ expression_visitor scope (bin_op_expr (variable_ref name) "%=" rhs) st
         = (lhs <- CreateLoad (getAllocatedType (inst var_info))
                     (AllocaInst (inst var_info)) ;;
            assign_value <-
              CreateBinOp (if is_signed var_info then SRem else URem) lhs r ;;
            CreateStore assign_value (inst var_info) ;;;
            v <- CreateLoad (getAllocatedType (inst var_info))
                   (AllocaInst (inst var_info)) ;;
            ret (Some v)) st2).
Proof.
  split.
  - intros Hl Hr. split; cbn [expression_visitor];
      match goal with
      | |- context [is_assignment ?op] =>
          change (is_assignment op) with false; cbv iota
      end;
      rewrite (bind_Ok _ _ _ _ _ Hl), (bind_Ok _ _ _ _ _ Hr); reflexivity.
  - intros Hscope Hmut Hr. split; cbn [expression_visitor];
      match goal with
      | |- context [is_assignment ?op] =>
          change (is_assignment op) with true; cbv iota
      end;
      rewrite (bind_Ok _ _ _ _ _ Hr); unfold assign; cbn [or_throw];
      rewrite Hscope; unfold bind at 1; cbn [ret]; rewrite Hmut;
      cbn [negb]; eval_string_eqb; unfold when; cbv iota;
      destruct (is_signed var_info); unfold bind; cbn [ret];
      repeat destruct_run; reflexivity.
Qed.

Lemma division_operator_family_witness :
  fst (expression_visitor (scope_mutable_x false)
         (bin_op_expr (variable_ref "x") "/" (variable_ref "x")) declared_f)
  = Ok (Some (BinaryOperator 2 SDiv
                (LoadInst 0 (IntegerTy 32) (AllocaInst slot_x))
                (LoadInst 1 (IntegerTy 32) (AllocaInst slot_x))))
  /\ fst (expression_visitor (scope_mutable_x false)
            (bin_op_expr (variable_ref "x") "/=" (int_literal 2)) declared_f)
     = Ok (Some (LoadInst 2 (IntegerTy 32) (AllocaInst slot_x)))
  /\ (blocks
        (snd (expression_visitor (scope_mutable_x false)
                (bin_op_expr (variable_ref "x") "/=" (int_literal 2))
                declared_f)) !! 0) ≫= (fun b => bb_insts b !! 1)
     = Some (Inst (BinaryOperator 1 UDiv
                     (LoadInst 0 (IntegerTy 32) (AllocaInst slot_x))
                     (ConstantInt (IntegerTy 32) 2))).
Proof.
  pose proof (division_operator_family (scope_mutable_x false)
                (variable_ref "x") (variable_ref "x") "x"
                {| inst := slot_x; is_mutable := true; is_signed := false |}
                declared_f
                (snd (expression_visitor (scope_mutable_x false)
                        (variable_ref "x") declared_f))
                (snd (expression_visitor (scope_mutable_x false)
                        (variable_ref "x")
                        (snd (expression_visitor (scope_mutable_x false)
                                (variable_ref "x") declared_f))))
                (LoadInst 0 (IntegerTy 32) (AllocaInst slot_x))
                (LoadInst 1 (IntegerTy 32) (AllocaInst slot_x))) as [Hplain _].
  pose proof (division_operator_family (scope_mutable_x false)
                (variable_ref "x") (int_literal 2) "x"
                {| inst := slot_x; is_mutable := true; is_signed := false |}
                declared_f declared_f declared_f
                (LoadInst 0 (IntegerTy 32) (AllocaInst slot_x))
                (ConstantInt (IntegerTy 32) 2)) as [_ Hcompound].
  destruct (Hplain eq_refl eq_refl) as [Hdiv _].
  destruct (Hcompound eq_refl eq_refl eq_refl) as [Hdiv_assign _].
  rewrite Hdiv, Hdiv_assign. repeat split.
Defined.

(** ** What a computation returns *)

Lemma returns_ret {A} (P : A -> Prop) a : P a -> returns P (ret a).
Proof. intros HP st a' st' H. injection H as <- _. exact HP. Qed.

Lemma returns_throw {A} (P : A -> Prop) e : returns P (throw e).
Proof. intros st a st' H. discriminate. Qed.

Lemma returns_bind {A B} (P : B -> Prop) (m : M A) (f : A -> M B) :
  (forall a, returns P (f a)) -> returns P (bind m f).
Proof.
  intros Hf st b st' H. apply bind_Ok_inv in H as (a & st1 & _ & H).
  exact (Hf a st1 b st' H).
Qed.

Ltac returns_step :=
  first
    [ apply returns_throw
    | apply returns_bind; intros
    | match goal with
      | |- returns _ (match ?x with _ => _ end) => destruct x
      end ].

(** ** Scopes *)

Lemma exists_regist name info (scope : symbol_table) x :
  exists_ x scope = true -> exists_ x (regist name info scope) = true.
Proof.
  unfold exists_, regist. rewrite !bool_decide_eq_true. intros Hx.
  destruct (scope !! name) eqn:Hname; [exact Hx|].
  destruct (decide (name = x)) as [->|Hne].
  - rewrite lookup_insert_eq. eauto.
  - rewrite lookup_insert_ne by exact Hne. exact Hx.
Qed.

Lemma exists_regist_same name info (scope : symbol_table) :
  exists_ name (regist name info scope) = true.
Proof.
  unfold exists_, regist. rewrite bool_decide_eq_true.
  destruct (scope !! name) eqn:Hname.
  - rewrite Hname. eauto.
  - rewrite lookup_insert_eq. eauto.
Qed.

(** The statement visitor only ever adds to the scope it works on. *)
Lemma statement_visitor_scope_mono retvar end_bb break_bb continue_bb node
    scope x :
  exists_ x scope = true ->
  returns (fun scope' => exists_ x scope' = true)
    (statement_visitor retvar end_bb break_bb continue_bb node scope).
Proof.
  intros Hx. destruct node; cbn [statement_visitor];
    repeat returns_step; try (apply returns_ret; exact Hx);
    apply returns_ret; apply exists_regist; exact Hx.
Qed.

(** A definition that is lowered leaves its name registered. *)
Lemma variable_def_registers retvar end_bb break_bb continue_bb qualifier
    name type_ initializer scope :
  returns (fun scope' => exists_ name scope' = true)
    (statement_visitor retvar end_bb break_bb continue_bb
       (variable_def_statement qualifier name type_ initializer) scope).
Proof.
  cbn [statement_visitor]. repeat returns_step;
    apply returns_ret; apply exists_regist_same.
Qed.

(** Every statement but a definition hands the scope back as it got it; in
    particular what a nested block registers is not seen after it. *)
Lemma statement_visitor_scope_same retvar end_bb break_bb continue_bb node
    scope :
  (forall qualifier name type_ initializer,
     node <> variable_def_statement qualifier name type_ initializer) ->
  returns (fun scope' => scope' = scope)
    (statement_visitor retvar end_bb break_bb continue_bb node scope).
Proof.
  intros Hnode. destruct node; cbn [statement_visitor];
    try (now destruct (Hnode qualifier name type0 initializer));
    repeat returns_step; apply returns_ret; reflexivity.
Qed.

(** ** The loop over a compound statement *)

Lemma lower_statements_app visit statements rest scope st scope' st' :
  falls_through visit statements scope st scope' st' ->
  lower_statements visit (statements ++ rest) scope st
  = lower_statements visit rest scope' st'.
Proof.
  induction 1 as [|r l scope st scope1 st1 scope' st' Hr Ht _ IH];
    [reflexivity|].
  cbn [app lower_statements]. rewrite (bind_Ok _ _ _ _ _ Hr).
  rewrite (bind_Ok _ _ _ _ _ Ht). exact IH.
Qed.

Lemma falls_through_scope_mono retvar end_bb break_bb continue_bb statements
    scope st scope' st' x :
  falls_through (statement_visitor retvar end_bb break_bb continue_bb)
    statements scope st scope' st' ->
  exists_ x scope = true -> exists_ x scope' = true.
Proof.
  induction 1 as [|r l scope st scope1 st1 scope' st' Hr _ _ IH]; [auto|].
  intros Hx. apply IH.
  exact (statement_visitor_scope_mono _ _ _ _ _ _ _ Hx _ _ _ Hr).
Qed.

Lemma falls_through_app_inv visit l1 l2 scope st scope' st' :
  falls_through visit (l1 ++ l2) scope st scope' st' ->
  exists scope1 st1,
    falls_through visit l1 scope st scope1 st1
    /\ falls_through visit l2 scope1 st1 scope' st'.
Proof.
  revert scope st. induction l1 as [|r l1 IH]; intros scope st H.
  - exists scope, st. split; [constructor | exact H].
  - inversion H as [|? ? ? ? sc1 s1 ? ? Hr Ht Hrest]; subst.
    destruct (IH _ _ Hrest) as (sc2 & s2 & H1 & H2).
    exists sc2, s2. split; [|exact H2].
    econstructor; eauto.
Qed.

(** ** Terminators *)

Lemma Insert_getTerminator i st st' :
  Insert i st = (Ok tt, st') ->
  getTerminator st'
  = (Ok (if isTerminator i then Some i else None), st').
Proof.
  unfold Insert, GetInsertBlock, getTerminator, GetInsertBlock, bind, get,
    modify, ret, throw.
  destruct (insert_block st) as [bb|] eqn:Hbb; [|discriminate].
  destruct (decide (bb < length (blocks st))) as [Hlt|]; [|discriminate].
  intros H. injection H as <-. cbn [insert_block blocks set_blocks].
  rewrite Hbb. rewrite length_alter.
  destruct (decide (bb < length (blocks st))); [|contradiction].
  unfold set_blocks at 1. cbn [blocks].
  rewrite list_lookup_alter_eq.
  destruct (lookup_lt_is_Some_2 _ _ Hlt) as [b ->].
  cbn [fmap option_fmap option_map mbind option_bind].
  unfold terminator_of, push_inst. cbn [bb_insts]. rewrite last_snoc.
  reflexivity.
Qed.

(** A [return], and a [break] or [continue] inside a loop, leave the insert
    block with a terminator. *)
Lemma jumps_terminate retvar end_bb break_bb continue_bb node scope st
    scope' st' :
  jumps break_bb continue_bb node = true ->
  statement_visitor retvar end_bb break_bb continue_bb node scope st
  = (Ok scope', st') ->
  exists terminator, getTerminator st' = (Ok (Some terminator), st').
Proof.
  destruct node; cbn [jumps]; try discriminate; intros Hj H;
    cbn [statement_visitor] in H.
  - apply bind_Ok_inv in H as (? & st1 & _ & H).
    apply bind_Ok_inv in H as ([] & st2 & Hbr & H).
    injection H as _ <-. eexists.
    exact (Insert_getTerminator _ _ _ Hbr).
  - apply bool_decide_eq_true in Hj as [bb ->].
    apply bind_Ok_inv in H as ([] & st2 & Hbr & H).
    injection H as _ <-. eexists.
    exact (Insert_getTerminator _ _ _ Hbr).
  - apply bool_decide_eq_true in Hj as [bb ->].
    apply bind_Ok_inv in H as ([] & st2 & Hbr & H).
    injection H as _ <-. eexists.
    exact (Insert_getTerminator _ _ _ Hbr).
Qed.

(** A [return] that is lowered ends the insert block with a branch to the
    exit block it was given. *)
Lemma return_branches_to_exit retvar end_bb break_bb continue_bb rhs scope st
    scope' st' :
  statement_visitor retvar end_bb break_bb continue_bb (return_statement rhs)
    scope st = (Ok scope', st') ->
  getTerminator st' = (Ok (Some (BranchInst end_bb)), st').
Proof.
  cbn [statement_visitor]. intros H.
  apply bind_Ok_inv in H as (? & st1 & _ & H).
  apply bind_Ok_inv in H as ([] & st2 & Hbr & H).
  injection H as _ <-. exact (Insert_getTerminator _ _ _ Hbr).
Qed.

(** C10. In the loop over a compound statement, whatever follows a
    [return], or a [break] or [continue] that has a loop target, has no
    influence at all on the result: the block lowers exactly as the block
    cut after that statement does.  The statements behind it are never
    visited, so an error in them is not raised. *)
Theorem statements_after_jump_skipped
    (retvar : option alloca) (end_bb : nat) (break_bb continue_bb : option nat)
    (pre : list statement) (node : statement) (post : list statement)
    (scope : symbol_table) (st : codegen_common) :
  jumps break_bb continue_bb node = true ->
  codegen_statement (compound_statement (pre ++ node :: post)) scope
    retvar end_bb break_bb continue_bb st
  = codegen_statement (compound_statement (pre ++ [node])) scope
      retvar end_bb break_bb continue_bb st.
Proof.
  intros Hj. unfold codegen_statement, codegen_statement_with.
  revert scope st. induction pre as [|r pre IH]; intros scope st.
  - cbn [app lower_statements]. unfold bind at 1 3.
    destruct (statement_visitor retvar end_bb break_bb continue_bb node
                scope st) as [[scope'|e] st'] eqn:Hnode; [|reflexivity].
    destruct (jumps_terminate _ _ _ _ _ _ _ _ _ Hj Hnode) as [t Ht].
    now rewrite !(bind_Ok _ _ _ _ _ Ht).
  - cbn [app lower_statements]. unfold bind at 1 3.
    destruct (statement_visitor retvar end_bb break_bb continue_bb r
                scope st) as [[scope'|e] st']; [|reflexivity].
    unfold bind at 1 2.
    destruct (getTerminator st') as [[[t|]|e] st'']; try reflexivity.
    apply IH.
Qed.

Lemma statements_after_jump_skipped_witness :
  fst (codegen_statement
         (compound_statement
            [return_statement None;
             expression_statement
               (bin_op_expr (variable_ref "y") "=" (int_literal 2))])
         ∅ None 1 None None declared_f)
  = Ok tt.
Proof.
  rewrite (statements_after_jump_skipped None 1 None None []
             (return_statement None)
             [expression_statement
                (bin_op_expr (variable_ref "y") "=" (int_literal 2))]
             ∅ declared_f eq_refl).
  reflexivity.
Defined.

(** ** Redefinition *)

Lemma falls_through_defined retvar end_bb break_bb continue_bb pre qualifier
    name type_ initializer mid scope st scope' st' :
  falls_through (statement_visitor retvar end_bb break_bb continue_bb)
    (pre ++ variable_def_statement qualifier name type_ initializer :: mid)
    scope st scope' st' ->
  exists_ name scope' = true.
Proof.
  intros H. apply falls_through_app_inv in H as (scope1 & st1 & _ & H).
  inversion H as [|? ? ? ? scope2 st2 ? ? Hdef _ Hmid]; subst.
  apply (falls_through_scope_mono _ _ _ _ _ _ _ _ _ _ Hmid).
  exact (variable_def_registers _ _ _ _ _ _ _ _ _ _ _ _ Hdef).
Qed.

Lemma redefinition_throws retvar end_bb break_bb continue_bb qualifier name
    type_ initializer post scope st :
  exists_ name scope = true ->
  lower_statements (statement_visitor retvar end_bb break_bb continue_bb)
    (variable_def_statement qualifier name type_ initializer :: post) scope st
  = (Throw (runtime_error ("redefinition of '" +:+ name +:+ "'")), st).
Proof.
  intros Hx. cbn [lower_statements statement_visitor]. now rewrite Hx.
Qed.

Lemma create_entry_block_alloca_Ok func var_name ty st f entry :
  module_functions st !! func = Some f ->
  head (fn_blocks f) = Some entry ->
  exists a st', create_entry_block_alloca func var_name ty st = (Ok a, st').
Proof.
  intros Hf Hentry. unfold create_entry_block_alloca, function_at.
  unfold bind at 1. unfold bind at 1. cbn [get]. rewrite Hf. cbn [ret].
  rewrite Hentry. eexists _, _. reflexivity.
Qed.



(** ** Shadowing *)

Lemma lower_parameters_scope_mono func node_params args arg_no
    argument_values x :
  exists_ x argument_values = true ->
  returns (fun scope => exists_ x scope = true)
    (lower_parameters func node_params args arg_no argument_values).
Proof.
  revert arg_no argument_values.
  induction args as [|[arg_ty arg_name] rest IH];
    intros arg_no argument_values Hx; cbn [lower_parameters].
  - apply returns_ret. exact Hx.
  - repeat returns_step; apply IH;
      match goal with
      | |- context [param_qualifier ?p] => destruct (param_qualifier p) as [[]|]
      end; apply exists_regist; exact Hx.
Qed.

Lemma lower_parameters_registers func node_params args arg_no
    argument_values ty name :
  (ty, name) ∈ args ->
  returns (fun scope => exists_ name scope = true)
    (lower_parameters func node_params args arg_no argument_values).
Proof.
  revert arg_no argument_values.
  induction args as [|[arg_ty arg_name] rest IH];
    intros arg_no argument_values Hin; cbn [lower_parameters].
  - inversion Hin.
  - apply elem_of_cons in Hin as [Heq | Hin].
    + injection Heq as -> ->.
      repeat returns_step; apply lower_parameters_scope_mono;
        match goal with
        | |- context [param_qualifier ?p] =>
            destruct (param_qualifier p) as [[]|]
        end; apply exists_regist_same.
    + repeat returns_step; apply IH; exact Hin.
Qed.



(** ** The error reporter *)

Lemma append_assoc (s1 s2 s3 : string) :
  (s1 +:+ s2) +:+ s3 = s1 +:+ (s2 +:+ s3).
Proof.
  induction s1 as [|ch s1 IH]; [reflexivity|].
  change (String ch ((s1 +:+ s2) +:+ s3) = String ch (s1 +:+ (s2 +:+ s3))).
  now rewrite IH.
Qed.

Lemma newlines_through_S input iter :
  newlines_through input (S iter)
  = (if is_newline_at input (S iter) then 1 else 0)
    + newlines_through input iter.
Proof.
  unfold newlines_through. rewrite (seq_S (S iter)). rewrite filter_app.
  rewrite length_app. cbn [plus]. rewrite filter_cons, filter_nil.
  destruct (is_newline_at input (S iter)).
  - destruct (decide (true = true)); [|contradiction]. cbn [length]. lia.
  - destruct (decide (false = true)); [discriminate|]. cbn [length]. lia.
Qed.

Lemma newlines_through_0 input :
  newlines_through input 0 = if is_newline_at input 0 then 1 else 0.
Proof.
  unfold newlines_through. cbn [seq]. rewrite filter_cons, filter_nil.
  destruct (is_newline_at input 0).
  - destruct (decide (true = true)); [reflexivity|contradiction].
  - destruct (decide (false = true)); [discriminate|reflexivity].
Qed.

Lemma count_rows_spec input iter rows :
  count_rows input iter rows
  = (0, S (rows + newlines_through input iter)).
Proof.
  revert rows. induction iter as [|iter IH]; intros rows.
  - cbn [count_rows]. rewrite newlines_through_0.
    destruct (is_newline_at input 0); f_equal; lia.
  - cbn [count_rows]. rewrite IH, newlines_through_S.
    destruct (is_newline_at input (S iter)); f_equal; lia.
Qed.

Lemma calcRows_loop_count_rows input iter rows :
  calcRows_loop input iter rows = snd (count_rows input iter rows).
Proof.
  revert rows. induction iter as [|iter IH]; intros rows; [reflexivity|].
  cbn [calcRows_loop count_rows]. apply IH.
Qed.

(** C8 as it is worded fails on a span of the third line: the scan does
    not end at the newline in front of the span (offset 3), it runs on to
    the start of the input and has counted both newlines when it gets
    there.  The text that is appended is the span, [c], where the line is
    [cd]. *)
Lemma scan_stops_at_newline_counterexample :
  scan_until_newline_or_start three_lines 4 = 3
  /\ count_rows three_lines 4 0 = (0, 3)
  /\ fst (count_rows three_lines 4 0)
     <> scan_until_newline_or_start three_lines 4
  /\ format_error "input" "" "" true three_lines
       {| begin_ := 4; end_ := 5 |} "oops" true
     = "In file input, line 3:" +:+ String newline "" +:+ "error: oops"
       +:+ String newline "" +:+ "c".
Proof. repeat split. vm_compute. discriminate. Qed.

(** C8, amended.  The scan goes backward from the start of the span to the
    start of the input, where alone it ends; the line number is one more
    than the number of newlines it has met, the character at the start of
    the span included, which is the 1-based number of the line when that
    character is not itself a newline.  [calcRows] computes the same
    number.  On a terminal the message is the file, that number and the
    text of the error, followed, if asked for, by the text of the span. *)
Theorem format_error_line_number
    (file COLOR_RED COLOR_DEFAULT : string) (isatty : bool)
    (input : string) (pos : iterator_range) (message : string)
    (with_code : bool) :
  let rows := snd (count_rows input (begin_ pos) 0) in
  fst (count_rows input (begin_ pos) 0) = 0
  /\ rows = 1 + newlines_through input (begin_ pos)
  /\ (is_newline_at input (begin_ pos) = false ->
      rows = 1 + length (filter (fun i => is_newline_at input i = true)
                           (seq 0 (begin_ pos))))
  /\ calcRows input pos = rows
  /\ (isatty = true ->
      format_error file COLOR_RED COLOR_DEFAULT isatty input pos message
        with_code
      = "In file " +:+ file +:+ ", line " +:+ format_d rows +:+ ":"
        +:+ String newline "" +:+ COLOR_RED +:+ "error: " +:+ COLOR_DEFAULT
        +:+ message +:+ String newline ""
        +:+ (if with_code
             then substring (begin_ pos) (end_ pos - begin_ pos) input
             else "")).
Proof.
  cbv zeta. rewrite count_rows_spec. cbn [fst snd].
  split; [reflexivity|]. split; [reflexivity|]. split; [|split].
  - intros Hnot. f_equal. unfold newlines_through.
    rewrite seq_S, filter_app, length_app. cbn [plus].
    rewrite filter_cons, filter_nil, Hnot.
    destruct (decide (false = true)); [discriminate|]. cbn [length]. lia.
  - unfold calcRows. rewrite calcRows_loop_count_rows, count_rows_spec.
    reflexivity.
  - intros ->. unfold format_error. rewrite count_rows_spec. cbn [snd].
    rewrite !append_assoc. reflexivity.
Qed.

Lemma format_error_line_number_witness :
  format_error "input" "" "" true three_lines {| begin_ := 4; end_ := 5 |}
    "oops" true
  = "In file input, line 3:" +:+ String newline "" +:+ "error: oops"
    +:+ String newline "" +:+ "c"
  /\ calcRows three_lines {| begin_ := 4; end_ := 5 |} = 3.
Proof.
  destruct (format_error_line_number "input" "" "" true three_lines
              {| begin_ := 4; end_ := 5 |} "oops" true)
    as (_ & _ & Hline & Hcalc & Hformat).
  split.
  - rewrite (Hformat eq_refl). reflexivity.
  - rewrite Hcalc. rewrite (Hline eq_refl). reflexivity.
Defined.

(** ** Invariants of the lowering *)

Lemma preserves_ret {A} I (a : A) (P : A -> Prop) :
  P a -> preserves I (ret a) P.
Proof. intros HP st a' st' HI H. injection H as <- <-. auto. Qed.

Lemma preserves_throw {A} I e (P : A -> Prop) : preserves I (throw e) P.
Proof. intros st a st' _ H. discriminate. Qed.

Lemma preserves_bind {A B} I (m : M A) (f : A -> M B) (P : A -> Prop)
    (Q : B -> Prop) :
  preserves I m P ->
  (forall a, P a -> preserves I (f a) Q) ->
  preserves I (bind m f) Q.
Proof.
  intros Hm Hf st b st' HI H. apply bind_Ok_inv in H as (a & st1 & H1 & H2).
  destruct (Hm _ _ _ HI H1) as [HI1 HP]. exact (Hf a HP _ _ _ HI1 H2).
Qed.

Lemma preserves_weaken {A} I (m : M A) (P Q : A -> Prop) :
  preserves I m P -> (forall a, P a -> Q a) -> preserves I m Q.
Proof.
  intros Hm HPQ st a st' HI H. destruct (Hm _ _ _ HI H). auto.
Qed.

Lemma preserves_get I : preserves I get (fun st => I st).
Proof. intros st a st' HI H. injection H as <- <-. auto. Qed.

(** Counting returns *)

Lemma sum_list_with_alter {A} (g : A -> nat) (f : A -> A) (l : list A) i :
  (forall x, l !! i = Some x -> g (f x) = g x) ->
  sum_list_with g (alter f i l) = sum_list_with g l.
Proof.
  revert i. induction l as [|x l IH]; intros i Hx; [reflexivity|].
  destruct i as [|i]; cbn.
  - now rewrite (Hx x eq_refl).
  - f_equal. apply IH. intros y Hy. apply Hx. exact Hy.
Qed.

Lemma sum_list_with_alter_S {A} (g : A -> nat) (f : A -> A) (l : list A) i x :
  l !! i = Some x -> g (f x) = S (g x) ->
  sum_list_with g (alter f i l) = S (sum_list_with g l).
Proof.
  revert i. induction l as [|y l IH]; intros i Hi Hx; [discriminate|].
  destruct i as [|i]; cbn in *.
  - injection Hi as ->. rewrite Hx. reflexivity.
  - rewrite (IH i Hi Hx). lia.
Qed.

Lemma rets_in_push_inst i b :
  rets_in (push_inst i b) = (if is_ret i then 1 else 0) + rets_in b.
Proof.
  unfold rets_in, push_inst. cbn [bb_insts].
  rewrite filter_app, length_app, filter_cons, filter_nil.
  destruct (is_ret i).
  - destruct (decide (true = true)); [|contradiction]. cbn [length]. lia.
  - destruct (decide (false = true)); [discriminate|]. cbn [length]. lia.
Qed.

Lemma rets_in_push_front_inst i b :
  is_ret i = false -> rets_in (push_front_inst i b) = rets_in b.
Proof.
  intros Hi. unfold rets_in, push_front_inst. cbn [bb_insts].
  rewrite filter_cons, Hi.
  destruct (decide (false = true)); [discriminate|reflexivity].
Qed.

(** What the primitives do to the state *)

Lemma GetInsertBlock_inv st bb st' :
  GetInsertBlock st = (Ok bb, st') ->
  st' = st /\ insert_block st = Some bb /\ bb < length (blocks st).
Proof.
  unfold GetInsertBlock, bind, get, ret, throw.
  destruct (insert_block st) as [b|]; [|discriminate].
  destruct (decide (b < length (blocks st))); [|discriminate].
  intros H. injection H as <- <-. auto.
Qed.

Lemma Insert_inv i st u st' :
  Insert i st = (Ok u, st') ->
  exists bb,
    insert_block st = Some bb /\ bb < length (blocks st)
    /\ st' = set_blocks (alter (push_inst i) bb) st.
Proof.
  unfold Insert. intros H. apply bind_Ok_inv in H as (bb & st1 & Hbb & H).
  apply GetInsertBlock_inv in Hbb as (-> & Hins & Hlt).
  injection H as _ <-. eauto.
Qed.

Lemma create_entry_block_alloca_inv func var_name ty st a st' :
  create_entry_block_alloca func var_name ty st = (Ok a, st') ->
  exists f entry,
    module_functions st !! func = Some f
    /\ head (fn_blocks f) = Some entry
    /\ a = {| alloca_id := next_id st; getAllocatedType := ty;
              alloca_name := var_name |}
    /\ module_functions st' = module_functions st
    /\ insert_block st' = insert_block st
    /\ blocks st'
       = alter (push_front_inst (Inst (AllocaInst a))) entry (blocks st).
Proof.
  unfold create_entry_block_alloca, function_at. unfold bind at 1 2.
  cbn [get]. destruct (module_functions st !! func) as [f|]; [|discriminate].
  cbn [ret].
  destruct (head (fn_blocks f)) as [entry|] eqn:Hentry; [|discriminate].
  intros H. injection H as <- <-. exists f, entry. repeat split.
  exact Hentry.
Qed.

Lemma BasicBlock_Create_inv parent st bb st' :
  BasicBlock_Create parent st = (Ok bb, st') ->
  bb = length (blocks st)
  /\ insert_block st' = insert_block st
  /\ next_id st' = next_id st
  /\ blocks st'
     = match parent with
       | Some func =>
           alter (set_parent func) bb
             (blocks st ++ [{| bb_parent := None; bb_insts := [] |}])
       | None => blocks st ++ [{| bb_parent := None; bb_insts := [] |}]
       end
  /\ module_functions st'
     = match parent with
       | Some func => alter (push_block bb) func (module_functions st)
       | None => module_functions st
       end.
Proof.
  unfold BasicBlock_Create. destruct parent as [func|]; intros H;
    injection H as <- <-; repeat split.
Qed.

Lemma elem_of_alter {A} (g : A -> A) (l : list A) i y :
  y ∈ alter g i l -> y ∈ l \/ exists x, x ∈ l /\ y = g x.
Proof.
  intros Hy. apply list_elem_of_lookup in Hy as [j Hj].
  rewrite list_lookup_alter in Hj. destruct (decide (i = j)) as [->|Hne].
  - destruct (l !! j) as [x|] eqn:Hx; [|discriminate].
    injection Hj as <-. right. exists x. split; [|reflexivity].
    apply list_elem_of_lookup. eauto.
  - left. apply list_elem_of_lookup. eauto.
Qed.

Section ExitUntouched.

Variables end_bb n nf : nat.

Local Abbreviation Inv := (exit_untouched end_bb n nf).

(** A computation that does not change the state. *)
Lemma preserves_readonly {A} (m : M A) :
  (forall st a st', m st = (Ok a, st') -> st' = st) ->
  preserves Inv m (fun _ => True).
Proof.
  intros Hm st a st' HI H. rewrite (Hm _ _ _ H). auto.
Qed.

Lemma preserves_fresh : preserves Inv fresh (fun _ => True).
Proof.
  intros st a st' HI H. injection H as <- <-. split; [|exact Logic.I].
  exact HI.
Qed.

Lemma preserves_GetInsertBlock :
  preserves Inv GetInsertBlock (fun bb => bb <> end_bb).
Proof.
  intros st bb st' HI H. apply GetInsertBlock_inv in H as (-> & Hbb & _).
  split; [exact HI|]. destruct HI as (_ & Hins & _). congruence.
Qed.

Lemma exit_untouched_alter (f : basic_block -> basic_block) bb st st' :
  bb <> end_bb ->
  (forall b, rets_in (f b) = rets_in b) ->
  module_functions st' = module_functions st ->
  insert_block st' = insert_block st ->
  blocks st' = alter f bb (blocks st) ->
  Inv st -> Inv st'.
Proof.
  intros Hne Hf Hfs Hins Hbs (H1 & H2 & H3 & H4 & H5).
  unfold exit_untouched, count_rets. rewrite Hfs, Hins, Hbs.
  rewrite list_lookup_alter_ne by exact Hne.
  rewrite sum_list_with_alter by (intros; apply Hf). auto.
Qed.

Lemma preserves_Insert i :
  is_ret i = false -> preserves Inv (Insert i) (fun _ => True).
Proof.
  intros Hi st u st' HI H. apply Insert_inv in H as (bb & Hbb & _ & ->).
  split; [|exact Logic.I].
  apply (exit_untouched_alter (push_inst i) bb st); try reflexivity; auto.
  - destruct HI as (_ & Hins & _). congruence.
  - intros b. rewrite rets_in_push_inst, Hi. reflexivity.
Qed.

Lemma preserves_getTerminator : preserves Inv getTerminator (fun _ => True).
Proof.
  apply preserves_readonly. intros st a st' H. unfold getTerminator in H.
  apply bind_Ok_inv in H as (bb & st1 & Hbb & H).
  apply GetInsertBlock_inv in Hbb as (-> & _). now injection H as _ <-.
Qed.

Lemma preserves_getParent bb : preserves Inv (getParent bb) (fun _ => True).
Proof.
  apply preserves_readonly. intros st a st'. unfold getParent, bind, get.
  destruct (blocks st !! bb ≫= bb_parent); [|discriminate].
  intros H. now injection H as _ <-.
Qed.

Lemma preserves_function_at func :
  preserves Inv (function_at func) (fun _ => True).
Proof.
  apply preserves_readonly. intros st a st'. unfold function_at, bind, get.
  destruct (module_functions st !! func); [|discriminate].
  intros H. now injection H as _ <-.
Qed.

Lemma preserves_getFunction name :
  preserves Inv (getFunction name) (fun _ => True).
Proof.
  apply preserves_readonly. intros st a st' H. now injection H as _ <-.
Qed.

Lemma preserves_SetInsertPoint bb :
  bb <> end_bb -> preserves Inv (SetInsertPoint bb) (fun _ => True).
Proof.
  intros Hne st u st' (H1 & H2 & H3 & H4 & H5) H. injection H as _ <-.
  split; [|exact Logic.I]. repeat split; auto. cbn. congruence.
Qed.

Lemma exit_untouched_push_block (func bb : nat) (fs : list llvm_function) :
  bb <> end_bb ->
  (forall f, f ∈ fs -> end_bb ∉ fn_blocks f) ->
  forall f, f ∈ alter (push_block bb) func fs -> end_bb ∉ fn_blocks f.
Proof.
  intros Hne Hfs f Hf. apply elem_of_alter in Hf as [Hf | (f0 & Hf0 & ->)].
  - auto.
  - cbn [push_block fn_blocks]. rewrite elem_of_app, list_elem_of_singleton.
    intros [Hin | Heq]; [exact (Hfs f0 Hf0 Hin) | congruence].
Qed.

Lemma preserves_push_back func bb :
  bb <> end_bb -> preserves Inv (push_back func bb) (fun _ => True).
Proof.
  intros Hne st u st' (H1 & H2 & H3 & H4 & H5) H. injection H as _ <-.
  split; [|exact Logic.I].
  unfold exit_untouched, count_rets, set_functions, set_blocks.
  cbn [blocks module_functions insert_block].
  rewrite list_lookup_alter_ne by exact Hne.
  rewrite sum_list_with_alter by reflexivity. rewrite length_alter.
  repeat split; auto. apply exit_untouched_push_block; auto.
Qed.

Lemma preserves_BasicBlock_Create parent :
  preserves Inv (BasicBlock_Create parent) (fun bb => bb <> end_bb).
Proof.
  intros st bb st' (H1 & H2 & H3 & H4 & H5) H.
  apply BasicBlock_Create_inv in H as (-> & Hins & _ & Hbs & Hfs).
  assert (Hlt : end_bb < length (blocks st)).
  { destruct (blocks st !! end_bb) eqn:Hb; [|discriminate].
    eapply lookup_lt_Some; eauto. }
  assert (Hne : length (blocks st) <> end_bb) by lia.
  split; [|exact Hne]. unfold exit_untouched, count_rets.
  rewrite Hins, Hbs, Hfs. destruct parent as [func|].
  - rewrite list_lookup_alter_ne by exact Hne.
    rewrite sum_list_with_alter by reflexivity.
    rewrite lookup_app_l by exact Hlt. rewrite sum_list_with_app. cbn.
    rewrite length_alter.
    repeat split; auto; [|unfold count_rets in H4; lia].
    apply exit_untouched_push_block; auto.
  - rewrite lookup_app_l by exact Hlt. rewrite sum_list_with_app. cbn.
    repeat split; auto. unfold count_rets in H4. lia.
Qed.

Lemma preserves_create_entry_block_alloca func var_name ty :
  preserves Inv (create_entry_block_alloca func var_name ty) (fun _ => True).
Proof.
  intros st a st' HI H.
  apply create_entry_block_alloca_inv in H
    as (f & entry & Hf & Hentry & _ & Hfs & Hins & Hbs).
  split; [|exact Logic.I].
  apply (exit_untouched_alter
           (push_front_inst (Inst (AllocaInst a))) entry st st'); auto.
  - destruct HI as (_ & _ & H3 & _). intros ->.
    apply (H3 f); [apply list_elem_of_lookup; eauto|].
    destruct (fn_blocks f); [discriminate|]. injection Hentry as ->.
    apply list_elem_of_here.
Qed.

End ExitUntouched.

(** Induction over expressions and statements, with the hypotheses for the
    arguments of a call, the statements of a block and the else branch. *)

Lemma expression_ind_nested (P : expression -> Prop) :
  P nil_expression ->
  (forall node, P (uint_literal node)) ->
  (forall node, P (int_literal node)) ->
  (forall node, P (bool_literal node)) ->
  (forall str, P (string_literal str)) ->
  (forall ch, P (char_literal ch)) ->
  (forall op rhs, P rhs -> P (unary_op_expr op rhs)) ->
  (forall lhs op rhs, P lhs -> P rhs -> P (bin_op_expr lhs op rhs)) ->
  (forall name, P (variable_ref name)) ->
  (forall callee args, Forall P args -> P (function_call_expr callee args)) ->
  (forall lhs as_, P lhs -> P (conv_expr lhs as_)) ->
  (forall lhs, P lhs -> P (addr_of_expr lhs)) ->
  (forall lhs, P lhs -> P (indirection_expr lhs)) ->
  forall node, P node.
Proof.
  intros Hnil Huint Hint Hbool Hstr Hch Hun Hbin Hvar Hcall Hconv Haddr Hind.
  fix IH 1. intros [| | | | | | op rhs | lhs op rhs | | callee args
                    | lhs as_ | lhs | lhs].
  1-6: clear IH; auto.
  - apply Hun, IH.
  - apply Hbin; apply IH.
  - apply Hvar.
  - apply Hcall.
    exact ((fix go (l : list expression) : Forall P l :=
            match l with
            | [] => Forall_nil_2 P
            | x :: l' => Forall_cons_2 P x l' (IH x) (go l')
            end) args).
  - apply Hconv, IH.
  - apply Haddr, IH.
  - apply Hind, IH.
Qed.

Lemma statement_ind_nested (P : statement -> Prop) :
  P nil_statement ->
  (forall statements, Forall P statements ->
     P (compound_statement statements)) ->
  (forall node, P (expression_statement node)) ->
  (forall rhs, P (return_statement rhs)) ->
  (forall qualifier name type_ initializer,
     P (variable_def_statement qualifier name type_ initializer)) ->
  (forall condition then_statement else_statement,
     P then_statement ->
     (forall s, else_statement = Some s -> P s) ->
     P (if_statement condition then_statement else_statement)) ->
  (forall body, P body -> P (loop_statement body)) ->
  (forall cond_expr body, P body -> P (while_statement cond_expr body)) ->
  (forall init_expr cond_expr loop_expr body,
     P body -> P (for_statement init_expr cond_expr loop_expr body)) ->
  P break_statement ->
  P continue_statement ->
  forall node, P node.
Proof.
  intros Hnil Hcomp Hexpr Hret Hdef Hif Hloop Hwhile Hfor Hbreak Hcont.
  fix IH 1. intros [| statements | | | | condition then_ else_ | body
                    | cond_expr body | init_expr cond_expr loop_expr body
                    | |].
  - apply Hnil.
  - apply Hcomp.
    exact ((fix go (l : list statement) : Forall P l :=
              match l with
              | [] => Forall_nil_2 P
              | x :: l' => Forall_cons_2 P x l' (IH x) (go l')
              end) statements).
  - apply Hexpr.
  - apply Hret.
  - apply Hdef.
  - apply Hif; [apply IH|].
    destruct else_ as [s|]; intros s' Hs; [|discriminate].
    injection Hs as <-. apply IH.
  - apply Hloop, IH.
  - apply Hwhile, IH.
  - apply Hfor, IH.
  - apply Hbreak.
  - apply Hcont.
Qed.

(** [codegen_statement] on a statement and the visitor on that statement do
    the same to the builder; only the scope of the visitor is dropped. *)
Lemma codegen_statement_with_visitor retvar end_bb break_bb continue_bb
    statement scope st st' :
  codegen_statement_with
    (statement_visitor retvar end_bb break_bb continue_bb) statement scope st
  = (Ok tt, st') ->
  exists scope',
    statement_visitor retvar end_bb break_bb continue_bb statement scope st
    = (Ok scope', st').
Proof.
  destruct statement; cbn [codegen_statement_with]; intros H;
    try (apply bind_Ok_inv in H as (scope' & st1 & H & Hret);
         injection Hret as <-; exists scope'; exact H).
  exists scope. cbn [statement_visitor]. rewrite (bind_Ok _ _ _ _ _ H).
  reflexivity.
Qed.

Create HintDb pres.

#[local] Hint Resolve preserves_fresh preserves_GetInsertBlock
  preserves_getTerminator preserves_getParent preserves_function_at
  preserves_getFunction preserves_SetInsertPoint preserves_push_back
  preserves_BasicBlock_Create preserves_create_entry_block_alloca : pres.

(** One step through a computation: a bind whose first part has a known
    specification, a bind over a compound first part, a return, a throw,
    or a case distinction. *)
Ltac pres_step :=
  lazymatch goal with
  | |- preserves _ (bind _ _) _ =>
      first
        [ eapply preserves_bind; [solve [eauto with pres] | intros ? ?]
        | apply preserves_bind with (P := fun _ => True); [|intros ? _] ]
  | |- preserves _ (ret _) _ => apply preserves_ret; try exact Logic.I
  | |- preserves _ (throw _) _ => apply preserves_throw
  | |- preserves _ (when _ _) _ => unfold when
  | |- preserves _ (match ?x with _ => _ end) _ => destruct x
  | |- preserves _ _ _ =>
      eapply preserves_weaken;
      [solve [eauto with pres] | intros; exact Logic.I]
  end.

Ltac pres := repeat pres_step.

Section ExitUntouchedLowering.

Variables end_bb n nf : nat.

Local Abbreviation Inv := (exit_untouched end_bb n nf).

Lemma preserves_CreateStore v ptr :
  preserves Inv (CreateStore v ptr) (fun _ => True).
Proof. apply preserves_Insert. reflexivity. Qed.

Lemma preserves_CreateBr dest : preserves Inv (CreateBr dest) (fun _ => True).
Proof. apply preserves_Insert. reflexivity. Qed.

Lemma preserves_CreateCondBr cond if_true if_false :
  preserves Inv (CreateCondBr cond if_true if_false) (fun _ => True).
Proof. apply preserves_Insert. reflexivity. Qed.

Lemma preserves_Insert_value v :
  preserves Inv (Insert (Inst v)) (fun _ => True).
Proof. apply preserves_Insert. reflexivity. Qed.

Hint Resolve preserves_CreateStore preserves_CreateBr preserves_CreateCondBr
  preserves_Insert_value : pres.

Lemma preserves_CreateLoad ty ptr :
  preserves Inv (CreateLoad ty ptr) (fun _ => True).
Proof. unfold CreateLoad. pres. Qed.

Lemma preserves_CreateBinOp op lhs rhs :
  preserves Inv (CreateBinOp op lhs rhs) (fun _ => True).
Proof. unfold CreateBinOp. pres. Qed.

Lemma preserves_CreateICmp p lhs rhs :
  preserves Inv (CreateICmp p lhs rhs) (fun _ => True).
Proof. unfold CreateICmp. pres. Qed.

Lemma preserves_CreateIntegerCast v ty is_signed :
  preserves Inv (CreateIntegerCast v ty is_signed) (fun _ => True).
Proof. unfold CreateIntegerCast. pres. Qed.

Hint Resolve preserves_CreateLoad preserves_CreateBinOp preserves_CreateICmp
  preserves_CreateIntegerCast : pres.

Lemma preserves_CreateIntCast v ty is_signed :
  preserves Inv (CreateIntCast v ty is_signed) (fun _ => True).
Proof. unfold CreateIntCast. pres. Qed.

Lemma preserves_CreateCall callee args :
  preserves Inv (CreateCall callee args) (fun _ => True).
Proof. unfold CreateCall. pres. Qed.

Lemma preserves_i1_to_boolean v :
  preserves Inv (i1_to_boolean v) (fun _ => True).
Proof. unfold i1_to_boolean. pres. Qed.

Lemma preserves_condition_of v :
  preserves Inv (condition_of v) (fun _ => True).
Proof. unfold condition_of. pres. Qed.

Lemma preserves_or_throw v message :
  preserves Inv (or_throw v message) (fun _ => True).
Proof. unfold or_throw. pres. Qed.

Lemma preserves_current_function :
  preserves Inv current_function (fun _ => True).
Proof. unfold current_function. pres. Qed.

Hint Resolve preserves_CreateIntCast preserves_CreateCall
  preserves_i1_to_boolean preserves_condition_of preserves_or_throw
  preserves_current_function : pres.

Lemma preserves_unless_terminated m :
  preserves Inv m (fun _ => True) ->
  preserves Inv (unless_terminated m) (fun _ => True).
Proof. intros Hm. unfold unless_terminated. pres. Qed.

Lemma preserves_assign scope name op rhs :
  preserves Inv (assign scope name op rhs) (fun _ => True).
Proof. unfold assign. pres. Qed.

Lemma preserves_binary op lhs rhs :
  preserves Inv (binary op lhs rhs) (fun _ => True).
Proof. unfold binary. pres. Qed.

Lemma preserves_verify_arguments callee args_value callee_args idx :
  preserves Inv (verify_arguments callee args_value callee_args idx)
    (fun _ => True).
Proof.
  revert idx. induction callee_args as [|arg rest IH]; intros idx;
    cbn [verify_arguments]; pres.
Qed.

Lemma preserves_lower_arguments visit callee args args_value :
  Forall (fun arg => preserves Inv (visit arg) (fun _ => True)) args ->
  preserves Inv (lower_arguments visit callee args args_value)
    (fun _ => True).
Proof.
  intros Hargs. revert args_value.
  induction Hargs as [|arg rest Harg _ IH]; intros args_value;
    cbn [lower_arguments]; [pres|].
  apply preserves_bind with (P := fun _ => True); [exact Harg|].
  intros [v|] _; [apply IH | pres].
Qed.

Hint Resolve preserves_assign preserves_binary preserves_verify_arguments
  : pres.

Lemma preserves_expression_visitor scope node :
  preserves Inv (expression_visitor scope node) (fun _ => True).
Proof.
  induction node using expression_ind_nested; cbn [expression_visitor].
  - pres.
  - pres.
  - pres.
  - pres.
  - pres.
  - pres.
  - apply preserves_bind with (P := fun _ => True); [exact IHnode|].
    intros ? _. pres.
  - destruct (is_assignment op).
    + destruct node1; try apply preserves_throw.
      apply preserves_bind with (P := fun _ => True); [exact IHnode2|].
      intros ? _. pres.
    + apply preserves_bind with (P := fun _ => True); [exact IHnode1|].
      intros ? _.
      apply preserves_bind with (P := fun _ => True); [exact IHnode2|].
      intros ? _. pres.
  - pres.
  - eapply preserves_bind; [apply preserves_getFunction|]. intros [[? ?]|] _.
    + match goal with
      | |- preserves _ (if ?c then _ else _) _ => destruct c
      end; [apply preserves_throw|].
      apply preserves_bind with (P := fun _ => True);
        [apply preserves_lower_arguments; assumption|].
      intros ? _. pres.
    + apply preserves_throw.
  - apply preserves_bind with (P := fun _ => True); [exact IHnode|].
    intros ? _. pres.
  - apply preserves_bind with (P := fun _ => True); [exact IHnode|].
    intros ? _. pres.
  - apply preserves_bind with (P := fun _ => True); [exact IHnode|].
    intros ? _. pres.
Qed.

Hint Resolve preserves_expression_visitor preserves_unless_terminated : pres.

Lemma preserves_lower_statements
    (visit : statement -> symbol_table -> M symbol_table) statements scope :
  Forall (fun s => forall scope, preserves Inv (visit s scope) (fun _ => True))
    statements ->
  preserves Inv (lower_statements visit statements scope) (fun _ => True).
Proof.
  intros Hs. revert scope.
  induction Hs as [|r rest Hr _ IH]; intros scope; cbn [lower_statements];
    [pres|].
  apply preserves_bind with (P := fun _ => True); [apply Hr|].
  intros ? _. pres.
Qed.

Lemma preserves_codegen_statement_with retvar end_bb' break_bb continue_bb
    statement scope :
  preserves Inv
    (statement_visitor retvar end_bb' break_bb continue_bb statement scope)
    (fun _ => True) ->
  preserves Inv
    (codegen_statement_with
       (statement_visitor retvar end_bb' break_bb continue_bb)
       statement scope)
    (fun _ => True).
Proof.
  intros Hs st [] st' HI H.
  apply codegen_statement_with_visitor in H as [scope' H].
  split; [|exact Logic.I]. exact (proj1 (Hs _ _ _ HI H)).
Qed.

Hint Resolve preserves_codegen_statement_with : pres.

Lemma preserves_statement_visitor node :
  forall retvar end_bb' break_bb continue_bb scope,
    preserves Inv
      (statement_visitor retvar end_bb' break_bb continue_bb node scope)
      (fun _ => True).
Proof.
  induction node as [| statements IH | | | | condition then_ else_ IHthen IHelse
                     | body IH | cond_expr body IH
                     | init_expr cond_expr loop_expr body IH | |]
    using statement_ind_nested;
    intros retvar end_bb' break_bb continue_bb scope;
    cbn [statement_visitor].
  - pres.
  - apply preserves_bind with (P := fun _ => True); [|intros; pres].
    apply preserves_lower_statements.
    eapply Forall_impl; [exact IH|]. cbv beta. auto.
  - pres.
  - pres.
  - pres.
  - destruct else_ as [else_|].
    + specialize (IHelse else_ eq_refl). pres.
    + clear IHelse. pres.
  - pres.
  - pres.
  - pres.
  - pres.
  - pres.
Qed.

Lemma preserves_codegen_statement statement scope retvar end_bb' break_bb
    continue_bb :
  preserves Inv
    (codegen_statement statement scope retvar end_bb' break_bb continue_bb)
    (fun _ => True).
Proof.
  apply preserves_codegen_statement_with, preserves_statement_visitor.
Qed.

End ExitUntouchedLowering.

(** ** The start of a function definition *)

Lemma count_rets_alter (f : basic_block -> basic_block) bb st st' :
  (forall b, rets_in (f b) = rets_in b) ->
  blocks st' = alter f bb (blocks st) ->
  count_rets st' = count_rets st /\ length (blocks st') = length (blocks st).
Proof.
  intros Hf Hbs. unfold count_rets. rewrite Hbs, length_alter.
  rewrite sum_list_with_alter by (intros; apply Hf). auto.
Qed.

Lemma find_vararg_readonly ps is_vararg_ st a st' :
  find_vararg ps is_vararg_ st = (Ok a, st') -> st' = st.
Proof.
  revert is_vararg_. induction ps as [|r rest IH]; intros is_vararg_;
    cbn [find_vararg].
  - intros H. now injection H as _ <-.
  - destruct (is_vararg r); [destruct is_vararg_; [discriminate|]|];
      apply IH.
Qed.

Lemma resolve_param_types_readonly named st a st' :
  resolve_param_types named st = (Ok a, st') -> st' = st.
Proof.
  revert a st'. induction named as [|p rest IH]; intros a st';
    cbn [resolve_param_types].
  - intros H. now injection H as _ <-.
  - intros H. apply bind_Ok_inv in H as (t & st1 & Ht & H).
    unfold or_undefined in Ht.
    destruct (typename_to_type _ _); [|discriminate].
    injection Ht as _ <-.
    apply bind_Ok_inv in H as (ts & st2 & Hts & H).
    apply IH in Hts as ->. now injection H as _ <-.
Qed.

Lemma visit_function_declare_inv node st func st' :
  visit_function_declare node st = (Ok func, st') ->
  exists f,
    fn_blocks f = []
    /\ module_functions st' = module_functions st ++ [f]
    /\ blocks st' = blocks st.
Proof.
  unfold visit_function_declare.
  destruct (match params node with p :: _ => is_vararg p | [] => false end);
    [discriminate|].
  intros H. apply bind_Ok_inv in H as (v & st1 & Hv & H).
  apply find_vararg_readonly in Hv as ->.
  apply bind_Ok_inv in H as (ts & st2 & Hts & H).
  apply resolve_param_types_readonly in Hts as ->.
  apply bind_Ok_inv in H as (rt & st3 & Hrt & H).
  unfold or_undefined in Hrt.
  destruct (typename_to_type _ _); [|discriminate].
  injection Hrt as _ <-. injection H as _ <-.
  eexists. split; [|split]. 2, 3: reflexivity. reflexivity.
Qed.

Lemma well_formed_create (func : nat) st :
  well_formed st ->
  forall f bb,
    f ∈ alter (push_block (length (blocks st))) func (module_functions st) ->
    bb ∈ fn_blocks f ->
    bb < S (length (blocks st)).
Proof.
  intros Hwf f bb Hf Hbb. apply elem_of_alter in Hf as [Hf | (f0 & Hf0 & ->)].
  - specialize (Hwf f bb Hf Hbb). lia.
  - cbn [push_block fn_blocks] in Hbb.
    apply elem_of_app in Hbb as [Hbb | Hbb].
    + specialize (Hwf f0 bb Hf0 Hbb). lia.
    + apply list_elem_of_singleton in Hbb as ->. lia.
Qed.

Lemma lower_parameters_frame func node_params args arg_no argument_values
    st scope st' :
  lower_parameters func node_params args arg_no argument_values st
  = (Ok scope, st') ->
  module_functions st' = module_functions st
  /\ insert_block st' = insert_block st
  /\ length (blocks st') = length (blocks st)
  /\ count_rets st' = count_rets st.
Proof.
  revert arg_no argument_values st.
  induction args as [|[arg_ty arg_name] rest IH];
    intros arg_no argument_values st; cbn [lower_parameters].
  - intros H. injection H as _ <-. auto.
  - intros H. apply bind_Ok_inv in H as (p & st1 & Hp & H).
    unfold or_undefined in Hp. destruct (node_params !! arg_no);
      [|discriminate]. injection Hp as _ <-.
    destruct (typename_to_type _ _); [|discriminate].
    apply bind_Ok_inv in H as (a & st2 & Ha & H).
    apply create_entry_block_alloca_inv in Ha
      as (f & entry & _ & _ & _ & Hfs & Hins & Hbs).
    apply (count_rets_alter _ entry st st2) in Hbs as [Hc Hl];
      [|intros; apply rets_in_push_front_inst; reflexivity].
    apply bind_Ok_inv in H as (u & st3 & Hstore & H).
    apply Insert_inv in Hstore as (bb & _ & _ & ->).
    apply IH in H as (Hfs' & Hins' & Hl' & Hc').
    rewrite Hfs', Hins', Hl', Hc'. unfold count_rets, set_blocks.
    cbn [module_functions insert_block blocks].
    rewrite length_alter, sum_list_with_alter
      by (intros; rewrite rets_in_push_inst; reflexivity).
    auto.
Qed.

Lemma define_entry_inv node st func argument_values st' :
  well_formed st ->
  define_entry node st = (Ok (func, argument_values), st') ->
  well_formed st'
  /\ count_rets st' = count_rets st
  /\ (exists entry,
        insert_block st' = Some entry /\ entry < length (blocks st'))
  /\ func < length (module_functions st').
Proof.
  intros Hwf H. unfold define_entry in H.
  apply bind_Ok_inv in H as (found & st0 & Hfound & H).
  injection Hfound as _ <-.
  apply bind_Ok_inv in H as (func' & st1 & Hfunc & H).
  assert (Hst1 : well_formed st1 /\ blocks st1 = blocks st).
  { destruct found as [[func0 f0]|].
    - injection Hfunc as _ <-. auto.
    - apply visit_function_declare_inv in Hfunc as (f & Hf & Hfs & Hbs).
      split; [|exact Hbs]. intros f' bb. rewrite Hfs, Hbs.
      intros Hf' Hbb. apply elem_of_app in Hf' as [Hf' | Hf'].
      + exact (Hwf f' bb Hf' Hbb).
      + apply list_elem_of_singleton in Hf' as ->. rewrite Hf in Hbb.
        inversion Hbb. }
  destruct Hst1 as [Hwf1 Hbs1].
  apply bind_Ok_inv in H as (entry & st2 & Hentry & H).
  apply BasicBlock_Create_inv in Hentry as (-> & Hins2 & _ & Hbs2 & Hfs2).
  apply bind_Ok_inv in H as (u & st3 & Hset & H). injection Hset as _ <-.
  apply bind_Ok_inv in H as (f & st4 & Hf & H).
  unfold function_at, bind, get in Hf. cbn [module_functions] in Hf.
  destruct (module_functions st2 !! func') as [f'|] eqn:Hlookup;
    [|discriminate].
  injection Hf as _ <-.
  apply bind_Ok_inv in H as (scope & st5 & Hparams & H).
  injection H as <- <- <-.
  apply lower_parameters_frame in Hparams as (Hfs5 & Hins5 & Hl5 & Hc5).
  cbn [module_functions insert_block blocks] in *.
  assert (Hl2 : length (blocks st2) = S (length (blocks st1))).
  { rewrite Hbs2, length_alter, length_app. cbn. lia. }
  repeat split.
  - intros f0 bb. rewrite Hfs5, Hl5, Hl2, Hfs2. apply well_formed_create.
    exact Hwf1.
  - rewrite Hc5. unfold count_rets. cbn [blocks]. rewrite Hbs2, <- Hbs1.
    rewrite sum_list_with_alter by reflexivity.
    rewrite sum_list_with_app. cbn. lia.
  - exists (length (blocks st1)). rewrite Hins5, Hl5, Hl2. split; [reflexivity|lia].
  - rewrite Hfs5. eapply lookup_lt_Some. exact Hlookup.
Qed.

Lemma define_exit_inv node func st end_bb retvar st' :
  well_formed st ->
  (exists entry, insert_block st = Some entry /\ entry < length (blocks st)) ->
  define_exit node func st = (Ok (end_bb, retvar), st') ->
  exit_untouched end_bb (count_rets st) (length (module_functions st)) st'
  /\ (retvar = None <-> id (return_type (decl node)) = void_).
Proof.
  intros Hwf (entry & Hentry & Hlt) H. unfold define_exit in H.
  destruct (typename_to_type _ _) as [return_type_|]; [|discriminate].
  apply bind_Ok_inv in H as (e & st1 & He & H).
  apply BasicBlock_Create_inv in He as (-> & Hins & _ & Hbs & Hfs).
  assert (Hinv : exit_untouched (length (blocks st)) (count_rets st)
                   (length (module_functions st)) st1).
  { unfold exit_untouched, count_rets. rewrite Hins, Hbs, Hfs, Hentry.
    rewrite sum_list_with_app. cbn [sum_list_with rets_in bb_insts filter].
    repeat split.
    - rewrite lookup_app_r by lia. now rewrite Nat.sub_diag.
    - intros Heq. injection Heq as ->. lia.
    - intros f Hf Hin. specialize (Hwf f _ Hf Hin). lia.
    - cbn. lia. }
  apply bind_Ok_inv in H as (r & st2 & Hr & H). injection H as <- <- <-.
  destruct (decide (id (return_type (decl node)) = void_)) as [Hvoid|Hvoid].
  - injection Hr as <- <-. split; [exact Hinv|]. split; auto.
  - apply bind_Ok_inv in Hr as (a & st3 & Ha & Hr). injection Hr as <- <-.
    split.
    + exact (proj1 (preserves_create_entry_block_alloca _ _ _ _ _ _ _ _ _
                      Hinv Ha)).
    + split; [discriminate | contradiction].
Qed.

(** ** The end of a function definition *)

Lemma getTerminator_inv st terminator st' :
  getTerminator st = (Ok terminator, st') ->
  st' = st
  /\ exists cur b,
       insert_block st = Some cur /\ blocks st !! cur = Some b
       /\ terminator = terminator_of b.
Proof.
  unfold getTerminator. intros H.
  apply bind_Ok_inv in H as (cur & st1 & Hcur & H).
  apply GetInsertBlock_inv in Hcur as (-> & Hins & Hlt).
  injection H as <- <-. split; [reflexivity|].
  destruct (lookup_lt_is_Some_2 _ _ Hlt) as [b Hb].
  exists cur, b. rewrite Hb. auto.
Qed.

Lemma getTerminator_run st cur b :
  insert_block st = Some cur -> blocks st !! cur = Some b ->
  getTerminator st = (Ok (terminator_of b), st).
Proof.
  intros Hins Hb. unfold getTerminator, GetInsertBlock, bind, get, ret.
  rewrite Hins. destruct (decide (cur < length (blocks st))) as [|Hn].
  - rewrite Hb. reflexivity.
  - destruct Hn. eapply lookup_lt_Some. exact Hb.
Qed.

Lemma Insert_run i st cur b :
  insert_block st = Some cur -> blocks st !! cur = Some b ->
  Insert i st = (Ok tt, set_blocks (alter (push_inst i) cur) st).
Proof.
  intros Hins Hb. unfold Insert, GetInsertBlock, bind, get, ret.
  rewrite Hins. destruct (decide (cur < length (blocks st))) as [|Hn].
  - reflexivity.
  - destruct Hn. eapply lookup_lt_Some. exact Hb.
Qed.

Lemma preserves_synthesize_return end_bb n nf node func retvar :
  preserves (exit_untouched end_bb n nf)
    (synthesize_return node func retvar end_bb) (fun _ => True).
Proof.
  assert (Hstore : forall v ptr,
             preserves (exit_untouched end_bb n nf) (CreateStore v ptr)
               (fun _ => True)) by (intros; apply preserves_CreateStore).
  assert (Hbr : forall dest,
             preserves (exit_untouched end_bb n nf) (CreateBr dest)
               (fun _ => True)) by (intros; apply preserves_CreateBr).
  unfold synthesize_return, or_undefined. pres.
Qed.

Lemma synthesize_return_inv node func retvar end_bb st u st' :
  (retvar = None <-> id (return_type (decl node)) = void_) ->
  synthesize_return node func retvar end_bb st = (Ok u, st') ->
  next_id st' = next_id st
  /\ exists cur b,
       insert_block st = Some cur /\ blocks st !! cur = Some b
       /\ forall f,
            module_functions st !! func = Some f ->
            bb_insts <$> blocks st' !! cur
            = Some (bb_insts b
                    ++ synthesized_terminator node f retvar end_bb b).
Proof.
  intros Hvoid H. unfold synthesize_return in H.
  apply bind_Ok_inv in H as (t & st1 & Ht & H).
  apply getTerminator_inv in Ht as (-> & cur & b & Hins & Hb & ->).
  apply bind_Ok_inv in H as (u1 & st1 & H1 & H).
  apply bind_Ok_inv in H as (t2 & st2 & Ht2 & H).
  apply getTerminator_inv in Ht2 as (-> & cur2 & b2 & Hins2 & Hb2 & ->).
  unfold synthesized_terminator.
  destruct (terminator_of b) as [i|] eqn:Hterm.
  - (* the block has a terminator *)
    cbn [bool_decide andb] in H1. rewrite bool_decide_eq_false_2 in H1
      by discriminate. cbn [andb] in H1. injection H1 as _ <-.
    rewrite Hins in Hins2. injection Hins2 as <-.
    rewrite Hb in Hb2. injection Hb2 as <-. rewrite Hterm in H.
    rewrite (bool_decide_eq_false_2 (Some i = None)) in H by discriminate.
    rewrite andb_false_r in H. injection H as _ <-.
    split; [reflexivity|]. exists cur, b. repeat split; auto.
    intros f _. rewrite Hterm, Hb, app_nil_r. reflexivity.
  - rewrite (bool_decide_eq_true_2 (None = None)) in H1 by reflexivity.
    cbn [andb] in H1.
    destruct (decide (id (return_type (decl node)) = void_)) as [Hv|Hv].
    + (* void *)
      rewrite bool_decide_eq_false_2 in H1 by auto.
      injection H1 as _ <-.
      rewrite Hins in Hins2. injection Hins2 as <-.
      rewrite Hb in Hb2. injection Hb2 as <-. rewrite Hterm in H.
      rewrite !bool_decide_eq_true_2 in H by auto. cbn [andb] in H.
      unfold CreateBr in H. rewrite (Insert_run _ _ _ _ Hins Hb) in H.
      injection H as _ <-.
      split; [reflexivity|]. exists cur, b. repeat split; auto.
      intros f _. rewrite Hterm, (proj2 Hvoid Hv).
      unfold set_blocks. cbn [blocks]. rewrite list_lookup_alter_eq, Hb.
      reflexivity.
    + (* a value is returned *)
      rewrite bool_decide_eq_true_2 in H1 by auto.
      apply bind_Ok_inv in H1 as (f' & st3 & Hf' & H1).
      unfold function_at, bind, get in Hf'.
      destruct (module_functions st !! func) as [f0|] eqn:Hf0;
        [|discriminate].
      injection Hf' as <- <-.
      apply bind_Ok_inv in H1 as (r & st4 & Hr & H1).
      destruct retvar as [retvar|]; [|discriminate].
      injection Hr as <- <-.
      assert (Hst1 :
        st1 = set_blocks (alter (push_inst (BranchInst end_bb)) cur)
                (set_blocks
                   (alter (push_inst
                             (StoreInst
                                (if String.eqb (decl_name (decl node)) "main"
                                 then ConstantInt_get (fn_return_type f0) 0
                                 else UndefValue (fn_return_type f0))
                                (AllocaInst retvar))) cur) st)).
      { destruct (String.eqb (decl_name (decl node)) "main");
          apply bind_Ok_inv in H1 as (u2 & st5 & Hs & H1);
          unfold CreateStore in Hs;
          rewrite (Insert_run _ _ _ _ Hins Hb) in Hs;
          injection Hs as _ <-;
          unfold CreateBr in H1;
          (erewrite Insert_run in H1;
           [ injection H1 as _ <-; reflexivity
           | exact Hins
           | unfold set_blocks; cbn [blocks];
             rewrite list_lookup_alter_eq, Hb; reflexivity ]). }
      rewrite bool_decide_eq_false_2 in H by auto. cbn [andb] in H.
      injection H as _ <-. subst st1.
      split; [reflexivity|]. exists cur, b. repeat split; auto.
      intros f Hf. injection Hf as <-. rewrite Hterm.
      unfold set_blocks. cbn [blocks].
      rewrite !list_lookup_alter_eq, Hb. cbn.
      now rewrite <- app_assoc.
Qed.

Lemma emit_return_inv func retvar end_bb st u st' n nf :
  exit_untouched end_bb n nf st ->
  func < nf ->
  emit_return func retvar end_bb st = (Ok u, st') ->
  bb_insts <$> blocks st' !! end_bb = Some (exit_block retvar (next_id st))
  /\ (forall bb, bb <> end_bb ->
        bb_insts <$> blocks st' !! bb = bb_insts <$> blocks st !! bb)
  /\ count_rets st' = S n
  /\ (exists f,
        module_functions st' !! func = Some f
        /\ last (fn_blocks f) = Some end_bb)
  /\ insert_block st' = Some end_bb.
Proof.
  intros (Hempty & _ & _ & Hcount & Hnf) Hfunc H. unfold emit_return in H.
  apply bind_Ok_inv in H as (u1 & st1 & Hpush & H). injection Hpush as _ <-.
  apply bind_Ok_inv in H as (u2 & st2 & Hset & H). injection Hset as _ <-.
  destruct (blocks st !! end_bb) as [b|] eqn:Hb; [|discriminate].
  injection Hempty as Hempty.
  set (st2 := {| module_functions :=
                   module_functions
                     (set_functions (alter (push_block end_bb) func)
                        (set_blocks (alter (set_parent func) end_bb) st));
                 blocks :=
                   blocks
                     (set_functions (alter (push_block end_bb) func)
                        (set_blocks (alter (set_parent func) end_bb) st));
                 insert_block := Some end_bb;
                 next_id :=
                   next_id
                     (set_functions (alter (push_block end_bb) func)
                        (set_blocks (alter (set_parent func) end_bb) st)) |})
    in *.
  assert (Hins2 : insert_block st2 = Some end_bb) by reflexivity.
  assert (Hb2 : blocks st2 !! end_bb = Some (set_parent func b)).
  { unfold st2, set_functions, set_blocks. cbn [blocks].
    rewrite list_lookup_alter_eq, Hb. reflexivity. }
  assert (Hc2 : count_rets st2 = n).
  { rewrite <- Hcount. unfold count_rets, st2, set_functions, set_blocks.
    cbn [blocks]. now rewrite sum_list_with_alter by reflexivity. }
  assert (Hf2 : exists f, module_functions st2 !! func = Some f
                          /\ last (fn_blocks f) = Some end_bb).
  { unfold st2, set_functions, set_blocks. cbn [module_functions].
    rewrite list_lookup_alter_eq.
    destruct (lookup_lt_is_Some_2 (module_functions st) func ltac:(lia))
      as [f Hf].
    rewrite Hf. eexists. split; [reflexivity|].
    cbn [push_block fn_blocks]. apply last_snoc. }
  assert (Hother : forall bb, bb <> end_bb ->
            bb_insts <$> blocks st2 !! bb = bb_insts <$> blocks st !! bb).
  { intros bb Hne. unfold st2, set_functions, set_blocks. cbn [blocks].
    rewrite list_lookup_alter_ne by auto. reflexivity. }
  assert (Hfinal : forall l i st3,
            is_ret i = true ->
            blocks st3 !! end_bb
            = Some {| bb_parent := Some func; bb_insts := l |} ->
            insert_block st3 = Some end_bb ->
            module_functions st3 = module_functions st2 ->
            count_rets st3 = n ->
            (forall bb, bb <> end_bb ->
               bb_insts <$> blocks st3 !! bb = bb_insts <$> blocks st !! bb) ->
            Insert i st3 = (Ok u, st') ->
            bb_insts <$> blocks st' !! end_bb = Some (l ++ [i])
            /\ (forall bb, bb <> end_bb ->
                  bb_insts <$> blocks st' !! bb
                  = bb_insts <$> blocks st !! bb)
            /\ count_rets st' = S n
            /\ (exists f,
                  module_functions st' !! func = Some f
                  /\ last (fn_blocks f) = Some end_bb)
            /\ insert_block st' = Some end_bb).
  { intros l i st3 Hi Hb3 Hins3 Hfs3 Hc3 Ho3 Hrun.
    rewrite (Insert_run _ _ _ _ Hins3 Hb3) in Hrun. injection Hrun as _ <-.
    unfold set_blocks, count_rets. cbn [blocks module_functions insert_block].
    rewrite list_lookup_alter_eq, Hb3. repeat split.
    - intros bb Hne. rewrite list_lookup_alter_ne by auto. now apply Ho3.
    - rewrite <- Hc3. apply (sum_list_with_alter_S _ _ _ _ _ Hb3).
      rewrite rets_in_push_inst, Hi. reflexivity.
    - rewrite Hfs3. exact Hf2.
    - exact Hins3. }
  unfold CreateRet in H.
  destruct retvar as [retvar|].
  - apply bind_Ok_inv in H as (retval & st3 & Hload & H).
    unfold CreateLoad in Hload.
    apply bind_Ok_inv in Hload as (load_id & st4 & Hid & Hload).
    injection Hid as <- <-.
    apply bind_Ok_inv in Hload as (u3 & st5 & Hload & Hret).
    injection Hret as <- <-.
    erewrite Insert_run in Hload; [|exact Hins2|exact Hb2].
    injection Hload as _ <-.
    pose proof (fun l Hi Hb3 Hins3 Hfs3 Hc3 Ho3 =>
                  Hfinal l _ _ Hi Hb3 Hins3 Hfs3 Hc3 Ho3 H) as Hfin.
    apply (Hfin [Inst (LoadInst (next_id st) (getAllocatedType retvar)
                         (AllocaInst retvar))]); try reflexivity.
    + unfold set_blocks. cbn [blocks]. rewrite list_lookup_alter_eq.
      change (alter (set_parent func) end_bb (blocks st) !! end_bb)
        with (blocks st2 !! end_bb).
      rewrite Hb2. unfold push_inst, set_parent.
      cbn [fmap option_fmap option_map bb_insts bb_parent].
      rewrite Hempty. reflexivity.
    + rewrite <- Hc2. unfold count_rets, set_blocks. cbn [blocks].
      now rewrite sum_list_with_alter
        by (intros; rewrite rets_in_push_inst; reflexivity).
    + intros bb Hne. unfold set_blocks. cbn [blocks].
      rewrite list_lookup_alter_ne by auto. now apply Hother.
  - pose proof (fun l Hi Hb3 Hins3 Hfs3 Hc3 Ho3 =>
                  Hfinal l _ _ Hi Hb3 Hins3 Hfs3 Hc3 Ho3 H) as Hfin.
    apply (Hfin []); try reflexivity; auto.
    change (blocks st2 !! end_bb
            = Some {| bb_parent := Some func; bb_insts := [] |}).
    rewrite Hb2. unfold set_parent. now rewrite Hempty.
Qed.

(** ** Function definitions *)


Lemma well_formed_empty : well_formed empty_common.
Proof. intros f bb Hf. inversion Hf. Qed.


(** * Further properties of the lowering *)

(** ** The symbol table *)

(** X1. [regist] never replaces a binding: on a name that is bound the
    table stays as it is; on a free name the new binding is what a lookup
    finds afterwards; the other names are not affected, and [exists] is
    true afterwards exactly for the name and for what was bound before. *)
Theorem regist_lookup
    (name x : string) (info : variable_info) (scope : symbol_table) :
  (scope !! name = None -> regist name info scope !! name = Some info)
  /\ (is_Some (scope !! name) -> regist name info scope = scope)
  /\ (x <> name -> regist name info scope !! x = scope !! x)
  /\ exists_ x (regist name info scope)
     = exists_ x scope || bool_decide (x = name).
Proof.
  unfold regist, exists_. repeat split.
  - intros ->. apply lookup_insert_eq.
  - intros [old ->]. reflexivity.
  - intros Hne. destruct (scope !! name); [reflexivity|].
    apply lookup_insert_ne. congruence.
  - destruct (decide (x = name)) as [->|Hne].
    + rewrite (bool_decide_eq_true_2 (name = name)) by reflexivity.
      rewrite orb_true_r. apply bool_decide_eq_true.
      destruct (scope !! name) eqn:Hname.
      * rewrite Hname. eauto.
      * rewrite lookup_insert_eq. eauto.
    + rewrite (bool_decide_eq_false_2 (x = name)) by exact Hne.
      rewrite orb_false_r. destruct (scope !! name); [reflexivity|].
      rewrite lookup_insert_ne by congruence. reflexivity.
Qed.

Lemma regist_lookup_witness :
  regist "y" binding_y (scope_mutable_x true) !! "y" = Some binding_y
  /\ regist "x" binding_y (scope_mutable_x true) = scope_mutable_x true
  /\ regist "y" binding_y (scope_mutable_x true) !! "x"
     = scope_mutable_x true !! "x".
Proof.
  split; [|split].
  - apply (proj1 (regist_lookup "y" "x" binding_y (scope_mutable_x true))).
    reflexivity.
  - apply (proj1 (proj2 (regist_lookup "x" "x" binding_y
                           (scope_mutable_x true)))).
    eexists. reflexivity.
  - apply (proj1 (proj2 (proj2 (regist_lookup "y" "x" binding_y
                                  (scope_mutable_x true))))).
    discriminate.
Defined.

(** ** Types *)

(** X2. Every kind resolves.  The pointer flag wraps the type the kind
    resolves to without it and keeps the signedness.  [bool] resolves to
    what [u8] resolves to, and a signed kind and the unsigned kind of the
    same width resolve to the same LLVM type: only the recorded signedness
    tells them apart. *)
Theorem typename_to_type_resolution (t : type_name) (p : bool) :
  (exists r, typename_to_type t false = Some r
             /\ typename_to_type t true
                = Some {| type := PointerTy (type r);
                          type_is_signed := type_is_signed r |}
             /\ type r <> PointerTy (type r))
  /\ typename_to_type bool_ p = typename_to_type u8 p
  /\ type <$> typename_to_type i8 p = type <$> typename_to_type u8 p
  /\ type <$> typename_to_type i16 p = type <$> typename_to_type u16 p
  /\ type <$> typename_to_type i32 p = type <$> typename_to_type u32 p
  /\ type <$> typename_to_type i64 p = type <$> typename_to_type u64 p.
Proof.
  split.
  - destruct t; eexists; (split; [reflexivity|split; [reflexivity|]]);
      discriminate.
  - destruct p; repeat split.
Qed.

(** ** Operators *)

(** Membership in a list that is written out. *)
Ltac in_list :=
  repeat first [apply list_elem_of_here | apply list_elem_of_further].

(** What the creation of a value instruction does: the instruction gets the
    next number and goes to the end of the insert block. *)
Lemma create_value_inv (mk : nat -> value) st v st' :
  (id <- fresh ;; Insert (Inst (mk id)) ;;; ret (mk id)) st = (Ok v, st') ->
  v = mk (next_id st)
  /\ next_id st' = S (next_id st)
  /\ module_functions st' = module_functions st
  /\ insert_block st' = insert_block st
  /\ exists cur b,
       insert_block st = Some cur /\ blocks st !! cur = Some b
       /\ blocks st' = alter (push_inst (Inst v)) cur (blocks st).
Proof.
  intros H. apply bind_Ok_inv in H as (id & st1 & Hid & H).
  injection Hid as <- <-.
  apply bind_Ok_inv in H as (u & st2 & Hins & H). injection H as <- <-.
  apply Insert_inv in Hins as (cur & Hcur & Hlt & ->).
  cbn [insert_block blocks] in *.
  destruct (lookup_lt_is_Some_2 _ _ Hlt) as [b Hb].
  repeat split. exists cur, b. repeat split; auto.
Qed.

Lemma last_inserted_create (mk : nat -> value) st v st' :
  (id <- fresh ;; Insert (Inst (mk id)) ;;; ret (mk id)) st = (Ok v, st') ->
  last_inserted st' = Some (Inst v).
Proof.
  intros H. apply create_value_inv in H
    as (_ & _ & _ & Hins & cur & b & Hcur & Hb & Hbs).
  unfold last_inserted. rewrite Hins, Hcur, Hbs. cbn [mbind option_bind].
  rewrite list_lookup_alter_eq, Hb. cbn. apply last_snoc.
Qed.



(** ** Emitting into the insert block *)

Lemma bind_ret {A B} (a : A) (f : A -> M B) st : bind (ret a) f st = f a st.
Proof. reflexivity. Qed.

Lemma bind_ext {A B} (m : M A) (f g : A -> M B) st :
  (forall a st1, f a st1 = g a st1) -> bind m f st = bind m g st.
Proof. intros H. unfold bind. destruct (m st) as [[a|e] st1]; auto. Qed.

Lemma bind_assoc {A B C} (m : M A) (f : A -> M B) (g : B -> M C) st :
  bind (bind m f) g st = bind m (fun a => bind (f a) g) st.
Proof. unfold bind. destruct (m st) as [[a|e] st1]; reflexivity. Qed.

Lemma emitted_nil st : emitted [] 0 st = st.
Proof.
  unfold emitted. destruct st as [fs bs ib n]. cbn. f_equal; [|lia].
  destruct ib as [cur|]; [|reflexivity].
  apply list_alter_id. intros [p l]. unfold append_insts. cbn.
  now rewrite app_nil_r.
Qed.

Lemma GetInsertBlock_emitted l k st cur :
  GetInsertBlock st = (Ok cur, st) ->
  GetInsertBlock (emitted l k st) = (Ok cur, emitted l k st).
Proof.
  intros H. apply GetInsertBlock_inv in H as (_ & Hcur & Hlt).
  unfold GetInsertBlock, bind, get, emitted. cbn. rewrite Hcur.
  rewrite length_alter.
  destruct (decide (cur < length (blocks st))); [reflexivity|contradiction].
Qed.

Lemma Insert_emitted i l k st cur :
  GetInsertBlock st = (Ok cur, st) ->
  Insert i (emitted l k st) = (Ok tt, emitted (l ++ [i]) k st).
Proof.
  intros H. unfold Insert.
  rewrite (bind_Ok _ _ _ _ _ (GetInsertBlock_emitted l k st cur H)).
  apply GetInsertBlock_inv in H as (_ & Hcur & Hlt).
  unfold modify, set_blocks, emitted. cbn. rewrite Hcur. do 2 f_equal.
  rewrite list_alter_alter_eq. apply list_alter_ext; [|reflexivity].
  intros [p insts] _. unfold push_inst, append_insts. cbn.
  now rewrite app_assoc.
Qed.

Lemma fresh_emitted l k st :
  fresh (emitted l k st) = (Ok (next_id st + k), emitted l (S k) st).
Proof.
  unfold fresh, emitted. cbn. do 3 f_equal. lia.
Qed.

Lemma create_value_emitted (mk : nat -> value) l k st cur :
  GetInsertBlock st = (Ok cur, st) ->
  (id <- fresh ;; Insert (Inst (mk id)) ;;; ret (mk id)) (emitted l k st)
  = (Ok (mk (next_id st + k)),
     emitted (l ++ [Inst (mk (next_id st + k))]) (S k) st).
Proof.
  intros H. rewrite (bind_Ok _ _ _ _ _ (fresh_emitted l k st)).
  rewrite (bind_Ok _ _ _ _ _ (Insert_emitted _ l (S k) st cur H)).
  reflexivity.
Qed.

Lemma last_inserted_emitted l i k st cur :
  GetInsertBlock st = (Ok cur, st) ->
  last_inserted (emitted (l ++ [i]) k st) = Some i.
Proof.
  intros H. apply GetInsertBlock_inv in H as (_ & Hcur & Hlt).
  unfold last_inserted, emitted. cbn. rewrite Hcur. cbn.
  rewrite list_lookup_alter_eq.
  destruct (lookup_lt_is_Some_2 _ _ Hlt) as [b ->]. cbn.
  rewrite app_assoc. apply last_snoc.
Qed.

Lemma CreateLoad_emitted ty ptr l k st cur :
  GetInsertBlock st = (Ok cur, st) ->
  CreateLoad ty ptr (emitted l k st)
  = (Ok (LoadInst (next_id st + k) ty ptr),
     emitted (l ++ [Inst (LoadInst (next_id st + k) ty ptr)]) (S k) st).
Proof. exact (create_value_emitted (fun id => LoadInst id ty ptr) l k st cur). Qed.

Lemma CreateBinOp_emitted op lhs rhs l k st cur :
  GetInsertBlock st = (Ok cur, st) ->
  CreateBinOp op lhs rhs (emitted l k st)
  = (Ok (BinaryOperator (next_id st + k) op lhs rhs),
     emitted (l ++ [Inst (BinaryOperator (next_id st + k) op lhs rhs)])
       (S k) st).
Proof.
  exact (create_value_emitted (fun id => BinaryOperator id op lhs rhs)
           l k st cur).
Qed.

Lemma CreateIntegerCast_emitted v ty signed l k st cur :
  GetInsertBlock st = (Ok cur, st) ->
  CreateIntegerCast v ty signed (emitted l k st)
  = (Ok (CastInst (next_id st + k) v ty signed),
     emitted (l ++ [Inst (CastInst (next_id st + k) v ty signed)]) (S k) st).
Proof.
  exact (create_value_emitted (fun id => CastInst id v ty signed) l k st cur).
Qed.

Lemma CreateCall_emitted callee args l k st cur :
  GetInsertBlock st = (Ok cur, st) ->
  CreateCall callee args (emitted l k st)
  = (Ok (CallInst (next_id st + k) (fn_name callee) args
           (fn_return_type callee)),
     emitted (l ++ [Inst (CallInst (next_id st + k) (fn_name callee) args
                            (fn_return_type callee))]) (S k) st).
Proof.
  exact (create_value_emitted
           (fun id => CallInst id (fn_name callee) args
                        (fn_return_type callee)) l k st cur).
Qed.

Lemma CreateStore_emitted v ptr l k st cur :
  GetInsertBlock st = (Ok cur, st) ->
  CreateStore v ptr (emitted l k st)
  = (Ok tt, emitted (l ++ [StoreInst v (AllocaInst ptr)]) k st).
Proof. apply Insert_emitted. Qed.

Lemma CreateBr_emitted dest l k st cur :
  GetInsertBlock st = (Ok cur, st) ->
  CreateBr dest (emitted l k st)
  = (Ok tt, emitted (l ++ [BranchInst dest]) k st).
Proof. apply Insert_emitted. Qed.

(** Run the next builder call of a goal on an [emitted] state. *)
Ltac emit_step Hcur :=
  first
    [ rewrite (bind_Ok _ _ _ _ _ (CreateLoad_emitted _ _ _ _ _ _ Hcur))
    | rewrite (bind_Ok _ _ _ _ _ (CreateBinOp_emitted _ _ _ _ _ _ _ Hcur))
    | rewrite (bind_Ok _ _ _ _ _ (CreateStore_emitted _ _ _ _ _ _ Hcur))
    | rewrite (bind_Ok _ _ _ _ _ (CreateBr_emitted _ _ _ _ _ Hcur))
    | rewrite (bind_Ok _ _ _ _ _
                 (CreateIntegerCast_emitted _ _ _ _ _ _ _ Hcur))
    | rewrite (bind_Ok _ _ _ _ _ (CreateCall_emitted _ _ _ _ _ _ Hcur)) ].

(** ** Unary operators *)



(** ** Assignment, continued *)

(** X5. An assignment that has a value has a mutable left-hand side, and
    its value is a load of the slot that is the last instruction emitted:
    the value read back, not the one computed.  With the right-hand side
    lowered to [r] and the builder in a block, [=] emits the store of [r]
    and two loads of the slot; a compound assignment emits a load of the
    slot, its operator on the loaded value and [r], the store of the result
    and a second load. *)
Theorem assignment_value
    (scope : symbol_table) (name op : string) (rhs : expression)
    (info : variable_info) (st st1 : codegen_common) (r : value) (cur : nat) :
  let slot := AllocaInst (inst info) in
  let ty := getAllocatedType (inst info) in
  let n := next_id st1 in
  scope !! name = Some info ->
  (forall v st',
     is_assignment op = true ->
     expression_visitor scope (bin_op_expr (variable_ref name) op rhs) st
     = (Ok v, st') ->
     is_mutable info = true
     /\ exists id,
          v = Some (LoadInst id ty slot)
          /\ last_inserted st' = Some (Inst (LoadInst id ty slot)))
  /\ (is_mutable info = true ->
      expression_visitor scope rhs st = (Ok (Some r), st1) ->
      GetInsertBlock st1 = (Ok cur, st1) ->
      expression_visitor scope (bin_op_expr (variable_ref name) "=" rhs) st
      = (Ok (Some (LoadInst (S n) ty slot)),
         emitted [StoreInst r slot; Inst (LoadInst n ty slot);
                  Inst (LoadInst (S n) ty slot)] 2 st1)
      /\ forall bop,
           compound_operator op (is_signed info) = Some bop ->
           expression_visitor scope (bin_op_expr (variable_ref name) op rhs) st
           = (Ok (Some (LoadInst (S (S n)) ty slot)),
              emitted [Inst (LoadInst n ty slot);
                       Inst (BinaryOperator (S n) bop (LoadInst n ty slot) r);
                       StoreInst
                         (BinaryOperator (S n) bop (LoadInst n ty slot) r) slot;
                       Inst (LoadInst (S (S n)) ty slot)] 3 st1)).
Proof.
  intros slot ty n Hscope. split.
  - intros v st' Hop H. cbn [expression_visitor] in H. rewrite Hop in H.
    apply bind_Ok_inv in H as (rv & st2 & _ & H). unfold assign in H.
    apply bind_Ok_inv in H as (r' & st3 & _ & H). rewrite Hscope in H.
    destruct (is_mutable info); [|discriminate]. cbn [negb] in H.
    split; [reflexivity|].
    do 7 (apply bind_Ok_inv in H as (? & ? & _ & H)).
    apply bind_Ok_inv in H as (v0 & st4 & Hload & H). injection H as <- <-.
    pose proof (last_inserted_create
                  (fun id => LoadInst id ty slot) _ _ _ Hload) as Hlast.
    apply (create_value_inv (fun id => LoadInst id ty slot)) in Hload
      as (-> & _).
    eexists. split; [reflexivity|exact Hlast].
  - intros Hmut Hrhs Hcur.
    assert (Hrun : forall op,
              is_assignment op = true ->
              expression_visitor scope
                (bin_op_expr (variable_ref name) op rhs) st
              = assign scope name op (Some r) (emitted [] 0 st1)).
    { intros op' Hop. cbn [expression_visitor]. rewrite Hop.
      rewrite (bind_Ok _ _ _ _ _ Hrhs), emitted_nil. reflexivity. }
    assert (Hn : forall k, next_id st1 + k = k + n) by (intros; unfold n; lia).
    split.
    + rewrite (Hrun "=" eq_refl). unfold assign. cbn [or_throw].
      unfold bind at 1. cbn [ret]. rewrite Hscope, Hmut. cbn [negb].
      eval_string_eqb. unfold when.
      repeat first [emit_step Hcur | rewrite bind_ret].
      rewrite !Hn. reflexivity.
    + intros bop Hbop. unfold compound_operator in Hbop.
      repeat match type of Hbop with
             | context [String.eqb op ?s] =>
                 destruct (String.eqb_spec op s) as [->|?]
             end; try discriminate; injection Hbop as <-;
        (rewrite Hrun by reflexivity; unfold assign; cbn [or_throw];
         unfold bind at 1; cbn [ret]; rewrite Hscope, Hmut; cbn [negb];
         eval_string_eqb; unfold when;
         repeat first [ emit_step Hcur | rewrite bind_ret
                      | rewrite bind_assoc ];
         try (destruct (is_signed info);
              repeat first [ emit_step Hcur | rewrite bind_ret
                           | rewrite bind_assoc ]);
         rewrite !Hn; reflexivity).
Qed.

Lemma assignment_value_witness :
  expression_visitor (scope_mutable_x false)
    (bin_op_expr (variable_ref "x") "=" (int_literal 2)) declared_f
  = (Ok (Some (LoadInst 1 (IntegerTy 32) (AllocaInst slot_x))),
     emitted [StoreInst (ConstantInt (IntegerTy 32) 2) (AllocaInst slot_x);
              Inst (LoadInst 0 (IntegerTy 32) (AllocaInst slot_x));
              Inst (LoadInst 1 (IntegerTy 32) (AllocaInst slot_x))]
       2 declared_f)
  /\ fst (expression_visitor (scope_mutable_x false)
            (bin_op_expr (variable_ref "x") "%=" (int_literal 2)) declared_f)
     = Ok (Some (LoadInst 2 (IntegerTy 32) (AllocaInst slot_x))).
Proof.
  destruct (assignment_value (scope_mutable_x false) "x" "%=" (int_literal 2)
              {| inst := slot_x; is_mutable := true; is_signed := false |}
              declared_f declared_f (ConstantInt (IntegerTy 32) 2) 0
              eq_refl) as [_ Hforward].
  destruct (Hforward eq_refl eq_refl eq_refl) as [Hplain Hcompound].
  split; [exact Hplain|]. rewrite (Hcompound URem eq_refl). reflexivity.
Defined.

(** ** Calls, continued *)

Lemma verify_arguments_state callee args_value callee_args idx st :
  snd (verify_arguments callee args_value callee_args idx st) = st.
Proof.
  revert idx. induction callee_args as [|arg rest IH]; intros idx;
    cbn [verify_arguments]; [reflexivity|].
  destruct (args_value !! idx) as [v|]; [|reflexivity].
  destruct (decide (getType v = arg)); [apply IH|reflexivity].
Qed.

Lemma verify_arguments_from callee args_value callee_args idx st :
  verify_arguments callee args_value callee_args idx st = (Ok tt, st)
  <-> forall i p,
        callee_args !! i = Some p ->
        exists v, args_value !! (idx + i) = Some v /\ getType v = p.
Proof.
  revert idx. induction callee_args as [|arg rest IH]; intros idx;
    cbn [verify_arguments].
  - split; [|reflexivity]. intros _ i p Hp. rewrite lookup_nil in Hp.
    discriminate.
  - split.
    + intros H i p Hp.
      destruct (args_value !! idx) as [v|] eqn:Hv; [|discriminate].
      destruct (decide (getType v = arg)) as [Hty|]; [|discriminate].
      destruct i as [|i].
      * injection Hp as <-. rewrite Nat.add_0_r. eauto.
      * replace (idx + S i) with (S idx + i) by lia.
        exact (proj1 (IH (S idx)) H i p Hp).
    + intros H. destruct (H 0 arg eq_refl) as (v & Hv & Hty).
      rewrite Nat.add_0_r in Hv. rewrite Hv.
      destruct (decide (getType v = arg)); [|contradiction].
      apply IH. intros i p Hp.
      replace (S idx + i) with (idx + S i) by lia. exact (H (S i) p Hp).
Qed.

(** X6. The argument check accepts exactly when every parameter of the
    callee has an argument of its type at its position; arguments beyond
    the parameters are not looked at.  It never changes the builder
    state. *)
Theorem verify_arguments_accepts
    (callee : string) (args_value : list value) (callee_args : list llvm_type)
    (st : codegen_common) :
  (verify_arguments callee args_value callee_args 0 st = (Ok tt, st)
   <-> forall i p,
         callee_args !! i = Some p ->
         exists v, args_value !! i = Some v /\ getType v = p)
  /\ snd (verify_arguments callee args_value callee_args 0 st) = st.
Proof.
  split; [|apply verify_arguments_state].
  exact (verify_arguments_from callee args_value callee_args 0 st).
Qed.

Lemma verify_arguments_accepts_witness :
  verify_arguments "f"
    [ConstantInt (IntegerTy 32) 1; ConstantInt (IntegerTy 8) 2]
    [IntegerTy 32] 0 declared_f
  = (Ok tt, declared_f).
Proof.
  apply (proj1 (verify_arguments_accepts "f"
                  [ConstantInt (IntegerTy 32) 1; ConstantInt (IntegerTy 8) 2]
                  [IntegerTy 32] declared_f)).
  intros [|i] p Hp; [|destruct i; discriminate].
  injection Hp as <-. eexists. split; reflexivity.
Defined.

Lemma verify_arguments_out_of_range callee args_value callee_args idx st :
  idx <= length args_value ->
  length args_value < idx + length callee_args ->
  (forall i v,
     args_value !! (idx + i) = Some v ->
     callee_args !! i = Some (getType v)) ->
  verify_arguments callee args_value callee_args idx st
  = (Throw (undefined_behaviour "args_value[idx]"), st).
Proof.
  revert idx.
  induction callee_args as [|arg rest IH]; intros idx Hidx Hlen Hpre;
    cbn [verify_arguments].
  - cbn in Hlen. lia.
  - destruct (args_value !! idx) as [v|] eqn:Hv; [|reflexivity].
    pose proof (Hpre 0 v) as H0. rewrite Nat.add_0_r in H0.
    specialize (H0 Hv). injection H0 as ->.
    destruct (decide (getType v = getType v)); [|contradiction].
    apply lookup_lt_Some in Hv.
    apply IH.
    + lia.
    + cbn in Hlen. lia.
    + intros i v' Hv'. apply (Hpre (S i) v').
      replace (idx + S i) with (S idx + i) by lia. exact Hv'.
Qed.

Lemma lower_arguments_app visit callee pre post args_value st :
  lower_arguments visit callee (pre ++ post) args_value st
  = (vs <- lower_arguments visit callee pre args_value ;;
     lower_arguments visit callee post vs) st.
Proof.
  revert args_value st. induction pre as [|a pre IH]; intros args_value st;
    [reflexivity|].
  cbn [app lower_arguments]. rewrite bind_assoc. apply bind_ext.
  intros [v|] st1; [apply IH | reflexivity].
Qed.

Lemma lower_arguments_length visit callee args args_value st vs st' :
  lower_arguments visit callee args args_value st = (Ok vs, st') ->
  length vs = length args_value + length args.
Proof.
  revert args_value st. induction args as [|a args IH]; intros args_value st;
    cbn [lower_arguments].
  - intros H. injection H as <- _. cbn. lia.
  - intros H. apply bind_Ok_inv in H as ([v|] & st1 & _ & H); [|discriminate].
    apply IH in H. rewrite length_app in H. cbn in *. lia.
Qed.

Lemma call_after_count_check scope callee args st func f :
  getFunction callee st = (Ok (Some (func, f)), st) ->
  fn_is_vararg f = true \/ length (fn_params f) = length args ->
  expression_visitor scope (function_call_expr callee args) st
  = (args_value <-
       lower_arguments (expression_visitor scope) callee args [] ;;
     verify_arguments callee args_value (fn_params f) 0 ;;;
     v <- CreateCall f args_value ;;
     ret (Some v)) st.
Proof.
  intros Hget Hcount. cbn [expression_visitor].
  rewrite (bind_Ok _ _ _ _ _ Hget).
  destruct Hcount as [-> | ->]; [reflexivity|].
  rewrite Nat.eqb_refl. cbn [negb]. rewrite andb_false_r. reflexivity.
Qed.

(** X7. The arguments of a call are lowered first to last.  When one of
    them throws, or has no value, the call throws there and then: the
    arguments behind it are not lowered.  When all have a value and the
    check of their types accepts, the call emits one call instruction on
    those values, in their order, and its value has the return type of the
    callee. *)
Theorem call_lowering
    (scope : symbol_table) (callee : string) (args : list expression)
    (st : codegen_common) (func : nat) (f : llvm_function) :
  getFunction callee st = (Ok (Some (func, f)), st) ->
  fn_is_vararg f = true \/ length (fn_params f) = length args ->
  (forall pre a post vs st1 e st2,
     args = pre ++ a :: post ->
     lower_arguments (expression_visitor scope) callee pre [] st
     = (Ok vs, st1) ->
     (expression_visitor scope a st1 = (Throw e, st2) ->
      expression_visitor scope (function_call_expr callee args) st
      = (Throw e, st2))
     /\ (expression_visitor scope a st1 = (Ok None, st2) ->
         expression_visitor scope (function_call_expr callee args) st
         = (Throw (runtime_error
                     ("argument set failed in call to the function '"
                      +:+ callee +:+ "'")), st2)))
  /\ (forall vs st1 cur,
        lower_arguments (expression_visitor scope) callee args [] st
        = (Ok vs, st1) ->
        (forall i p,
           fn_params f !! i = Some p ->
           exists v, vs !! i = Some v /\ getType v = p) ->
        GetInsertBlock st1 = (Ok cur, st1) ->
        length vs = length args
        /\ expression_visitor scope (function_call_expr callee args) st
           = (Ok (Some (CallInst (next_id st1) (fn_name f) vs
                          (fn_return_type f))),
              emitted [Inst (CallInst (next_id st1) (fn_name f) vs
                               (fn_return_type f))] 1 st1)).
Proof.
  intros Hget Hcount.
  rewrite (call_after_count_check scope callee args st func f Hget Hcount).
  split.
  - intros pre a post vs st1 e st2 -> Hpre.
    split; intros Ha; unfold bind at 1; rewrite lower_arguments_app;
      rewrite (bind_Ok _ _ _ _ _ Hpre); cbn [lower_arguments];
      unfold bind at 1; rewrite Ha; reflexivity.
  - intros vs st1 cur Hargs Htypes Hcur. split.
    + apply lower_arguments_length in Hargs. exact Hargs.
    + rewrite (bind_Ok _ _ _ _ _ Hargs).
      rewrite (bind_Ok _ _ _ _ _
                 (proj2 (verify_arguments_from callee vs (fn_params f) 0
                           st1) Htypes)).
      rewrite <- (emitted_nil st1) at 1. emit_step Hcur.
      rewrite Nat.add_0_r. reflexivity.
Qed.

(** X8. The count of the arguments is not compared for a variadic
    callee.  When such a call passes fewer arguments than the callee has
    named parameters, the check of the types, which runs over the
    parameters, indexes the vector of the argument values past its end. *)
Theorem variadic_call_too_few_arguments
    (scope : symbol_table) (callee : string) (args : list expression)
    (st st1 : codegen_common) (func : nat) (f : llvm_function)
    (vs : list value) :
  getFunction callee st = (Ok (Some (func, f)), st) ->
  fn_is_vararg f = true ->
  length args < length (fn_params f) ->
  lower_arguments (expression_visitor scope) callee args [] st
  = (Ok vs, st1) ->
  (forall i v, vs !! i = Some v -> fn_params f !! i = Some (getType v)) ->
  expression_visitor scope (function_call_expr callee args) st
  = (Throw (undefined_behaviour "args_value[idx]"), st1).
Proof.
  intros Hget Hvar Hlen Hargs Htypes.
  rewrite (call_after_count_check scope callee args st func f Hget
             (or_introl Hvar)).
  rewrite (bind_Ok _ _ _ _ _ Hargs).
  apply lower_arguments_length in Hargs. cbn in Hargs.
  rewrite (bind_Throw _ _ _ _ _
             (verify_arguments_out_of_range callee vs (fn_params f) 0 st1
                ltac:(lia) ltac:(lia) Htypes)).
  reflexivity.
Qed.

Lemma call_lowering_witness :
  expression_visitor ∅ (function_call_expr "f" [variable_ref "y"]) declared_f
  = (Throw (runtime_error "unknown variable 'y' referenced"), declared_f)
  /\ expression_visitor ∅ (function_call_expr "f" [int_literal 5]) declared_f
     = (Ok (Some (CallInst 0 "f" [ConstantInt (IntegerTy 32) 5]
                    (IntegerTy 32))),
        emitted [Inst (CallInst 0 "f" [ConstantInt (IntegerTy 32) 5]
                         (IntegerTy 32))] 1 declared_f).
Proof.
  split.
  - destruct (call_lowering ∅ "f" [variable_ref "y"] declared_f 0 function_f
                eq_refl (or_intror eq_refl)) as [Herror _].
    apply (proj1 (Herror [] (variable_ref "y") [] [] declared_f
                    (runtime_error "unknown variable 'y' referenced")
                    declared_f eq_refl eq_refl)).
    reflexivity.
  - destruct (call_lowering ∅ "f" [int_literal 5] declared_f 0 function_f
                eq_refl (or_intror eq_refl)) as [_ Hok].
    apply (Hok [ConstantInt (IntegerTy 32) 5] declared_f 0 eq_refl).
    + intros [|i] p Hp; [|destruct i; discriminate].
      injection Hp as <-. eexists. split; reflexivity.
    + reflexivity.
Defined.

Lemma variadic_call_too_few_arguments_witness :
  expression_visitor ∅ (function_call_expr "printf" []) declared_printf
  = (Throw (undefined_behaviour "args_value[idx]"), declared_printf).
Proof.
  apply (variadic_call_too_few_arguments ∅ "printf" [] declared_printf
           declared_printf 0 function_printf []).
  - reflexivity.
  - reflexivity.
  - cbn. lia.
  - reflexivity.
  - intros i v Hv. rewrite lookup_nil in Hv. discriminate.
Defined.

(** ** Conversions, addresses and indirection *)



(** X10. The address of a variable is its slot: the variable is lowered
    as a load, which stays in the block, and the address operand of that
    load is the value.  Indirection through that address loads the slot
    with the type of the variable.  The address of a value that is not a
    load is a null pointer: as a statement it throws "failed to generate
    expression statement". *)
Theorem address_of_lowering
    (scope : symbol_table) (name : string) (info : variable_info)
    (lhs : expression) (v : value) (st st1 : codegen_common) (cur : nat)
    (retvar : option alloca) (end_bb : nat) (break_bb continue_bb : option nat) :
  let slot := AllocaInst (inst info) in
  let ty := getAllocatedType (inst info) in
  (scope !! name = Some info ->
   GetInsertBlock st = (Ok cur, st) ->
   expression_visitor scope (addr_of_expr (variable_ref name)) st
   = (Ok (Some slot), emitted [Inst (LoadInst (next_id st) ty slot)] 1 st)
   /\ expression_visitor scope
        (indirection_expr (addr_of_expr (variable_ref name))) st
      = (Ok (Some (LoadInst (S (next_id st)) ty slot)),
         emitted [Inst (LoadInst (next_id st) ty slot);
                  Inst (LoadInst (S (next_id st)) ty slot)] 2 st))
  /\ (expression_visitor scope lhs st = (Ok (Some v), st1) ->
      (forall id ty ptr, v <> LoadInst id ty ptr) ->
      expression_visitor scope (addr_of_expr lhs) st = (Ok None, st1)
      /\ statement_visitor retvar end_bb break_bb continue_bb
           (expression_statement (addr_of_expr lhs)) scope st
         = (Throw (runtime_error "failed to generate expression statement"),
            st1)).
Proof.
  intros slot ty. split.
  - intros Hscope Hcur.
    assert (Haddr :
      expression_visitor scope (addr_of_expr (variable_ref name)) st
      = (Ok (Some slot), emitted [Inst (LoadInst (next_id st) ty slot)] 1 st)).
    { cbn [expression_visitor]. rewrite Hscope.
      rewrite <- (emitted_nil st) at 1. rewrite bind_assoc.
      emit_step Hcur. rewrite Nat.add_0_r. reflexivity. }
    split; [exact Haddr|].
    change (expression_visitor scope
              (indirection_expr (addr_of_expr (variable_ref name))) st)
      with ((lhs <- expression_visitor scope
                      (addr_of_expr (variable_ref name)) ;;
             lhs <- or_throw lhs "failed to generate right-hand side" ;;
             match getType lhs with
             | PointerTy element =>
                 v <- CreateLoad element lhs ;; ret (Some v)
             | _ => throw (runtime_error "unary '*' requires pointer operand")
             end) st).
    rewrite (bind_Ok _ _ _ _ _ Haddr). cbn [or_throw]. rewrite bind_ret.
    cbn [getType slot]. emit_step Hcur.
    replace (next_id st + 1) with (S (next_id st)) by lia. reflexivity.
  - intros Hlhs Hnot.
    assert (Haddr : expression_visitor scope (addr_of_expr lhs) st
                    = (Ok None, st1)).
    { cbn [expression_visitor]. rewrite (bind_Ok _ _ _ _ _ Hlhs).
      cbn [or_throw]. rewrite bind_ret.
      destruct v as [| | | | |load_id load_ty load_ptr| | | |];
        try reflexivity.
      now destruct (Hnot load_id load_ty load_ptr). }
    split; [exact Haddr|].
    cbn [statement_visitor]. rewrite (bind_Ok _ _ _ _ _ Haddr). reflexivity.
Qed.

Lemma address_of_lowering_witness :
  expression_visitor (scope_mutable_x true)
    (indirection_expr (addr_of_expr (variable_ref "x"))) declared_f
  = (Ok (Some (LoadInst 1 (IntegerTy 32) (AllocaInst slot_x))),
     emitted [Inst (LoadInst 0 (IntegerTy 32) (AllocaInst slot_x));
              Inst (LoadInst 1 (IntegerTy 32) (AllocaInst slot_x))]
       2 declared_f)
  /\ statement_visitor None 1 None None
       (expression_statement (addr_of_expr (int_literal 1))) ∅ declared_f
     = (Throw (runtime_error "failed to generate expression statement"),
        declared_f).
Proof.
  split.
  - apply (proj1 (address_of_lowering (scope_mutable_x true) "x" binding_x
                    (int_literal 1) (ConstantInt (IntegerTy 32) 1)
                    declared_f declared_f 0 None 1 None None));
      reflexivity.
  - apply (proj2 (address_of_lowering ∅ "x" binding_x
                    (int_literal 1) (ConstantInt (IntegerTy 32) 1)
                    declared_f declared_f 0 None 1 None None)).
    + reflexivity.
    + discriminate.
Defined.

(** X11. Once the operand has lowered to [v]: indirection through a
    pointer emits one load of the pointee type through [v]; on a value
    that is not a pointer it throws "unary '*' requires pointer operand",
    with whatever the operand emitted left in the block. *)
Theorem indirection_lowering
    (scope : symbol_table) (lhs : expression) (v : value)
    (st st1 : codegen_common) (cur : nat) :
  expression_visitor scope lhs st = (Ok (Some v), st1) ->
  (forall element,
     getType v = PointerTy element ->
     GetInsertBlock st1 = (Ok cur, st1) ->
     expression_visitor scope (indirection_expr lhs) st
     = (Ok (Some (LoadInst (next_id st1) element v)),
        emitted [Inst (LoadInst (next_id st1) element v)] 1 st1))
  /\ ((forall element, getType v <> PointerTy element) ->
      expression_visitor scope (indirection_expr lhs) st
      = (Throw (runtime_error "unary '*' requires pointer operand"), st1)).
Proof.
  intros Hlhs. split.
  - intros element Hty Hcur. cbn [expression_visitor].
    rewrite (bind_Ok _ _ _ _ _ Hlhs). cbn [or_throw]. rewrite bind_ret, Hty.
    rewrite <- (emitted_nil st1) at 1. emit_step Hcur.
    rewrite Nat.add_0_r. reflexivity.
  - intros Hty. cbn [expression_visitor].
    rewrite (bind_Ok _ _ _ _ _ Hlhs). cbn [or_throw]. rewrite bind_ret.
    destruct (getType v) eqn:Hv; try reflexivity. now destruct (Hty l).
Qed.

Lemma indirection_lowering_witness :
  expression_visitor ∅ (indirection_expr (string_literal "s")) declared_f
  = (Ok (Some (LoadInst 0 (IntegerTy 8) (GlobalStringPtr "s"))),
     emitted [Inst (LoadInst 0 (IntegerTy 8) (GlobalStringPtr "s"))] 1
       declared_f)
  /\ fst (expression_visitor (scope_mutable_x true)
            (indirection_expr (variable_ref "x")) declared_f)
     = Throw (runtime_error "unary '*' requires pointer operand").
Proof.
  split.
  - apply (proj1 (indirection_lowering ∅ (string_literal "s")
                    (GlobalStringPtr "s") declared_f declared_f 0 eq_refl)
             (IntegerTy 8)); reflexivity.
  - rewrite (proj2 (indirection_lowering (scope_mutable_x true)
                      (variable_ref "x")
                      (LoadInst 0 (IntegerTy 32) (AllocaInst slot_x))
                      declared_f _ 0 eq_refl));
      [reflexivity | discriminate].
Defined.

(** ** Definitions of variables and parameters *)



Lemma lower_parameters_bindings func node_params args arg_no argument_values
    st scope st' :
  lower_parameters func node_params args arg_no argument_values st
  = (Ok scope, st') ->
  forall x info,
    scope !! x = Some info ->
    argument_values !! x = Some info
    \/ exists k ty p resolved,
         args !! k = Some (ty, x)
         /\ node_params !! (arg_no + k) = Some p
         /\ typename_to_type (id (param_type p)) (is_ptr (param_type p))
            = Some resolved
         /\ getAllocatedType (inst info) = type resolved
         /\ is_signed info = false
         /\ (is_mutable info = true <-> param_qualifier p = Some mutable_).
Proof.
  revert arg_no argument_values st.
  induction args as [|[arg_ty arg_name] rest IH];
    intros arg_no argument_values st; cbn [lower_parameters].
  - intros H x info Hx. injection H as <- _. now left.
  - intros H x info Hx. apply bind_Ok_inv in H as (p & st1 & Hp & H).
    unfold or_undefined in Hp.
    destruct (node_params !! arg_no) as [p0|] eqn:Hnode; [|discriminate].
    injection Hp as <- <-.
    destruct (typename_to_type (id (param_type p0)) (is_ptr (param_type p0)))
      as [resolved|] eqn:Hresolved; [|discriminate].
    apply bind_Ok_inv in H as (a & st2 & Ha & H).
    apply create_entry_block_alloca_inv in Ha as (_ & _ & _ & _ & -> & _).
    apply bind_Ok_inv in H as (u & st3 & _ & H).
    destruct (IH _ _ _ H x info Hx)
      as [Hold | (k & ty & p & r & Hk & Hp & Hr & Hty & Hs & Hm)].
    + assert (Hcase :
        argument_values !! x = Some info
        \/ (x = arg_name
            /\ getAllocatedType (inst info) = type resolved
            /\ is_signed info = false
            /\ (is_mutable info = true
                <-> param_qualifier p0 = Some mutable_))).
      { destruct (param_qualifier p0) as [[]|]; unfold regist in Hold;
          (destruct (argument_values !! arg_name) eqn:Hname;
           [now left|]);
          (destruct (decide (x = arg_name)) as [->|Hne];
           [rewrite lookup_insert_eq in Hold; injection Hold as <-;
            right; cbn; repeat split; auto; discriminate
           |rewrite lookup_insert_ne in Hold by congruence; now left]). }
      destruct Hcase as [Hcase | (-> & Hty & Hs & Hm)]; [now left|].
      right. exists 0, arg_ty, p0, resolved. rewrite Nat.add_0_r.
      repeat split; auto; apply Hm.
    + right. exists (S k), ty, p, r.
      replace (arg_no + S k) with (S arg_no + k) by lia.
      repeat split; auto; apply Hm.
Qed.

(** X13. The scope a function body starts with holds parameters only, each
    under the name the argument has in the function object: the name of
    the first declaration when there was one, whatever the definition
    calls it.  The binding at position [k] has a slot of the type the
    definition gives its [k]-th parameter, is mutable exactly when that
    parameter is qualified [mutable], and is recorded as unsigned whatever
    its type is. *)
Theorem parameter_bindings
    (node : function_define) (st st' : codegen_common) (func : nat)
    (scope : symbol_table) :
  define_entry node st = (Ok (func, scope), st') ->
  exists f,
    module_functions st' !! func = Some f
    /\ forall x info,
         scope !! x = Some info ->
         exists k p resolved,
           fn_arg_names f !! k = Some x
           /\ params (decl node) !! k = Some p
           /\ typename_to_type (id (param_type p)) (is_ptr (param_type p))
              = Some resolved
           /\ getAllocatedType (inst info) = type resolved
           /\ is_signed info = false
           /\ (is_mutable info = true <-> param_qualifier p = Some mutable_).
Proof.
  intros H. unfold define_entry in H.
  apply bind_Ok_inv in H as (found & st0 & _ & H).
  apply bind_Ok_inv in H as (func' & st1 & _ & H).
  apply bind_Ok_inv in H as (entry & st2 & _ & H).
  apply bind_Ok_inv in H as (u & st3 & Hset & H). injection Hset as _ <-.
  apply bind_Ok_inv in H as (f & st4 & Hf & H).
  unfold function_at, bind, get in Hf. cbn [module_functions] in Hf.
  destruct (module_functions st2 !! func') as [f'|] eqn:Hlookup;
    [|discriminate].
  injection Hf as <- <-.
  apply bind_Ok_inv in H as (scope0 & st5 & Hparams & H).
  injection H as <- <- <-.
  exists f'. split.
  - apply lower_parameters_frame in Hparams as (Hfs & _). rewrite Hfs.
    exact Hlookup.
  - intros x info Hx.
    destruct (lower_parameters_bindings _ _ _ _ _ _ _ _ Hparams x info Hx)
      as [Hempty | (k & ty & p & r & Hk & Hp & Hr & Hty & Hs & Hm)].
    + rewrite lookup_empty in Hempty. discriminate.
    + exists k, p, r. unfold zip in Hk.
      apply lookup_zip_with_Some in Hk as (a & b & Heq & _ & Hb).
      injection Heq as -> ->. repeat split; auto; apply Hm.
Qed.

Lemma parameter_bindings_witness :
  exists info,
    match fst (define_entry define_id empty_common) with
    | Ok (_, scope) => scope !! "x" = Some info
    | Throw _ => False
    end
    /\ getAllocatedType (inst info) = IntegerTy 32
    /\ is_signed info = false /\ is_mutable info = true.
Proof.
  destruct (define_entry define_id empty_common) as [[[func scope]|e] st']
    eqn:Hrun; [|vm_compute in Hrun; discriminate].
  cbn [fst].
  destruct (scope !! "x") as [info|] eqn:Hx.
  - exists info. split; [reflexivity|].
    destruct (parameter_bindings define_id empty_common st' func scope Hrun)
      as (f & _ & Hscope).
    destruct (Hscope "x" info Hx)
      as (k & p & r & _ & Hp & Hr & Hty & Hs & Hm).
    destruct k as [|[|k]]; try discriminate.
    injection Hp as <-. injection Hr as <-.
    repeat split; [exact Hty | exact Hs | now apply Hm].
  - vm_compute in Hrun. injection Hrun as <- <- <-. vm_compute in Hx.
    discriminate.
Defined.

(** ** Return statements *)

Lemma current_function_run st cur func :
  GetInsertBlock st = (Ok cur, st) ->
  getParent cur st = (Ok func, st) ->
  current_function st = (Ok func, st).
Proof.
  intros Hcur Hparent. unfold current_function.
  rewrite (bind_Ok _ _ _ _ _ Hcur). exact Hparent.
Qed.

(** X14. A [return] with an operand, once the operand is lowered in a block
    of a function [f]: a value of the return type of [f] is stored to the
    return slot and the block branches to the exit block; a value of another
    type throws "incompatible type for result type".  An operand without a
    value is dereferenced for its type before it is checked, so "failed to
    generate return value" is never thrown; so is the missing return slot of
    a function that returns void.  A bare [return] emits the branch to the
    exit block alone.  None of them changes the scope. *)
Theorem return_lowering
    (retvar : option alloca) (end_bb : nat) (break_bb continue_bb : option nat)
    (scope : symbol_table) (rhs : expression) (retval : option value)
    (st st1 : codegen_common) (cur func : nat) (f : llvm_function) :
  (GetInsertBlock st = (Ok cur, st) ->
   statement_visitor retvar end_bb break_bb continue_bb
     (return_statement None) scope st
   = (Ok scope, emitted [BranchInst end_bb] 0 st))
  /\ (expression_visitor scope rhs st = (Ok retval, st1) ->
      GetInsertBlock st1 = (Ok cur, st1) ->
      getParent cur st1 = (Ok func, st1) ->
      function_at func st1 = (Ok f, st1) ->
      statement_visitor retvar end_bb break_bb continue_bb
        (return_statement (Some rhs)) scope st
      = match retval with
        | None => (Throw (undefined_behaviour "retval->getType()"), st1)
        | Some v =>
            if decide (fn_return_type f = getType v) then
              match retvar with
              | Some slot =>
                  (Ok scope,
                   emitted [StoreInst v (AllocaInst slot); BranchInst end_bb]
                     0 st1)
              | None => (Throw (undefined_behaviour "CreateStore"), st1)
              end
            else
              (Throw (runtime_error "incompatible type for result type"),
               st1)
        end).
Proof.
  split.
  - intros Hcur. cbn [statement_visitor]. rewrite bind_ret.
    rewrite <- (emitted_nil st) at 1. emit_step Hcur. reflexivity.
  - intros Hrhs Hcur Hparent Hf. cbn [statement_visitor].
    rewrite bind_assoc. rewrite (bind_Ok _ _ _ _ _ Hrhs).
    rewrite bind_assoc.
    rewrite (bind_Ok _ _ _ _ _ (current_function_run _ _ _ Hcur Hparent)).
    rewrite bind_assoc. rewrite (bind_Ok _ _ _ _ _ Hf).
    destruct retval as [v|]; [|reflexivity].
    destruct (decide (fn_return_type f = getType v)); [|reflexivity].
    destruct retvar as [slot|]; [|reflexivity].
    rewrite <- (emitted_nil st1) at 1. emit_step Hcur. emit_step Hcur.
    reflexivity.
Qed.

Lemma return_lowering_witness :
  statement_visitor (Some slot_x) 1 None None
    (return_statement (Some (int_literal 7))) ∅ inside_main
  = (Ok ∅,
     emitted [StoreInst (ConstantInt (IntegerTy 32) 7) (AllocaInst slot_x);
              BranchInst 1] 0 inside_main)
  /\ statement_visitor (Some slot_x) 1 None None
       (return_statement (Some (addr_of_expr (int_literal 7)))) ∅ inside_main
     = (Throw (undefined_behaviour "retval->getType()"), inside_main).
Proof.
  split.
  - apply (proj2 (return_lowering (Some slot_x) 1 None None ∅
                    (int_literal 7) (Some (ConstantInt (IntegerTy 32) 7))
                    inside_main inside_main 0 0
                    {| fn_name := "main"; fn_return_type := IntegerTy 32;
                       fn_params := []; fn_is_vararg := false;
                       fn_linkage := ExternalLinkage; fn_arg_names := [];
                       fn_blocks := [0] |}));
      reflexivity.
  - apply (proj2 (return_lowering (Some slot_x) 1 None None ∅
                    (addr_of_expr (int_literal 7)) None
                    inside_main inside_main 0 0
                    {| fn_name := "main"; fn_return_type := IntegerTy 32;
                       fn_params := []; fn_is_vararg := false;
                       fn_linkage := ExternalLinkage; fn_arg_names := [];
                       fn_blocks := [0] |}));
      reflexivity.
Defined.

(** ** Expressions only append to the insert block *)

Lemma emitted_emitted l1 k1 l2 k2 st :
  emitted l2 k2 (emitted l1 k1 st) = emitted (l1 ++ l2) (k1 + k2) st.
Proof.
  unfold emitted. cbn. f_equal; [|lia].
  destruct (insert_block st) as [cur|]; [|reflexivity].
  rewrite list_alter_alter_eq. apply list_alter_ext; [|reflexivity].
  intros [p insts] _. unfold append_insts. cbn. now rewrite app_assoc.
Qed.

Lemma only_appends_ret {A} (a : A) : only_appends (ret a).
Proof. intros st. exists [], 0. cbn. now rewrite emitted_nil. Qed.

Lemma only_appends_throw {A} e : only_appends (@throw A e).
Proof. intros st. exists [], 0. cbn. now rewrite emitted_nil. Qed.

Lemma only_appends_bind {A B} (m : M A) (f : A -> M B) :
  only_appends m -> (forall a, only_appends (f a)) ->
  only_appends (bind m f).
Proof.
  intros Hm Hf st. unfold bind. destruct (Hm st) as (l1 & k1 & H1).
  destruct (m st) as [[a|e] st1]; cbn [snd] in H1; subst st1.
  - destruct (Hf a (emitted l1 k1 st)) as (l2 & k2 & H2).
    exists (l1 ++ l2), (k1 + k2). rewrite H2. apply emitted_emitted.
  - exists l1, k1. reflexivity.
Qed.

Lemma only_appends_readonly {A} (m : M A) :
  (forall st, snd (m st) = st) -> only_appends m.
Proof. intros H st. exists [], 0. now rewrite H, emitted_nil. Qed.

Lemma only_appends_fresh : only_appends fresh.
Proof.
  intros st. exists [], 1. rewrite <- (emitted_nil st) at 1.
  now rewrite fresh_emitted.
Qed.

Lemma GetInsertBlock_readonly st : snd (GetInsertBlock st) = st.
Proof.
  unfold GetInsertBlock, bind, get. destruct (insert_block st); [|reflexivity].
  now destruct (decide _).
Qed.

Lemma only_appends_GetInsertBlock : only_appends GetInsertBlock.
Proof. apply only_appends_readonly, GetInsertBlock_readonly. Qed.

Lemma only_appends_Insert i : only_appends (Insert i).
Proof.
  intros st. destruct (GetInsertBlock st) as [[cur|e] st1] eqn:Hcur.
  - pose proof (GetInsertBlock_readonly st) as Hst. rewrite Hcur in Hst.
    cbn in Hst. subst st1. exists [i], 0.
    rewrite <- (emitted_nil st) at 1.
    now rewrite (Insert_emitted i [] 0 st cur Hcur).
  - exists [], 0. unfold Insert. rewrite (bind_Throw _ _ _ _ _ Hcur).
    pose proof (GetInsertBlock_readonly st) as Hst. rewrite Hcur in Hst.
    cbn in *. now rewrite Hst, emitted_nil.
Qed.

Lemma only_appends_getFunction name : only_appends (getFunction name).
Proof. now apply only_appends_readonly. Qed.

Create HintDb appends.

#[local] Hint Resolve only_appends_fresh only_appends_GetInsertBlock
  only_appends_Insert only_appends_getFunction : appends.

(** One step through a computation that only appends. *)
Ltac appends_step :=
  lazymatch goal with
  | |- only_appends (bind _ _) => apply only_appends_bind; [|intros ?]
  | |- only_appends (ret _) => apply only_appends_ret
  | |- only_appends (throw _) => apply only_appends_throw
  | |- only_appends (when _ _) => unfold when
  | |- only_appends (match ?x with _ => _ end) => destruct x
  | |- only_appends _ => solve [eauto with appends]
  end.

Ltac appends := repeat appends_step.

Lemma only_appends_CreateStore v ptr : only_appends (CreateStore v ptr).
Proof. apply only_appends_Insert. Qed.

Lemma only_appends_CreateLoad ty ptr : only_appends (CreateLoad ty ptr).
Proof. unfold CreateLoad. appends. Qed.

Lemma only_appends_CreateBinOp op lhs rhs :
  only_appends (CreateBinOp op lhs rhs).
Proof. unfold CreateBinOp. appends. Qed.

Lemma only_appends_CreateICmp p lhs rhs : only_appends (CreateICmp p lhs rhs).
Proof. unfold CreateICmp. appends. Qed.

Lemma only_appends_CreateIntegerCast v ty signed :
  only_appends (CreateIntegerCast v ty signed).
Proof. unfold CreateIntegerCast. appends. Qed.

#[local] Hint Resolve only_appends_CreateStore only_appends_CreateLoad
  only_appends_CreateBinOp only_appends_CreateICmp
  only_appends_CreateIntegerCast : appends.

Lemma only_appends_CreateIntCast v ty signed :
  only_appends (CreateIntCast v ty signed).
Proof. unfold CreateIntCast. appends. Qed.

Lemma only_appends_CreateCall callee args :
  only_appends (CreateCall callee args).
Proof. unfold CreateCall. appends. Qed.

Lemma only_appends_i1_to_boolean v : only_appends (i1_to_boolean v).
Proof. unfold i1_to_boolean. appends. Qed.

Lemma only_appends_or_throw v message : only_appends (or_throw v message).
Proof. unfold or_throw. appends. Qed.

#[local] Hint Resolve only_appends_CreateIntCast only_appends_CreateCall
  only_appends_i1_to_boolean only_appends_or_throw : appends.

Lemma only_appends_assign scope name op rhs :
  only_appends (assign scope name op rhs).
Proof. unfold assign. appends. Qed.

Lemma only_appends_binary op lhs rhs : only_appends (binary op lhs rhs).
Proof. unfold binary. appends. Qed.

Lemma only_appends_verify_arguments callee args_value callee_args idx :
  only_appends (verify_arguments callee args_value callee_args idx).
Proof.
  revert idx. induction callee_args as [|arg rest IH]; intros idx;
    cbn [verify_arguments]; appends; apply IH.
Qed.

Lemma only_appends_lower_arguments visit callee args args_value :
  Forall (fun arg => only_appends (visit arg)) args ->
  only_appends (lower_arguments visit callee args args_value).
Proof.
  intros Hargs. revert args_value.
  induction Hargs as [|arg rest Harg _ IH]; intros args_value;
    cbn [lower_arguments]; [appends|].
  apply only_appends_bind; [exact Harg|].
  intros [v|]; [apply IH | appends].
Qed.

#[local] Hint Resolve only_appends_assign only_appends_binary
  only_appends_verify_arguments : appends.

Lemma only_appends_expression_visitor scope node :
  only_appends (expression_visitor scope node).
Proof.
  induction node as [| | | | | | op rhs IHrhs | lhs op rhs IHlhs IHrhs |
                     | callee args IHargs | lhs as_ IHlhs | lhs IHlhs
                     | lhs IHlhs]
    using expression_ind_nested; cbn [expression_visitor].
  1-7, 9, 11-13: solve [appends].
  - destruct (is_assignment op).
    + destruct lhs; try apply only_appends_throw. appends.
    + appends.
  - apply only_appends_bind; [apply only_appends_getFunction|].
    intros [[? ?]|]; [|appends].
    match goal with
    | |- only_appends (if ?c then _ else _) => destruct c
    end; [appends|].
    apply only_appends_bind;
      [apply only_appends_lower_arguments; assumption|].
    intros ?. appends.
Qed.

(** X15. Whether it returns a value or throws, the lowering of an
    expression only appends to the builder's insert block: it creates no
    block and no function, leaves the insert point where it was, never
    takes an instruction number back, and changes no other block. *)
Theorem expression_only_appends
    (scope : symbol_table) (node : expression) (st : codegen_common) :
  let st' := snd (expression_visitor scope node st) in
  module_functions st' = module_functions st
  /\ insert_block st' = insert_block st
  /\ length (blocks st') = length (blocks st)
  /\ next_id st <= next_id st'
  /\ (forall bb, insert_block st <> Some bb ->
        blocks st' !! bb = blocks st !! bb)
  /\ (forall bb b, blocks st !! bb = Some b ->
        exists l, blocks st' !! bb = Some (append_insts l b)).
Proof.
  cbv zeta.
  destruct (only_appends_expression_visitor scope node st) as (l & k & ->).
  unfold emitted. cbn. destruct (insert_block st) as [cur|].
  - rewrite length_alter. repeat split; try lia.
    + intros bb Hne. apply list_lookup_alter_ne. congruence.
    + intros bb b Hb. destruct (decide (cur = bb)) as [->|Hne].
      * exists l. rewrite list_lookup_alter_eq, Hb. reflexivity.
      * exists []. rewrite list_lookup_alter_ne, Hb by exact Hne.
        destruct b. unfold append_insts. cbn. now rewrite app_nil_r.
  - repeat split; try lia. intros bb b Hb. exists []. rewrite Hb.
    destruct b. unfold append_insts. cbn. now rewrite app_nil_r.
Qed.

(** ** The blocks of structured statements *)

Lemma well_formed_emitted l k st : well_formed st -> well_formed (emitted l k st).
Proof.
  intros Hwf f bb Hf Hbb. specialize (Hwf f bb Hf Hbb).
  unfold emitted. cbn. destruct (insert_block st); [rewrite length_alter|];
    exact Hwf.
Qed.

Lemma length_blocks_emitted l k st :
  length (blocks (emitted l k st)) = length (blocks st).
Proof.
  unfold emitted. cbn. destruct (insert_block st); [apply length_alter|].
  reflexivity.
Qed.

Lemma only_appends_run {A B} (m : M A) (f : A -> M B) st b st' :
  only_appends m -> bind m f st = (Ok b, st') ->
  exists a l k, f a (emitted l k st) = (Ok b, st').
Proof.
  intros Hm H. apply bind_Ok_inv in H as (a & st1 & Ha & H).
  destruct (Hm st) as (l & k & Hst). rewrite Ha in Hst. cbn in Hst.
  subst st1. eauto.
Qed.

Lemma preserves_run {A B} I (m : M A) (f : A -> M B) st b st' :
  preserves I m (fun _ => True) -> I st -> bind m f st = (Ok b, st') ->
  exists a st1, I st1 /\ f a st1 = (Ok b, st').
Proof.
  intros Hm HI H. apply bind_Ok_inv in H as (a & st1 & Ha & H).
  exists a, st1. split; [|exact H]. exact (proj1 (Hm _ _ _ HI Ha)).
Qed.

Lemma current_function_inv st func st' :
  current_function st = (Ok func, st') ->
  st' = st
  /\ exists cur, insert_block st = Some cur /\ cur < length (blocks st).
Proof.
  unfold current_function. intros H.
  apply bind_Ok_inv in H as (cur & st1 & Hcur & H).
  apply GetInsertBlock_inv in Hcur as (-> & Hins & Hlt).
  unfold getParent, bind, get in H.
  destruct (blocks st !! cur ≫= bb_parent); [|discriminate].
  injection H as _ <-. eauto.
Qed.

Lemma BasicBlock_Create_well_formed parent st bb st' :
  well_formed st ->
  BasicBlock_Create parent st = (Ok bb, st') ->
  well_formed st'
  /\ bb = length (blocks st)
  /\ length (blocks st') = S (length (blocks st))
  /\ insert_block st' = insert_block st.
Proof.
  intros Hwf H.
  apply BasicBlock_Create_inv in H as (-> & Hins & _ & Hbs & Hfs).
  assert (Hl : length (blocks st') = S (length (blocks st))).
  { rewrite Hbs. destruct parent; [rewrite length_alter|];
      rewrite length_app; cbn; lia. }
  repeat split; auto.
  intros f bb. rewrite Hfs, Hl. destruct parent as [func|].
  - apply well_formed_create. exact Hwf.
  - intros Hf Hbb. specialize (Hwf f bb Hf Hbb). lia.
Qed.

(** A block created without a parent is empty, listed by no function and
    not the insert block. *)
Lemma fresh_block_untouched st bb st' cur :
  well_formed st ->
  insert_block st = Some cur -> cur < length (blocks st) ->
  BasicBlock_Create None st = (Ok bb, st') ->
  exit_untouched bb (count_rets st) (length (module_functions st)) st'.
Proof.
  intros Hwf Hcur Hlt H.
  apply BasicBlock_Create_inv in H as (-> & Hins & _ & Hbs & Hfs).
  unfold exit_untouched, count_rets. rewrite Hins, Hbs, Hfs, Hcur.
  rewrite sum_list_with_app. cbn [sum_list_with rets_in bb_insts filter].
  repeat split.
  - rewrite lookup_app_r by lia. now rewrite Nat.sub_diag.
  - intros Heq. injection Heq as ->. lia.
  - intros f Hf Hin. specialize (Hwf f _ Hf Hin). lia.
  - cbn. lia.
Qed.

(** The end of every structured statement: the block that was kept aside is
    attached to the function and becomes the insert block. *)
Lemma attach_block end_bb n nf func (scope : symbol_table) st scope' st' :
  exit_untouched end_bb n nf st ->
  (push_back func end_bb ;;; SetInsertPoint end_bb ;;; ret scope) st
  = (Ok scope', st') ->
  scope' = scope
  /\ insert_block st' = Some end_bb
  /\ blocks st' !! end_bb = Some {| bb_parent := Some func; bb_insts := [] |}
  /\ getTerminator st' = (Ok None, st').
Proof.
  intros (Hempty & _) H. injection H as <- <-.
  destruct (blocks st !! end_bb) as [[p insts]|] eqn:Hb; [|discriminate].
  injection Hempty as ->.
  assert (Hb' : blocks
                  (set_functions (alter (push_block end_bb) func)
                     (set_blocks (alter (set_parent func) end_bb) st))
                !! end_bb
                = Some {| bb_parent := Some func; bb_insts := [] |}).
  { cbn. rewrite list_lookup_alter_eq, Hb. reflexivity. }
  repeat split; [exact Hb'|].
  match goal with
  | |- getTerminator ?s = _ =>
      exact (getTerminator_run s end_bb _ eq_refl Hb')
  end.
Qed.

(** The steps between the creation of the block a structured statement
    ends in and its attachment leave that block alone. *)
Ltac untouched :=
  repeat first
    [ apply preserves_ret; exact Logic.I
    | apply preserves_CreateCondBr
    | apply preserves_CreateBr
    | apply preserves_SetInsertPoint; lia
    | apply preserves_push_back; lia
    | apply preserves_codegen_statement_with, preserves_statement_visitor
    | apply preserves_unless_terminated
    | apply preserves_expression_visitor
    | apply preserves_or_throw
    | apply preserves_condition_of
    | apply preserves_bind with (P := fun _ => True); [|intros ? _] ].

Ltac walk HI H :=
  lazymatch type of HI with
  | ?I ?s =>
      lazymatch type of H with
      | bind ?m _ s = _ =>
          let Hm := fresh "Hm" in
          let a := fresh "a" in
          let st1 := fresh "st" in
          let HI' := fresh "HI" in
          let H' := fresh "H" in
          assert (Hm : preserves I m (fun _ => True)) by solve [untouched];
          destruct (preserves_run I m _ _ _ _ Hm HI H) as (a & st1 & HI' & H');
          clear H HI Hm; rename HI' into HI; rename H' into H
      end
  end.

Lemma loop_statement_opens_block retvar end_bb break_bb continue_bb body
    scope st scope' st' :
  well_formed st ->
  statement_visitor retvar end_bb break_bb continue_bb (loop_statement body)
    scope st = (Ok scope', st') ->
  scope' = scope
  /\ exists bb func,
       insert_block st' = Some bb
       /\ length (blocks st) <= bb
       /\ blocks st' !! bb = Some {| bb_parent := Some func; bb_insts := [] |}
       /\ getTerminator st' = (Ok None, st').
Proof.
  intros Hwf H. cbn [statement_visitor] in H.
  apply bind_Ok_inv in H as (func & st0 & Hfunc & H).
  apply current_function_inv in Hfunc as (-> & cur & Hcur & Hlt).
  apply bind_Ok_inv in H as (body_bb & st1 & Hbody & H).
  apply BasicBlock_Create_well_formed in Hbody as (Hwf1 & Hb1 & Hl1 & Hi1);
    [|exact Hwf].
  apply bind_Ok_inv in H as (loop_end_bb & st2 & Hend & H).
  pose proof (BasicBlock_Create_well_formed _ _ _ _ Hwf1 Hend)
    as (_ & Hb2 & _ & _).
  apply (fresh_block_untouched st1 loop_end_bb st2 cur Hwf1) in Hend as HI;
    [|congruence|lia].
  repeat walk HI H.
  destruct (attach_block _ _ _ _ _ _ _ _ HI H) as (-> & Hins & Hb & Hterm).
  split; [reflexivity|]. exists loop_end_bb, func.
  repeat split; auto. lia.
Qed.

Lemma only_appends_condition_of v : only_appends (condition_of v).
Proof. unfold condition_of. appends. Qed.

#[local] Hint Resolve only_appends_expression_visitor
  only_appends_condition_of : appends.

(** Step over a part that only appends to the insert block. *)
Ltac peel H Hwf Hlen :=
  lazymatch type of H with
  | bind ?m _ ?s = _ =>
      let l := fresh "l" in
      let k := fresh "k" in
      let a := fresh "a" in
      let H' := fresh "H" in
      let Hm := fresh "Hm" in
      let s' := fresh "appended" in
      assert (Hm : only_appends m) by solve [appends];
      destruct (only_appends_run m _ _ _ _ Hm H) as (a & l & k & H');
      clear H Hm; rename H' into H;
      apply (well_formed_emitted l k) in Hwf;
      rewrite <- (length_blocks_emitted l k s) in Hlen;
      set (s' := emitted l k s) in *; clearbody s'
  end.

Lemma if_statement_opens_block retvar end_bb break_bb continue_bb condition
    then_statement else_statement scope st scope' st' :
  well_formed st ->
  statement_visitor retvar end_bb break_bb continue_bb
    (if_statement condition then_statement else_statement) scope st
  = (Ok scope', st') ->
  scope' = scope
  /\ exists bb func,
       insert_block st' = Some bb
       /\ length (blocks st) <= bb
       /\ blocks st' !! bb = Some {| bb_parent := Some func; bb_insts := [] |}
       /\ getTerminator st' = (Ok None, st').
Proof.
  intros Hwf H. cbn [statement_visitor] in H.
  remember (length (blocks st)) as size eqn:Hlen.
  peel H Hwf Hlen. peel H Hwf Hlen. peel H Hwf Hlen.
  apply bind_Ok_inv in H as (func & st0 & Hfunc & H).
  apply current_function_inv in Hfunc as (-> & cur & Hcur & Hlt).
  apply bind_Ok_inv in H as (then_bb & st1 & Hthen & H).
  apply BasicBlock_Create_well_formed in Hthen as (Hwf1 & Hb1 & Hl1 & Hi1);
    [|exact Hwf].
  apply bind_Ok_inv in H as (else_bb & st2 & Helse & H).
  apply BasicBlock_Create_well_formed in Helse as (Hwf2 & Hb2 & Hl2 & Hi2);
    [|exact Hwf1].
  apply bind_Ok_inv in H as (merge_bb & st3 & Hmerge & H).
  pose proof (BasicBlock_Create_well_formed _ _ _ _ Hwf2 Hmerge)
    as (_ & Hb3 & _ & _).
  apply (fresh_block_untouched st2 merge_bb st3 cur Hwf2) in Hmerge as HI;
    [|congruence|lia].
  destruct else_statement as [else_statement|]; repeat walk HI H;
    destruct (attach_block _ _ _ _ _ _ _ _ HI H) as (-> & Hins & Hb & Hterm);
    (split; [reflexivity|]); exists merge_bb, func; repeat split; auto; lia.
Qed.

Lemma while_statement_opens_block retvar end_bb break_bb continue_bb
    cond_expr body scope st scope' st' :
  well_formed st ->
  statement_visitor retvar end_bb break_bb continue_bb
    (while_statement cond_expr body) scope st
  = (Ok scope', st') ->
  scope' = scope
  /\ exists bb func,
       insert_block st' = Some bb
       /\ length (blocks st) <= bb
       /\ blocks st' !! bb = Some {| bb_parent := Some func; bb_insts := [] |}
       /\ getTerminator st' = (Ok None, st').
Proof.
  intros Hwf H. cbn [statement_visitor] in H.
  apply bind_Ok_inv in H as (func & st0 & Hfunc & H).
  apply current_function_inv in Hfunc as (-> & cur & Hcur & Hlt).
  apply bind_Ok_inv in H as (cond_bb & st1 & Hcond & H).
  apply BasicBlock_Create_well_formed in Hcond as (Hwf1 & Hb1 & Hl1 & Hi1);
    [|exact Hwf].
  apply bind_Ok_inv in H as (body_bb & st2 & Hbody & H).
  apply BasicBlock_Create_well_formed in Hbody as (Hwf2 & Hb2 & Hl2 & Hi2);
    [|exact Hwf1].
  apply bind_Ok_inv in H as (loop_end_bb & st3 & Hend & H).
  pose proof (BasicBlock_Create_well_formed _ _ _ _ Hwf2 Hend)
    as (_ & Hb3 & _ & _).
  apply (fresh_block_untouched st2 loop_end_bb st3 cur Hwf2) in Hend as HI;
    [|congruence|lia].
  repeat walk HI H.
  destruct (attach_block _ _ _ _ _ _ _ _ HI H) as (-> & Hins & Hb & Hterm).
  split; [reflexivity|]. exists loop_end_bb, func. repeat split; auto; lia.
Qed.

Lemma for_statement_opens_block retvar end_bb break_bb continue_bb
    init_expr cond_expr loop_expr body scope st scope' st' :
  well_formed st ->
  statement_visitor retvar end_bb break_bb continue_bb
    (for_statement init_expr cond_expr loop_expr body) scope st
  = (Ok scope', st') ->
  scope' = scope
  /\ exists bb func,
       insert_block st' = Some bb
       /\ length (blocks st) <= bb
       /\ blocks st' !! bb = Some {| bb_parent := Some func; bb_insts := [] |}
       /\ getTerminator st' = (Ok None, st').
Proof.
  intros Hwf H. cbn [statement_visitor] in H.
  remember (length (blocks st)) as size eqn:Hlen.
  assert (Hinit :
    only_appends
      (match init_expr with
       | Some init_expr =>
           init_value <- expression_visitor scope init_expr ;;
           or_throw init_value
             "failed to generate initialization expression" ;;;
           ret tt
       | None => ret tt
       end)) by (destruct init_expr; appends).
  apply only_appends_run in H as ([] & l & k & H); [|exact Hinit].
  clear Hinit. apply (well_formed_emitted l k) in Hwf.
  rewrite <- (length_blocks_emitted l k st) in Hlen.
  set (appended := emitted l k st) in *. clearbody appended.
  apply bind_Ok_inv in H as (func & st0 & Hfunc & H).
  apply current_function_inv in Hfunc as (-> & cur & Hcur & Hlt).
  apply bind_Ok_inv in H as (cond_bb & st1 & Hcond & H).
  apply BasicBlock_Create_well_formed in Hcond as (Hwf1 & Hb1 & Hl1 & Hi1);
    [|exact Hwf].
  apply bind_Ok_inv in H as (loop_bb & st2 & Hloop & H).
  apply BasicBlock_Create_well_formed in Hloop as (Hwf2 & Hb2 & Hl2 & Hi2);
    [|exact Hwf1].
  apply bind_Ok_inv in H as (body_bb & st3 & Hbody & H).
  apply BasicBlock_Create_well_formed in Hbody as (Hwf3 & Hb3 & Hl3 & Hi3);
    [|exact Hwf2].
  apply bind_Ok_inv in H as (loop_end_bb & st4 & Hend & H).
  pose proof (BasicBlock_Create_well_formed _ _ _ _ Hwf3 Hend)
    as (_ & Hb4 & _ & _).
  apply (fresh_block_untouched st3 loop_end_bb st4 cur Hwf3) in Hend as HI;
    [|congruence|lia].
  destruct cond_expr as [cond_expr|], loop_expr as [loop_expr|];
    repeat walk HI H;
    destruct (attach_block _ _ _ _ _ _ _ _ HI H) as (-> & Hins & Hb & Hterm);
    (split; [reflexivity|]); exists loop_end_bb, func; repeat split; auto;
    lia.
Qed.

Lemma well_formed_inside_main : well_formed inside_main.
Proof.
  intros f bb Hf Hbb. apply list_elem_of_singleton in Hf as ->.
  apply list_elem_of_singleton in Hbb as ->. cbn. lia.
Qed.

(** X16. An [if], [loop], [while] or [for] that is lowered without an
    error, whatever its branches or body end in, leaves the scope as it was
    and the builder at the start of a block created for it: empty, attached
    to a function, without a terminator.  So the statement that follows is
    never skipped, not even after an [if] whose branches both return. *)
Theorem structured_statement_opens_block
    (retvar : option alloca) (end_bb : nat) (break_bb continue_bb : option nat)
    (node : statement) (scope scope' : symbol_table)
    (st st' : codegen_common) :
  is_structured node = true ->
  well_formed st ->
  statement_visitor retvar end_bb break_bb continue_bb node scope st
  = (Ok scope', st') ->
  scope' = scope
  /\ exists bb func,
       insert_block st' = Some bb
       /\ length (blocks st) <= bb
       /\ blocks st' !! bb = Some {| bb_parent := Some func; bb_insts := [] |}
       /\ getTerminator st' = (Ok None, st').
Proof.
  intros Hnode Hwf H. destruct node; try discriminate.
  - exact (if_statement_opens_block _ _ _ _ _ _ _ _ _ _ _ Hwf H).
  - exact (loop_statement_opens_block _ _ _ _ _ _ _ _ _ Hwf H).
  - exact (while_statement_opens_block _ _ _ _ _ _ _ _ _ _ Hwf H).
  - exact (for_statement_opens_block _ _ _ _ _ _ _ _ _ _ _ _ Hwf H).
Qed.

Lemma structured_statement_opens_block_witness :
  exists st',
    statement_visitor (Some slot_x) 1 None None if_return_return ∅ inside_main
    = (Ok ∅, st')
    /\ getTerminator st' = (Ok None, st').
Proof.
  destruct (statement_visitor (Some slot_x) 1 None None if_return_return ∅
              inside_main) as [[scope'|e] st'] eqn:Hrun;
    [|vm_compute in Hrun; discriminate].
  destruct (structured_statement_opens_block (Some slot_x) 1 None None
              if_return_return ∅ scope' inside_main st' eq_refl
              well_formed_inside_main Hrun)
    as (-> & bb & func & _ & _ & _ & Hterm).
  exists st'. split; [reflexivity | exact Hterm].
Defined.

(** ** Function declarations *)

Lemma markers_cons p ps :
  markers (p :: ps) = (if is_vararg p then 1 else 0) + markers ps.
Proof.
  unfold markers. rewrite filter_cons.
  destruct (decide (is_vararg p = true)) as [->|Hp]; [reflexivity|].
  destruct (is_vararg p); [congruence|reflexivity].
Qed.

Lemma find_vararg_spec ps is_vararg_ st :
  find_vararg ps is_vararg_ st
  = if decide (2 <= (if is_vararg_ then 1 else 0) + markers ps)
    then (Throw (runtime_error "cannot have multiple variable arguments"),
          st)
    else (Ok (is_vararg_ || bool_decide (markers ps = 1)), st).
Proof.
  revert is_vararg_. induction ps as [|r rest IH]; intros is_vararg_;
    cbn [find_vararg].
  - destruct is_vararg_; reflexivity.
  - rewrite markers_cons.
    destruct (is_vararg r), is_vararg_; rewrite ?IH; cbn [Nat.add];
      repeat match goal with
             | |- context [decide ?P] => destruct (decide P)
             | |- context [bool_decide ?P] =>
                 destruct (bool_decide_reflect P)
             end; try reflexivity; try lia.
Qed.

Lemma resolve_param_types_total named st :
  exists tys,
    resolve_param_types named st = (Ok tys, st)
    /\ Forall2 resolves_to named tys.
Proof.
  induction named as [|p rest (tys & Hrest & Htys)];
    cbn [resolve_param_types].
  - exists []. split; [reflexivity|constructor].
  - destruct (typename_to_type (id (param_type p)) (is_ptr (param_type p)))
      as [t|] eqn:Ht; [|discriminate].
    exists (type t :: tys). split.
    + cbn [or_undefined]. rewrite bind_ret.
      rewrite (bind_Ok _ _ _ _ _ Hrest). reflexivity.
    + constructor; [exists t; auto | exact Htys].
Qed.

(** X17. What a declaration checks about the variable arguments marker, in
    this order: a marker in first place is refused with "requires a named
    argument before '...'"; two markers or more are refused with "cannot
    have multiple variable arguments"; either way the module is left as it
    was.  Any other declaration adds one function without blocks at the
    end of the module.  With one marker the function is variadic and gets
    the parameters before the last one, wherever the marker stands: a
    marker that is not last becomes a named parameter and the last
    parameter is dropped. *)
Theorem function_declare_validation
    (node : function_declare) (st : codegen_common) :
  (forall p rest,
     params node = p :: rest -> is_vararg p = true ->
     visit_function_declare node st
     = (Throw (runtime_error "requires a named argument before '...'"), st))
  /\ ((forall p rest, params node = p :: rest -> is_vararg p = false) ->
      2 <= markers (params node) ->
      visit_function_declare node st
      = (Throw (runtime_error "cannot have multiple variable arguments"),
         st))
  /\ ((forall p rest, params node = p :: rest -> is_vararg p = false) ->
      markers (params node) <= 1 ->
      exists f,
        visit_function_declare node st
        = (Ok (length (module_functions st)),
           set_functions (fun fs => fs ++ [f]) st)
        /\ fn_name f = decl_name node
        /\ fn_is_vararg f = bool_decide (markers (params node) = 1)
        /\ fn_arg_names f
           = param_name
               <$> take (length (params node) - markers (params node))
                     (params node)
        /\ Forall2 resolves_to
             (take (length (params node) - markers (params node))
                (params node))
             (fn_params f)
        /\ fn_blocks f = []).
Proof.
  unfold visit_function_declare. repeat split.
  - intros p rest -> ->. reflexivity.
  - intros Hhead Hmany.
    destruct (params node) as [|p rest] eqn:Hps.
    + cbn in Hmany. lia.
    + rewrite (Hhead p rest eq_refl). unfold bind at 1.
      rewrite find_vararg_spec. cbn [Nat.add].
      destruct (decide (2 <= markers (p :: rest))); [reflexivity|lia].
  - intros Hhead Hfew.
    assert (Hfirst :
      match params node with p :: _ => is_vararg p | [] => false end = false).
    { destruct (params node) as [|p rest]; [reflexivity|].
      exact (Hhead p rest eq_refl). }
    rewrite Hfirst. clear Hfirst Hhead. unfold bind at 1.
    rewrite find_vararg_spec. cbn [Nat.add orb].
    destruct (decide (2 <= markers (params node))); [lia|].
    assert (Hlen :
      (if bool_decide (markers (params node) = 1)
       then length (params node) - 1 else length (params node))
      = length (params node) - markers (params node)).
    { destruct (bool_decide_reflect (markers (params node) = 1)); lia. }
    rewrite Hlen.
    destruct (resolve_param_types_total
                (take (length (params node) - markers (params node))
                   (params node)) st) as (tys & Htys & Hres).
    rewrite (bind_Ok _ _ _ _ _ Htys).
    destruct (typename_to_type (id (return_type node))
                (is_ptr (return_type node))) as [rt|] eqn:Hrt;
      [|discriminate].
    cbn [or_undefined]. rewrite bind_ret.
    eexists. split; [reflexivity|]. cbn. repeat split. exact Hres.
Qed.

Lemma function_declare_validation_witness :
  exists f,
    visit_function_declare declare_marker_in_the_middle empty_common
    = (Ok 0, set_functions (fun fs => fs ++ [f]) empty_common)
    /\ fn_is_vararg f = true
    /\ fn_arg_names f = ["x"; "..."].
Proof.
  destruct (proj2 (proj2 (function_declare_validation
                            declare_marker_in_the_middle empty_common)))
    as (f & Hrun & _ & Hvar & Hnames & _).
  - intros p rest Hps. injection Hps as <- _. reflexivity.
  - vm_compute. lia.
  - exists f. split; [exact Hrun|]. split; [exact Hvar | exact Hnames].
Defined.

(** ** The driver's report of an error *)

Lemma append_cons ch (s t : string) :
  String ch s +:+ t = String ch (s +:+ t).
Proof. reflexivity. Qed.

Lemma append_nil_r (s : string) : s +:+ "" = s.
Proof.
  induction s as [|ch s IH]; [reflexivity|].
  rewrite append_cons. now rewrite IH.
Qed.

Lemma append_snoc_inv (s t : string) (a b : ascii) :
  s +:+ String a "" = t +:+ String b "" -> s = t /\ a = b.
Proof.
  revert t. induction s as [|ch s IH]; intros [|ch' t]; rewrite ?append_cons;
    cbn; intros H.
  - now injection H as ->.
  - injection H as _ H. destruct t; discriminate.
  - injection H as _ H. destruct s; discriminate.
  - injection H as -> H. apply IH in H as [-> ->]. auto.
Qed.

Lemma is_back_newline_loop_snoc str before body ch :
  c_str str = body +:+ String ch "" ->
  is_back_newline_loop str before = Some (Ascii.eqb ch newline).
Proof.
  revert before body. induction str as [|c rest IH]; intros before body;
    cbn [c_str is_back_newline_loop].
  - destruct body; discriminate.
  - destruct (Ascii.eqb c zero); [destruct body; discriminate|].
    destruct body as [|c' body]; rewrite ?append_cons; cbn; intros H;
      injection H as <- H.
    + destruct rest as [|c2 rest]; cbn [c_str] in H.
      * reflexivity.
      * cbn [is_back_newline_loop].
        destruct (Ascii.eqb c2 zero); [reflexivity|discriminate].
    + exact (IH _ _ H).
Qed.

(** X18. The report of an error ends in the line "compilation terminated.",
    and a message that is not empty is separated from it by one newline,
    its own if it ends in one.  On an empty message the check for that
    newline reads the character in front of the buffer. *)
Theorem error_report_line_break (what : string) :
  (c_str what = "" -> report_runtime_error what = None)
  /\ (forall body,
        c_str what = body +:+ String newline "" ->
        report_runtime_error what
        = Some (body +:+ String newline "" +:+ "compilation terminated."
                +:+ String newline ""))
  /\ (forall body ch,
        c_str what = body +:+ String ch "" -> ch <> newline ->
        report_runtime_error what
        = Some (body +:+ String ch "" +:+ String newline ""
                +:+ "compilation terminated." +:+ String newline "")).
Proof.
  unfold report_runtime_error, is_back_newline. repeat split.
  - destruct what as [|ch rest]; [reflexivity|].
    cbn [c_str is_back_newline_loop].
    destruct (Ascii.eqb ch zero); [reflexivity|discriminate].
  - intros body H. rewrite (is_back_newline_loop_snoc _ _ _ _ H), H.
    rewrite Ascii.eqb_refl. rewrite append_assoc. reflexivity.
  - intros body ch H Hch. rewrite (is_back_newline_loop_snoc _ _ _ _ H), H.
    destruct (Ascii.eqb_spec ch newline) as [->|_]; [contradiction|].
    rewrite !append_assoc. reflexivity.
Qed.

Lemma error_report_line_break_witness :
  report_runtime_error "redefinition of 'x'"
  = Some ("redefinition of 'x'" +:+ String newline ""
          +:+ "compilation terminated." +:+ String newline "")
  /\ report_runtime_error "" = None.
Proof.
  split.
  - rewrite (proj2 (proj2 (error_report_line_break "redefinition of 'x'"))
               "redefinition of 'x" "'"%char);
      [reflexivity | reflexivity | discriminate].
  - apply (proj1 (error_report_line_break "")). reflexivity.
Defined.

(** ** The lines of the source text *)

Lemma lines_of_nil str : lines_of str = [] -> str = "".
Proof.
  destruct str as [|ch rest]; [reflexivity|]. cbn [lines_of].
  destruct (Ascii.eqb ch newline); [discriminate|].
  destruct (lines_of rest); discriminate.
Qed.

Lemma read_line_spec ch rest :
  lines_of (String ch rest)
  = fst (read_line (String ch rest))
    :: lines_of (snd (read_line (String ch rest)))
  /\ String.length (snd (read_line (String ch rest)))
     < String.length (String ch rest).
Proof.
  revert ch. induction rest as [|ch' rest IH]; intros ch.
  - cbn. destruct (Ascii.eqb ch newline); cbn; split; auto.
  - specialize (IH ch'). destruct IH as [Hlines Hlen].
    cbn [lines_of read_line] in *.
    destruct (Ascii.eqb ch newline).
    + cbn [fst snd String.length]. split; [reflexivity|lia].
    + destruct (Ascii.eqb ch' newline).
      * cbn [fst snd String.length] in *. split; [reflexivity|lia].
      * destruct (read_line rest) as [line rest'].
        cbn [fst snd String.length] in *. rewrite Hlines.
        split; [reflexivity|lia].
Qed.

Lemma splitByLine_loop_lines_of fuel ss lines :
  String.length ss < fuel ->
  splitByLine_loop fuel ss lines = Some (lines ++ lines_of ss).
Proof.
  revert ss lines. induction fuel as [|fuel IH]; intros ss lines Hfuel;
    [lia|].
  cbn [splitByLine_loop]. destruct ss as [|ch rest].
  - cbn. now rewrite app_nil_r.
  - cbn [getline]. destruct (read_line_spec ch rest) as [Hlines Hlen].
    destruct (read_line (String ch rest)) as [line ss'].
    cbn [fst snd] in *. rewrite IH by lia. rewrite Hlines.
    now rewrite <- app_assoc.
Qed.

Lemma splitByLine_lines_of str : splitByLine str = Some (lines_of str).
Proof. unfold splitByLine. now rewrite splitByLine_loop_lines_of by lia. Qed.

Lemma lines_of_newline_free str :
  Forall (fun line => count_newlines line = 0) (lines_of str).
Proof.
  induction str as [|ch rest IH]; cbn [lines_of]; [constructor|].
  destruct (Ascii.eqb ch newline) eqn:Hch.
  - constructor; [reflexivity | exact IH].
  - destruct (lines_of rest) as [|line lines].
    + constructor; [|constructor]. cbn. now rewrite Hch.
    + inversion IH as [|? ? Hline Hlines]; subst.
      constructor; [|exact Hlines]. cbn. now rewrite Hch.
Qed.

Lemma unlines_lines_of str : unlines (lines_of str) = terminated str.
Proof.
  induction str as [|ch rest IH]; [reflexivity|].
  cbn [lines_of terminated].
  destruct (Ascii.eqb_spec ch newline) as [->|Hch].
  - cbn [unlines foldr]. fold (unlines (lines_of rest)). rewrite IH.
    destruct rest; reflexivity.
  - destruct (lines_of rest) as [|line lines] eqn:Hrest.
    + apply lines_of_nil in Hrest as ->. reflexivity.
    + cbn [unlines foldr] in *. rewrite append_cons, IH.
      destruct rest; [discriminate|reflexivity].
Qed.

Lemma count_newlines_app (s t : string) :
  count_newlines (s +:+ t) = count_newlines s + count_newlines t.
Proof.
  induction s as [|ch s IH]; [reflexivity|].
  rewrite append_cons. cbn [count_newlines]. rewrite IH. lia.
Qed.

(** X19. The lines the context keeps of a source text, which the loop
    always ends with: no line holds a newline, and the lines joined again,
    a newline after each, are the text, with a newline added at the end if
    the text is not empty and has none there.  So a newline at the end of
    the text does not open another line, and an empty text has no line. *)
Theorem splitByLine_round_trip (str : string) :
  exists lines,
    splitByLine str = Some lines
    /\ Forall (fun line => count_newlines line = 0) lines
    /\ unlines lines = terminated str
    /\ length lines = count_newlines (terminated str).
Proof.
  exists (lines_of str). split; [apply splitByLine_lines_of|].
  split; [apply lines_of_newline_free|].
  split; [apply unlines_lines_of|].
  rewrite <- unlines_lines_of.
  pose proof (lines_of_newline_free str) as Hfree.
  induction Hfree as [|line lines Hline _ IH]; [reflexivity|].
  cbn [unlines foldr length]. fold (unlines lines).
  rewrite count_newlines_app, Hline. cbn [count_newlines]. rewrite Ascii.eqb_refl.
  rewrite IH. lia.
Qed.

(** ** The line an error is reported with *)

Lemma lines_of_line (line rest : string) :
  count_newlines line = 0 ->
  lines_of (line +:+ String newline rest) = line :: lines_of rest.
Proof.
  induction line as [|ch line IH]; intros Hline.
  - reflexivity.
  - rewrite append_cons. cbn [lines_of count_newlines] in *.
    destruct (Ascii.eqb ch newline); [discriminate|].
    rewrite IH by exact Hline. reflexivity.
Qed.

Lemma lines_of_last_line (line : string) :
  count_newlines line = 0 -> line <> "" -> lines_of line = [line].
Proof.
  induction line as [|ch line IH]; intros Hline Hne; [contradiction|].
  cbn [lines_of count_newlines] in *.
  destruct (Ascii.eqb ch newline); [discriminate|].
  destruct line as [|ch' line]; [reflexivity|].
  rewrite IH; [reflexivity | exact Hline | discriminate].
Qed.

Lemma lines_of_terminated (p s : string) :
  lines_of ((p +:+ String newline "") +:+ s)
  = lines_of (p +:+ String newline "") ++ lines_of s
  /\ length (lines_of (p +:+ String newline ""))
     = count_newlines (p +:+ String newline "").
Proof.
  induction p as [|ch p [IHapp IHlen]].
  - split; reflexivity.
  - rewrite !append_cons. cbn [lines_of count_newlines].
    destruct (Ascii.eqb ch newline).
    + rewrite IHapp. cbn [length]. rewrite IHlen. split; reflexivity.
    + rewrite IHapp.
      assert (Hpos : 0 < length (lines_of (p +:+ String newline ""))).
      { rewrite IHlen, count_newlines_app. cbn. lia. }
      destruct (lines_of (p +:+ String newline "")) as [|l ls];
        [cbn in Hpos; lia|].
      cbn [app length] in *. split; [reflexivity | exact IHlen].
Qed.

Lemma newlines_through_cons ch (s : string) b :
  newlines_through (String ch s) (S b)
  = (if Ascii.eqb ch newline then 1 else 0) + newlines_through s b.
Proof.
  induction b as [|b IH].
  - rewrite newlines_through_S, !newlines_through_0. unfold is_newline_at.
    cbn [String.get]. lia.
  - rewrite newlines_through_S, IH, (newlines_through_S s b).
    unfold is_newline_at. cbn [String.get]. lia.
Qed.

Lemma newlines_through_line (line post : string) b :
  count_newlines line = 0 -> b < String.length line ->
  newlines_through (line +:+ post) b = 0.
Proof.
  revert b. induction line as [|ch line IH]; intros b Hline Hb;
    [cbn in Hb; lia|].
  rewrite append_cons. cbn [count_newlines String.length] in *.
  destruct (Ascii.eqb ch newline) eqn:Hch; [discriminate|].
  destruct b as [|b].
  - rewrite newlines_through_0. unfold is_newline_at. cbn [String.get].
    now rewrite Hch.
  - rewrite newlines_through_cons, Hch. apply IH; [exact Hline | lia].
Qed.

Lemma newlines_through_prefix (pre line post : string) b :
  count_newlines line = 0 ->
  String.length pre <= S b -> b < String.length pre + String.length line ->
  newlines_through (pre +:+ line +:+ post) b = count_newlines pre.
Proof.
  revert b. induction pre as [|ch pre IH]; intros b Hline Hpre Hb.
  - change ("" +:+ line +:+ post) with (line +:+ post).
    apply newlines_through_line; [exact Hline | exact Hb].
  - rewrite append_cons. cbn [count_newlines String.length] in *.
    destruct b as [|b].
    + destruct pre; [|cbn in Hpre; lia].
      rewrite newlines_through_0. unfold is_newline_at. cbn [String.get].
      cbn. lia.
    + rewrite newlines_through_cons. rewrite IH; [reflexivity | exact Hline
                                                 | lia | lia].
Qed.

Lemma string_length_app (s t : string) :
  String.length (s +:+ t) = String.length s + String.length t.
Proof.
  induction s as [|ch s IH]; [reflexivity|].
  rewrite append_cons. cbn [String.length]. now rewrite IH.
Qed.

Lemma calcRows_newlines_through input pos :
  calcRows input pos = S (newlines_through input (begin_ pos)).
Proof.
  unfold calcRows. now rewrite calcRows_loop_count_rows, count_rows_spec.
Qed.

(** X20. The line of the source an error is reported with, for a text of
    one-byte characters, of which the context keeps the lines.  When the
    span starts inside a line, the report names the number of that line,
    one more than the number of newlines in front of it, and ends with
    that line, trimmed.  A span that starts at the newline the text ends
    with is counted on the line after it, which the context does not have:
    the access to the lines throws [std::out_of_range] and there is no
    report. *)
Theorem formatError_source_line
    (file : string) (bright_red bright_white : string -> string)
    (input : string) (lines : list string) (pos : iterator_range)
    (message : string) :
  splitByLine input = Some lines ->
  (forall pre line post,
     input = pre +:+ line +:+ post ->
     count_newlines line = 0 ->
     (pre = "" \/ exists p, pre = p +:+ String newline "") ->
     (post = "" \/ exists q, post = String newline q) ->
     String.length pre <= begin_ pos ->
     begin_ pos < String.length pre + String.length line ->
     formatError file bright_red bright_white input lines pos message
     = Some ("In file " +:+ file +:+ ", line "
             +:+ format_d (S (count_newlines pre)) +:+ ":"
             +:+ String newline "" +:+ bright_red "error: "
             +:+ bright_white (message +:+ String newline "")
             +:+ trim_copy line))
  /\ (forall pre,
        input = pre +:+ String newline "" ->
        begin_ pos = String.length pre ->
        formatError file bright_red bright_white input lines pos message
        = None).
Proof.
  intros Hlines. rewrite splitByLine_lines_of in Hlines.
  injection Hlines as <-. split.
  - intros pre line post Hinput Hline Hpre Hpost Hpre_le Hlt.
    unfold formatError. rewrite calcRows_newlines_through.
    assert (Hrows : newlines_through input (begin_ pos) = count_newlines pre).
    { rewrite Hinput. apply newlines_through_prefix; [exact Hline|lia|lia]. }
    rewrite Hrows.
    replace (S (count_newlines pre) - 1) with (count_newlines pre) by lia.
    assert (Hne : line <> "").
    { intros ->. cbn in Hlt. lia. }
    assert (Hhead : lines_of (line +:+ post) !! 0 = Some line).
    { destruct Hpost as [-> | [q ->]].
      - rewrite append_nil_r, lines_of_last_line by assumption. reflexivity.
      - rewrite lines_of_line by exact Hline. reflexivity. }
    assert (Hlookup : lines_of input !! count_newlines pre = Some line).
    { rewrite Hinput. destruct Hpre as [-> | [p ->]]; [exact Hhead|].
      destruct (lines_of_terminated p (line +:+ post)) as [-> <-].
      rewrite lookup_app_r by lia. now rewrite Nat.sub_diag. }
    rewrite Hlookup. reflexivity.
  - intros pre Hinput Hbegin. unfold formatError.
    rewrite calcRows_newlines_through.
    assert (Hrows : newlines_through input (begin_ pos)
                    = count_newlines (pre +:+ String newline "")).
    { rewrite Hinput.
      rewrite <- (append_nil_r (pre +:+ String newline "")) at 1.
      change (((pre +:+ String newline "") +:+ "")%string)
        with ((pre +:+ String newline "") +:+ "" +:+ "").
      apply newlines_through_prefix; [reflexivity| |].
      - rewrite Hbegin, string_length_app. cbn. lia.
      - rewrite Hbegin, string_length_app. cbn. lia. }
    rewrite Hrows.
    replace (S (count_newlines (pre +:+ String newline "")) - 1)
      with (count_newlines (pre +:+ String newline "")) by lia.
    rewrite Hinput.
    destruct (lines_of_terminated pre "") as [_ <-].
    rewrite lookup_ge_None_2 by lia. reflexivity.
Qed.

Lemma formatError_source_line_witness :
  formatError "main.tw" (fun s => s) (fun s => s) three_lines
    ["a"; "b"; "cd"] {| begin_ := 4; end_ := 5 |} "oops"
  = Some ("In file main.tw, line 3:" +:+ String newline "" +:+ "error: oops"
          +:+ String newline "" +:+ "cd")
  /\ formatError "main.tw" (fun s => s) (fun s => s) two_lines
       ["a"; "b"] {| begin_ := 3; end_ := 4 |} "oops"
     = None.
Proof.
  split.
  - rewrite (proj1 (formatError_source_line "main.tw" (fun s => s)
                      (fun s => s) three_lines ["a"; "b"; "cd"]
                      {| begin_ := 4; end_ := 5 |} "oops" eq_refl)
               two_lines "cd" "").
    + reflexivity.
    + reflexivity.
    + reflexivity.
    + right. exists (String "a" (String newline "b")). reflexivity.
    + left. reflexivity.
    + cbn. lia.
    + cbn. lia.
  - apply (proj2 (formatError_source_line "main.tw" (fun s => s)
                    (fun s => s) two_lines ["a"; "b"]
                    {| begin_ := 3; end_ := 4 |} "oops" eq_refl)
             (String "a" (String newline "b")));
      reflexivity.
Defined.

(** ** Initializers *)

(** X21. A definition with an initializer allocates the slot first, then
    lowers the initializer in the scope the definition was met in, where
    the variable is not bound yet.  The value is stored into the slot
    whatever its type is: it is not compared with the declared type.  An
    initializer without a value throws "failed to generate initializer for
    'name'" and leaves the slot allocated. *)
Theorem variable_definition_initializer
    (retvar : option alloca) (end_bb : nat) (break_bb continue_bb : option nat)
    (qualifier : option variable_qualifier) (name : string) (type_ : type_info)
    (initializer : expression) (scope : symbol_table)
    (st st0 st1 : codegen_common) (func cur : nat) (resolved : llvm_type_info)
    (slot : alloca) (value_ : option value) :
  scope !! name = None ->
  current_function st = (Ok func, st) ->
  typename_to_type (id type_) (is_ptr type_) = Some resolved ->
  create_entry_block_alloca func name (type resolved) st = (Ok slot, st0) ->
  expression_visitor scope initializer st0 = (Ok value_, st1) ->
  GetInsertBlock st1 = (Ok cur, st1) ->
  statement_visitor retvar end_bb break_bb continue_bb
    (variable_def_statement qualifier name type_ (Some initializer)) scope st
  = match value_ with
    | Some v =>
        (Ok (<[name := {| inst := slot;
                          is_mutable := match qualifier with
                                        | Some mutable_ => true
                                        | None => false
                                        end;
                          is_signed := type_is_signed resolved |}]> scope),
         emitted [StoreInst v (AllocaInst slot)] 0 st1)
    | None =>
        (Throw (runtime_error
                  ("failed to generate initializer for '" +:+ name +:+ "'")),
         st1)
    end.
Proof.
  intros Hfree Hfunc Hresolved Hslot Hinit Hcur. cbn [statement_visitor].
  unfold exists_. rewrite Hfree.
  rewrite bool_decide_eq_false_2 by (intros [? ?]; discriminate).
  rewrite (bind_Ok _ _ _ _ _ Hfunc), Hresolved.
  rewrite (bind_Ok _ _ _ _ _ Hslot).
  rewrite bind_assoc. rewrite (bind_Ok _ _ _ _ _ Hinit).
  destruct value_ as [v|]; [|reflexivity].
  cbn [or_throw]. rewrite bind_assoc, bind_ret.
  rewrite <- (emitted_nil st1) at 1. emit_step Hcur.
  unfold regist. rewrite Hfree. destruct qualifier as [[]|]; reflexivity.
Qed.

Lemma variable_definition_initializer_witness :
  statement_visitor None 1 None None
    (variable_def_statement None "x" u8_type (Some (int_literal 1000))) ∅
    inside_main
  = (Ok (<["x" := {| inst := slot_x_u8; is_mutable := false;
                     is_signed := false |}]> ∅),
     emitted [StoreInst (ConstantInt (IntegerTy 32) 1000)
                (AllocaInst slot_x_u8)] 0
       (snd (create_entry_block_alloca 0 "x" (IntegerTy 8) inside_main))).
Proof.
  apply (variable_definition_initializer None 1 None None None "x" u8_type
           (int_literal 1000) ∅ inside_main
           (snd (create_entry_block_alloca 0 "x" (IntegerTy 8) inside_main))
           (snd (create_entry_block_alloca 0 "x" (IntegerTy 8) inside_main))
           0 0 {| type := IntegerTy 8; type_is_signed := false |}
           slot_x_u8 (Some (ConstantInt (IntegerTy 32) 1000)));
    reflexivity.
Defined.

(** ** A definition after a declaration *)

Lemma lower_parameters_out_of_range func node_params args arg_no
    argument_values st :
  (exists f entry,
     module_functions st !! func = Some f
     /\ head (fn_blocks f) = Some entry) ->
  (exists cur, insert_block st = Some cur /\ cur < length (blocks st)) ->
  arg_no <= length node_params ->
  length node_params < arg_no + length args ->
  exists st',
    lower_parameters func node_params args arg_no argument_values st
    = (Throw (undefined_behaviour "params[getArgNo()]"), st').
Proof.
  revert arg_no argument_values st.
  induction args as [|[arg_ty arg_name] rest IH];
    intros arg_no argument_values st Hfunc Hcur Hle Hlt;
    [cbn in Hlt; lia|].
  cbn [lower_parameters].
  destruct (node_params !! arg_no) as [p|] eqn:Hp.
  - cbn [or_undefined]. rewrite bind_ret.
    destruct (typename_to_type (id (param_type p)) (is_ptr (param_type p)))
      as [arg_type|] eqn:Hty; [|discriminate].
    destruct Hfunc as (f & entry & Hf & Hentry).
    destruct (create_entry_block_alloca_Ok func arg_name (type arg_type)
                st f entry Hf Hentry) as (a & st1 & Ha).
    rewrite (bind_Ok _ _ _ _ _ Ha).
    apply create_entry_block_alloca_inv in Ha
      as (f1 & entry1 & _ & _ & _ & Hfs1 & Hins1 & Hbs1).
    destruct Hcur as (cur & Hcur & Hcur_lt).
    assert (Hlt1 : cur < length (blocks st1))
      by (rewrite Hbs1, length_alter; exact Hcur_lt).
    destruct (lookup_lt_is_Some_2 _ _ Hlt1) as [b Hb].
    unfold CreateStore.
    rewrite (bind_Ok _ _ _ _ _
               (Insert_run _ st1 cur b ltac:(congruence) Hb)).
    apply IH.
    + exists f, entry. cbn. rewrite Hfs1. auto.
    + exists cur. cbn. rewrite length_alter. split; [congruence|exact Hlt1].
    + apply lookup_lt_Some in Hp. lia.
    + cbn [length] in Hlt. lia.
  - eexists. reflexivity.
Qed.

Lemma length_zip {A B} (l : list A) (k : list B) :
  length (zip l k) = min (length l) (length k).
Proof.
  revert k. induction l as [|a l IH]; intros [|b k]; cbn; auto.
Qed.

(** X22. A definition of a name the module already has a function for
    makes no function: it opens a block in that function and goes on with
    the parameter types and argument names of the function, not with its
    own.  They are not compared: when the definition has fewer parameters
    than the function, the loop over the arguments of the function reads
    the parameter list of the definition behind its end. *)
Theorem definition_after_declaration
    (node : function_define) (st : codegen_common) (func : nat)
    (f : llvm_function) :
  list_find (fun f => fn_name f = decl_name (decl node)) (module_functions st)
  = Some (func, f) ->
  (forall func' scope st',
     define_entry node st = (Ok (func', scope), st') ->
     func' = func
     /\ module_functions st'
        = alter (push_block (length (blocks st))) func (module_functions st)
     /\ insert_block st' = Some (length (blocks st)))
  /\ (length (params (decl node)) < length (fn_params f) ->
      length (params (decl node)) < length (fn_arg_names f) ->
      exists st',
        define_entry node st
        = (Throw (undefined_behaviour "params[getArgNo()]"), st')).
Proof.
  intros Hfound.
  assert (Hget : getFunction (decl_name (decl node)) st
                 = (Ok (Some (func, f)), st)).
  { unfold getFunction, bind, get, ret. now rewrite Hfound. }
  apply list_find_Some in Hfound as (Hlookup & _ & _).
  split.
  - intros func' scope st' H. unfold define_entry in H.
    rewrite (bind_Ok _ _ _ _ _ Hget) in H. rewrite bind_ret in H.
    apply bind_Ok_inv in H as (entry & st2 & Hentry & H).
    apply BasicBlock_Create_inv in Hentry as (-> & Hins2 & _ & Hbs2 & Hfs2).
    apply bind_Ok_inv in H as (u & st3 & Hset & H). injection Hset as _ <-.
    apply bind_Ok_inv in H as (f' & st4 & Hf & H).
    unfold function_at, bind, get in Hf. cbn [module_functions] in Hf.
    destruct (module_functions st2 !! func); [|discriminate].
    injection Hf as _ <-.
    apply bind_Ok_inv in H as (scope0 & st5 & Hparams & H).
    injection H as <- <- <-.
    apply lower_parameters_frame in Hparams as (Hfs5 & Hins5 & _ & _).
    cbn [module_functions insert_block] in *.
    rewrite Hfs5, Hins5, Hfs2. auto.
  - intros Hparams Hnames. unfold define_entry.
    rewrite (bind_Ok _ _ _ _ _ Hget). rewrite bind_ret.
    destruct (BasicBlock_Create (Some func) st) as [[entry|e] st2] eqn:Hentry;
      [|discriminate].
    rewrite (bind_Ok _ _ _ _ _ Hentry).
    apply BasicBlock_Create_inv in Hentry as (-> & Hins2 & _ & Hbs2 & Hfs2).
    unfold SetInsertPoint at 1. unfold modify. unfold bind at 1.
    unfold function_at. unfold bind at 1 2. cbn [get module_functions].
    rewrite Hfs2, list_lookup_alter_eq, Hlookup. cbn [fmap option_fmap option_map ret].
    match goal with
    | |- exists _, bind (lower_parameters ?fn ?ps ?args ?n ?av) _ ?s = _ =>
        destruct (lower_parameters_out_of_range fn ps args n av s)
          as [st' Hst']
    end.
    + exists (push_block (length (blocks st)) f). cbn [module_functions].
      rewrite list_lookup_alter_eq, Hlookup.
      destruct (fn_blocks f) as [|b0 l] eqn:Hblocks;
        [exists (length (blocks st)) | exists b0];
        (split; [reflexivity|]); cbn [push_block fn_blocks];
        rewrite Hblocks; reflexivity.
    + exists (length (blocks st)). cbn [insert_block blocks].
      split; [reflexivity|]. rewrite Hbs2, length_alter, length_app. cbn.
      lia.
    + lia.
    + cbn [push_block fn_params fn_arg_names]. rewrite length_zip. lia.
    + rewrite (bind_Throw _ _ _ _ _ Hst'). eexists. reflexivity.
Qed.

Lemma definition_after_declaration_witness :
  exists st',
    define_entry define_f_without_parameters declared_f
    = (Throw (undefined_behaviour "params[getArgNo()]"), st').
Proof.
  apply (proj2 (definition_after_declaration define_f_without_parameters
                  declared_f 0 function_f eq_refl)); cbn; lia.
Defined.

(** ** Errors that cannot be thrown *)

Lemma throws_only_ret {A} P (a : A) : throws_only P (ret a).
Proof. intros st e st' H. discriminate. Qed.

Lemma throws_only_throw {A} (P : error -> Prop) e :
  P e -> throws_only P (@throw A e).
Proof. intros He st e' st' H. now injection H as <- _. Qed.

Lemma throws_only_bind {A B} P (m : M A) (f : A -> M B) :
  throws_only P m -> (forall a, throws_only P (f a)) ->
  throws_only P (bind m f).
Proof.
  intros Hm Hf st e st' H. unfold bind in H.
  destruct (m st) as [[a|e1] st1] eqn:Hrun.
  - exact (Hf a _ _ _ H).
  - injection H as <- <-. exact (Hm _ _ _ Hrun).
Qed.

Lemma throws_only_get P : throws_only P get.
Proof. intros st e st' H. discriminate. Qed.

Lemma throws_only_modify P f : throws_only P (modify f).
Proof. intros st e st' H. discriminate. Qed.

Lemma throws_only_fresh P : throws_only P fresh.
Proof. intros st e st' H. discriminate. Qed.

Lemma typename_to_type_Some t p : exists r, typename_to_type t p = Some r.
Proof. unfold typename_to_type. eauto. Qed.

Create HintDb throws.

#[local] Hint Unfold Insert GetInsertBlock getTerminator getParent
  function_at getFunction SetInsertPoint push_back BasicBlock_Create
  Function_Create create_entry_block_alloca CreateStore CreateLoad
  CreateBinOp CreateICmp CreateIntegerCast CreateIntCast CreateCall CreateBr
  CreateCondBr CreateRet i1_to_boolean condition_of or_throw or_undefined
  current_function unless_terminated when : throws.

(** An error that is not about a type that does not resolve. *)
Ltac resolved_error :=
  cbn [resolved]; unfold unresolved_type_messages;
  rewrite ?elem_of_cons, ?elem_of_nil;
  let H := fresh in
  intros H;
  repeat match type of H with
         | _ \/ _ => destruct H as [H|H]; [discriminate H|]
         end;
  first [discriminate H | exact H].

(** One step through a computation that throws no such error. *)
Ltac throws_step :=
  lazymatch goal with
  | |- throws_only _ (bind _ _) => apply throws_only_bind; [|intros ?]
  | |- throws_only _ (ret _) => apply throws_only_ret
  | |- throws_only _ (throw _) => apply throws_only_throw; resolved_error
  | |- throws_only _ get => apply throws_only_get
  | |- throws_only _ (modify _) => apply throws_only_modify
  | |- throws_only _ fresh => apply throws_only_fresh
  | |- throws_only _ (match typename_to_type ?t ?p with _ => _ end) =>
      let r := fresh "r" in
      destruct (typename_to_type_Some t p) as [r ->]
  | |- throws_only _ (match ?x with _ => _ end) => destruct x
  | |- throws_only _ _ =>
      first [ solve [eauto with throws] | progress autounfold with throws ]
  end.

Ltac throws := repeat throws_step.

Lemma throws_only_assign scope name op rhs :
  throws_only resolved (assign scope name op rhs).
Proof. unfold assign. throws. Qed.

Lemma throws_only_binary op lhs rhs : throws_only resolved (binary op lhs rhs).
Proof. unfold binary. throws. Qed.

Lemma throws_only_verify_arguments callee args_value callee_args idx :
  throws_only resolved (verify_arguments callee args_value callee_args idx).
Proof.
  revert idx. induction callee_args as [|arg rest IH]; intros idx;
    cbn [verify_arguments]; throws; apply IH.
Qed.

Lemma throws_only_lower_arguments visit callee args args_value :
  Forall (fun arg => throws_only resolved (visit arg)) args ->
  throws_only resolved (lower_arguments visit callee args args_value).
Proof.
  intros Hargs. revert args_value.
  induction Hargs as [|arg rest Harg _ IH]; intros args_value;
    cbn [lower_arguments]; [throws|].
  apply throws_only_bind; [exact Harg|].
  intros [v|]; [apply IH | throws].
Qed.

#[local] Hint Resolve throws_only_assign throws_only_binary
  throws_only_verify_arguments : throws.

Lemma throws_only_expression_visitor scope node :
  throws_only resolved (expression_visitor scope node).
Proof.
  induction node as [| | | | | | op rhs IHrhs | lhs op rhs IHlhs IHrhs |
                     | callee args IHargs | lhs as_ IHlhs | lhs IHlhs
                     | lhs IHlhs]
    using expression_ind_nested; cbn [expression_visitor].
  1-7, 9, 11-13: solve [throws].
  - destruct (is_assignment op).
    + destruct lhs; throws.
    + throws.
  - apply throws_only_bind; [throws|].
    intros [[? ?]|]; [|throws].
    match goal with
    | |- throws_only _ (if ?c then _ else _) => destruct c
    end; [throws|].
    apply throws_only_bind;
      [apply throws_only_lower_arguments; assumption|].
    intros ?. throws.
Qed.

#[local] Hint Resolve throws_only_expression_visitor : throws.

Lemma throws_only_lower_statements
    (visit : statement -> symbol_table -> M symbol_table) statements scope :
  Forall (fun s => forall scope, throws_only resolved (visit s scope))
    statements ->
  throws_only resolved (lower_statements visit statements scope).
Proof.
  intros Hs. revert scope.
  induction Hs as [|r rest Hr _ IH]; intros scope; cbn [lower_statements];
    [throws|].
  apply throws_only_bind; [apply Hr|]. intros ?. throws.
Qed.

Lemma throws_only_bind_inv {A B} P (m : M A) (f : A -> M B) :
  throws_only P (bind m f) -> throws_only P m.
Proof.
  intros H st e st' Hm. apply (H st e st'). unfold bind. now rewrite Hm.
Qed.

Lemma throws_only_codegen_statement_with retvar end_bb break_bb continue_bb
    statement scope :
  (forall scope,
     throws_only resolved
       (statement_visitor retvar end_bb break_bb continue_bb statement
          scope)) ->
  throws_only resolved
    (codegen_statement_with
       (statement_visitor retvar end_bb break_bb continue_bb)
       statement scope).
Proof.
  intros Hs. destruct statement; cbn [codegen_statement_with];
    try (apply throws_only_bind; [apply Hs | intros ?; throws]).
  specialize (Hs scope). cbn [statement_visitor] in Hs.
  exact (throws_only_bind_inv _ _ _ Hs).
Qed.

#[local] Hint Resolve throws_only_codegen_statement_with : throws.

Lemma throws_only_statement_visitor node :
  forall retvar end_bb break_bb continue_bb scope,
    throws_only resolved
      (statement_visitor retvar end_bb break_bb continue_bb node scope).
Proof.
  induction node as [| statements IH | | | | condition then_ else_ IHthen IHelse
                     | body IH | cond_expr body IH
                     | init_expr cond_expr loop_expr body IH | |]
    using statement_ind_nested;
    intros retvar end_bb break_bb continue_bb scope;
    cbn [statement_visitor].
  - throws.
  - apply throws_only_bind; [|intros; throws].
    apply throws_only_lower_statements.
    eapply Forall_impl; [exact IH|]. cbv beta. auto.
  - throws.
  - throws.
  - throws.
  - destruct else_ as [else_|].
    + specialize (IHelse else_ eq_refl). throws.
    + clear IHelse. throws.
  - throws.
  - throws.
  - throws.
  - throws.
  - throws.
Qed.

Section Unresolved.

Variable verifyFunction : codegen_common -> nat -> option string.
Variable fpm_run : nat -> codegen_common -> codegen_common.

Hypothesis verifier_messages :
  forall st func message,
    verifyFunction st func = Some message ->
    message ∉ unresolved_type_messages.

Lemma throws_only_find_vararg ps is_vararg_ :
  throws_only resolved (find_vararg ps is_vararg_).
Proof.
  revert is_vararg_. induction ps as [|r rest IH]; intros is_vararg_;
    cbn [find_vararg]; throws; apply IH.
Qed.

Lemma throws_only_resolve_param_types named :
  throws_only resolved (resolve_param_types named).
Proof.
  induction named as [|p rest IH]; cbn [resolve_param_types]; throws.
Qed.

Lemma throws_only_visit_function_declare node :
  throws_only resolved (visit_function_declare node).
Proof.
  unfold visit_function_declare.
  pose proof throws_only_find_vararg. pose proof throws_only_resolve_param_types.
  throws.
Qed.

Lemma throws_only_lower_parameters func node_params args arg_no
    argument_values :
  throws_only resolved
    (lower_parameters func node_params args arg_no argument_values).
Proof.
  revert arg_no argument_values.
  induction args as [|[arg_ty arg_name] rest IH];
    intros arg_no argument_values; cbn [lower_parameters]; throws.
Qed.

Lemma throws_only_verify_and_optimize func :
  throws_only resolved (verify_and_optimize verifyFunction fpm_run func).
Proof.
  unfold verify_and_optimize. apply throws_only_bind; [throws|]. intros st.
  destruct (verifyFunction st func) as [message|] eqn:Hverify; [|throws].
  apply throws_only_bind; [throws|]. intros _.
  apply throws_only_throw. cbn [resolved].
  exact (verifier_messages _ _ _ Hverify).
Qed.

Lemma throws_only_visit_function_define node :
  throws_only resolved (visit_function_define verifyFunction fpm_run node).
Proof.
  pose proof throws_only_visit_function_declare.
  pose proof throws_only_lower_parameters.
  pose proof throws_only_statement_visitor.
  pose proof throws_only_verify_and_optimize.
  unfold visit_function_define, define_entry, define_exit, codegen_statement,
    define_return, synthesize_return, emit_return.
  throws.
Qed.

Lemma throws_only_codegen ast :
  throws_only resolved (codegen verifyFunction fpm_run ast).
Proof.
  induction ast as [|node rest IH]; cbn [codegen]; [throws|].
  apply throws_only_bind; [|intros _; exact IH].
  destruct node; cbn [top_level_visitor].
  - throws.
  - apply throws_only_visit_function_declare.
  - apply throws_only_visit_function_define.
Qed.

End Unresolved.


